(** * AutoFDO profile creation: a shallow embedding

    This development embeds two translation units of the AutoFDO tool,

    - [create_reg_prof.cc]: the depth-first walk [DFS] over the intra-function
      edges of a control-flow graph, with its file-level [visited_nodes] set,
      [CreatePropellerOptionsFromFlags] and the loop of [main] (Part I);
    - [profile_creator.cc]: [ReadPrefetchHints], with the C library's
      [fscanf] on its format, and the methods of [ProfileCreator]:
      [CheckAndAssignAddr2Line], [ReadSample], [ComputeProfile],
      [ConvertPrefetchHints], [CreateProfile], [TotalSamples],
      [GetTotalCountFromTextProfile], and [MergeSample] (Part II), over the
      classes the file only uses (its collaborators);

    gives the collaborators a model after the design document (Part III),
    and proves the properties of the design document about the traversal
    (Part IV) and about hint reading and profile creation (Part V), with
    their instances on a small binary (Part VI). *)

From Stdlib Require Import ZArith String Ascii List Lia HexString.
From stdpp Require Import base gmap sets list strings pretty.

Local Open Scope Z_scope.
#[local] Set Warnings "-clear-no-such-hyp".

(* ===================================================================== *)
(** * Part I: create_reg_prof.cc *)
(* ===================================================================== *)

Module CreateRegProf.

(** A [CFGNode*] is modelled by the identity of the node object. *)
Abbreviation CFGNode := N (only parsing).

(** A [CFGEdge] object: [src()], [sink()] and [weight()]. *)
Record CFGEdge := mkEdge { src : CFGNode; sink : CFGNode; weight : Z }.

#[global] Instance CFGEdge_eq_dec : EqDecision CFGEdge.
Proof. solve_decision. Defined.

(** The object graph: for each node object the vector returned by
    [intra_outs()], in the vector's order.  A node that has no entry has no
    outgoing intra-function edge. *)
Abbreviation CFG := (gmap N (list CFGEdge)) (only parsing).

Definition intra_outs (g : CFG) (node : CFGNode) : list CFGEdge :=
  default [] (g !! node).

(** The two callbacks are [std::function] values; an empty one
    ([nullptr]) is not called.  A callback acts on the state [U] of its
    environment (for [main], the output stream). *)
Definition invoke {A U : Type} (cb : option (A → U → U)) (a : A) (u : U) : U :=
  match cb with
  | Some f => f a u
  | None => u
  end.

Section DFS.
Context {U : Type}.
Variable g : CFG.
Variable on_node : option (CFGNode → U → U).
Variable on_edge : option (CFGEdge → U → U).

(** The program state a call of [DFS] works on: the static
    [visited_nodes] set and the state of the callbacks' environment. *)
Abbreviation State := (gset N * U)%type (only parsing).

(** The inner loop [for (auto edge : edges)]: report the edge, then
    descend into its sink with the recursive call [visit]. *)
Fixpoint for_edges (visit : CFGNode → State → option State)
    (edges : list CFGEdge) (st : State) : option State :=
  match edges with
  | [] => Some st
  | edge :: rest =>
      match visit (sink edge) (st.1, invoke on_edge edge st.2) with
      | Some st' => for_edges visit rest st'
      | None => None
      end
  end.

(** [DFS].  The recursion of the source is not structural; [fuel] bounds
    the depth of the call stack, and [None] is "fuel exhausted".
    [DFS_enough_fuel] below shows that a stack as deep as the graph has
    nodes always suffices. *)
Fixpoint DFS (fuel : nat) (node : CFGNode) (st : State) : option State :=
  match fuel with
  | O => None
  | S fuel' =>
      if decide (node ∈ st.1) then Some st
      else
        for_edges (DFS fuel') (intra_outs g node)
                  ({[node]} ∪ st.1, invoke on_node node st.2)
  end.
End DFS.

(** ** Observing the callbacks *)

(** One callback invocation. *)
Inductive Event :=
  | VisitNode (n : CFGNode)
  | VisitEdge (e : CFGEdge).

#[global] Instance Event_eq_dec : EqDecision Event.
Proof. solve_decision. Defined.

(** Callbacks that append what they are called with to a trace. *)
Definition record_node : option (CFGNode → list Event → list Event) :=
  Some (λ n tr, tr ++ [VisitNode n]).
Definition record_edge : option (CFGEdge → list Event → list Event) :=
  Some (λ e tr, tr ++ [VisitEdge e]).

(** Running a trace of invocations through a pair of callbacks. *)
Definition replay {U : Type} (on_node : option (CFGNode → U → U))
    (on_edge : option (CFGEdge → U → U)) (tr : list Event) (u : U) : U :=
  fold_left (λ u ev, match ev with
                     | VisitNode n => invoke on_node n u
                     | VisitEdge e => invoke on_edge e u
                     end) tr u.

Fixpoint trace_nodes (tr : list Event) : list CFGNode :=
  match tr with
  | [] => []
  | VisitNode n :: tr' => n :: trace_nodes tr'
  | VisitEdge _ :: tr' => trace_nodes tr'
  end.

Fixpoint trace_edges (tr : list Event) : list CFGEdge :=
  match tr with
  | [] => []
  | VisitNode _ :: tr' => trace_edges tr'
  | VisitEdge e :: tr' => e :: trace_edges tr'
  end.

(** Discovery order, read off a trace from left to right with the visited
    set [V] at its start: a node is reported only when it is not yet visited
    (and is visited from then on), and an edge is either into a visited node
    or immediately followed by the report of its sink. *)
Fixpoint discovery_order (V : gset N) (tr : list Event) : Prop :=
  match tr with
  | [] => True
  | VisitNode n :: tr' => (n ∉ V) ∧ discovery_order ({[n]} ∪ V) tr'
  | VisitEdge e :: tr' =>
      (sink e ∈ V ∨ ∃ tr'', tr' = VisitNode (sink e) :: tr'')
      ∧ discovery_order V tr'
  end.

(** The nodes that the intra-function edges lead to from a node. *)
Inductive reachable (g : CFG) (from : CFGNode) : CFGNode → Prop :=
  | reachable_here : reachable g from from
  | reachable_edge n e :
      reachable g from n → e ∈ intra_outs g n → reachable g from (sink e).

(** What one run of the loop, or one call, adds to the trace: [new] is
    appended, its nodes join the visited set, it is in discovery order, and
    the edges it reports are the edges [owed] by the caller and the outgoing
    edges of the nodes it reports. *)
Definition adds (g : CFG) (owed : list CFGEdge)
    (st st' : gset N * list Event) (new : list Event) : Prop :=
  st'.2 = st.2 ++ new
  ∧ st'.1 = st.1 ∪ list_to_set (trace_nodes new)
  ∧ discovery_order st.1 new
  ∧ trace_edges new ≡ₚ owed ++ mjoin (intra_outs g <$> trace_nodes new).

(** The cycle of the design document: A→B, B→C, C→A, B→exit. *)
Definition nA : CFGNode := 1%N.
Definition nB : CFGNode := 2%N.
Definition nC : CFGNode := 3%N.
Definition nExit : CFGNode := 4%N.

Definition cycle_cfg : CFG :=
  list_to_map [(nA, [mkEdge nA nB 10]);
               (nB, [mkEdge nB nC 7; mkEdge nB nExit 3]);
               (nC, [mkEdge nC nA 7])].

(** The diamond A→B, A→C, B→exit, C→exit. *)
Definition diamond_cfg : CFG :=
  list_to_map [(nA, [mkEdge nA nB 1; mkEdge nA nC 2]);
               (nB, [mkEdge nB nExit 1]);
               (nC, [mkEdge nC nExit 2])].

(** ** The options of the profile writer *)

(** The command-line flags of [create_reg_prof.cc]. *)
Record Flags := mkFlags {
  FLAGS_binary : string;
  FLAGS_profile : string;
  FLAGS_out : string;
  FLAGS_propeller_symorder : string;
}.

(** The options that [PropellerOptionsBuilder] builds: the fields the file
    sets. *)
Record PropellerOptions := mkOptions {
  binary_name : string;
  perf_names : list string;
  cluster_out_name : string;
  symbol_order_out_name : string;
  profiled_binary_name : string;
  ignore_build_id : bool;
}.

(** [absl::StrSplit(s, sep)]: the pieces between the separators, empty
    pieces included; one empty piece for the empty string. *)
Fixpoint StrSplit (sep : ascii) (s : string) : list string :=
  match s with
  | EmptyString => [EmptyString]
  | String c s' =>
      if Ascii.eqb c sep then EmptyString :: StrSplit sep s'
      else match StrSplit sep s' with
           | piece :: pieces => String c piece :: pieces
           | [] => [String c EmptyString]
           end
  end.

(** The values that [pf] takes in [while (std::getline(fin, pf))]: the
    text up to each newline, and the text after the last newline when there
    is any. *)
Fixpoint getlines (text : string) : list string :=
  match text with
  | EmptyString => []
  | String c text' =>
      if Ascii.eqb c "010" then EmptyString :: getlines text'
      else match getlines text' with
           | line :: lines => String c line :: lines
           | [] => [String c EmptyString]
           end
  end.

(** [!pf.empty()]. *)
Definition nonempty (pf : string) : bool :=
  match pf with
  | EmptyString => false
  | String _ _ => true
  end.

(** [!s.empty() && s[0] == c]. *)
Definition starts_with (c : ascii) (s : string) : bool :=
  match s with
  | EmptyString => false
  | String c' _ => Ascii.eqb c' c
  end.

(** [!pf.empty() && pf[0] != '#']. *)
Definition listed (pf : string) : bool :=
  nonempty pf && negb (starts_with "#" pf).

(** [s.substr(1)] of a string that is not empty. *)
Definition substr1 (s : string) : string :=
  match s with
  | EmptyString => EmptyString
  | String _ s' => s'
  end.

(** [CreatePropellerOptionsFromFlags].  [fs] holds the files that
    [std::ifstream] can open; a stream that failed to open yields no line. *)
Definition CreatePropellerOptionsFromFlags (fs : gmap string string)
    (flags : Flags) : PropellerOptions :=
  let pstr := FLAGS_profile flags in
  let names :=
    if starts_with "@" pstr then
      match fs !! substr1 pstr with
      | Some text => List.filter listed (getlines text)
      | None => []
      end
    else List.filter nonempty (StrSplit ";" pstr) in
  mkOptions (FLAGS_binary flags) names (FLAGS_out flags)
            "./symbol_order.txt" EmptyString false.

(** ** The loop of [main] *)

(** A [ControlFlowGraph] of the object graph, by what [main] asks of it:
    [GetPrimaryName()] and [GetEntryNode()]. *)
Record ControlFlowGraph := mkCfg {
  GetPrimaryName : string;
  GetEntryNode : CFGNode;
}.

(** [std::endl]. *)
Definition endl : string := String "010" EmptyString.

(** The node callback of [main]: [std::cout << node->bb_index() << " "].
    [bb_index] gives each node object its index. *)
Definition print_bb_index (bb_index : CFGNode → Z)
    : option (CFGNode → string → string) :=
  Some (λ node out, out +:+ pretty (bb_index node) +:+ " ").

(** The loop [for (auto* cfg : cfgs)] of [main], on the visited set and
    the text written to [std::cout].  The call of [DFS] has one stack frame
    more than the graph has nodes with edges, which is enough
    ([DFS_enough_fuel]). *)
Fixpoint main_loop (g : CFG) (bb_index : CFGNode → Z)
    (cfgs : list ControlFlowGraph) (st : gset N * string)
    : option (gset N * string) :=
  match cfgs with
  | [] => Some st
  | cfg :: cfgs' =>
      let out := st.2 +:+ "CFG:" +:+ GetPrimaryName cfg +:+ endl in
      (* visited_nodes.clear(); *)
      match DFS g (print_bb_index bb_index) None (S (size (dom g)))
              (GetEntryNode cfg) (∅, out) with
      | Some st' => main_loop g bb_index cfgs' (st'.1, st'.2 +:+ endl)
      | None => None
      end
  end.

(** The text [main] writes for one graph whose blocks are visited in
    [order]. *)
Definition cfg_text (bb_index : CFGNode → Z) (cfg : ControlFlowGraph)
    (order : list CFGNode) : string :=
  "CFG:" +:+ GetPrimaryName cfg +:+ endl
  +:+ fold_right (λ node text, pretty (bb_index node) +:+ " " +:+ text)
        endl order.

(** The order of a traversal tree: an edge is reported after the node that
    owns it, and a node is reported right after an edge into it. [prev] is
    the edge reported last, if an edge was reported last. *)
Fixpoint tree_order (g : CFG) (seen : gset N) (prev : option CFGEdge)
    (tr : list Event) : Prop :=
  match tr with
  | [] => True
  | VisitNode n :: tr' =>
      (∃ e, prev = Some e ∧ sink e = n) ∧ tree_order g ({[n]} ∪ seen) None tr'
  | VisitEdge e :: tr' =>
      (∃ owner, owner ∈ seen ∧ e ∈ intra_outs g owner)
      ∧ tree_order g seen (Some e) tr'
  end.

(** The order of the inner loop: the edges of a node are reported after
    the node, in the order of its [intra_outs()] vector (with the reports of
    the descents in between). *)
Fixpoint edges_in_vector_order (g : CFG) (tr : list Event) : Prop :=
  match tr with
  | [] => True
  | VisitNode n :: tr' =>
      intra_outs g n `sublist_of` trace_edges tr'
      ∧ edges_in_vector_order g tr'
  | VisitEdge _ :: tr' => edges_in_vector_order g tr'
  end.

End CreateRegProf.

(* ===================================================================== *)
(** * Part II: profile_creator.cc *)
(* ===================================================================== *)

Module ProfileCreator.

(** ** Machine integers

    [uint64_t], [int64_t] and [uint8_t] values are integers of [Z] in the
    type's range; conversions and arithmetic wrap explicitly. *)
Definition UINT64_MAX : Z := 2 ^ 64 - 1.
Definition INT64_MAX : Z := 2 ^ 63 - 1.
Definition INT64_MIN : Z := - 2 ^ 63.

(** [static_cast<uint64_t>(z)]. *)
Definition to_uint64 (z : Z) : Z := z mod 2 ^ 64.
(** Conversion to [uint8_t]. *)
Definition to_uint8 (z : Z) : Z := z mod 2 ^ 8.

(** ** Logging

    [LOG(severity) << ...] appends a line to the log; a function that logs
    returns its value together with the lines it wrote. *)
Inductive Severity := INFO | WARNING | ERROR.

#[global] Instance Severity_eq_dec : EqDecision Severity.
Proof. solve_decision. Defined.

Record LogLine := mkLog { severity : Severity; message : string }.

#[global] Instance LogLine_eq_dec : EqDecision LogLine.
Proof. solve_decision. Defined.

Definition Logged (A : Type) : Type := A * list LogLine.

#[global] Instance Logged_ret : MRet Logged := λ A a, (a, []).
#[global] Instance Logged_bind : MBind Logged :=
  λ A B f m, let r := f m.1 in (r.1, m.2 ++ r.2).

Definition LOG (sev : Severity) (msg : string) : Logged unit :=
  (tt, [mkLog sev msg]).

(** Whether a character occurs in a string. *)
Fixpoint has_char (c : ascii) (s : string) : bool :=
  match s with
  | EmptyString => false
  | String c' s' => Ascii.eqb c c' || has_char c s'
  end.

(** [std::hex << pc] for an unsigned value. *)
Definition hex (z : Z) : string :=
  match z with
  | Zpos p => HexString.Raw.of_pos p ""
  | _ => "0"
  end.

(** ** Prefetch hints *)

Record PrefetchHint := mkHint { address : Z; delta : Z; type : string }.

#[global] Instance PrefetchHint_eq_dec : EqDecision PrefetchHint.
Proof. solve_decision. Defined.

(** *** The C library's [fscanf] on the format ["%lx,%ld,%s\n"]

    The stream is the list of characters not yet read.  The conversions
    follow the GNU C library: [%lx] and [%ld] skip white space, take an
    optional sign and the longest run of digits, and convert it as [strtoul]
    and [strtol] do (out-of-range values saturate); [%lx] also accepts a
    [0x] prefix; [%s] skips white space and takes the longest run of
    characters that are not white space; a white-space directive skips any
    amount of white space. *)
Definition isspace (c : ascii) : bool :=
  let n := N_of_ascii c in
  ((n =? 32) || ((9 <=? n) && (n <=? 13)))%N.

Fixpoint skip_space (s : list ascii) : list ascii :=
  match s with
  | c :: s' => if isspace c then skip_space s' else s
  | [] => []
  end.

Definition digit_of (base : Z) (c : ascii) : option Z :=
  let n := Z.of_N (N_of_ascii c) in
  let d := if (48 <=? n) && (n <=? 57) then n - 48
           else if (97 <=? n) && (n <=? 122) then n - 87
           else if (65 <=? n) && (n <=? 90) then n - 55
           else base in
  if d <? base then Some d else None.

Fixpoint scan_digits (base : Z) (s : list ascii) : list Z * list ascii :=
  match s with
  | c :: s' =>
      match digit_of base c with
      | Some d => let r := scan_digits base s' in (d :: r.1, r.2)
      | None => ([], s)
      end
  | [] => ([], [])
  end.

Definition digits_value (base : Z) (ds : list Z) : Z :=
  fold_left (λ acc d, acc * base + d) ds 0.

Definition scan_sign (s : list ascii) : bool * list ascii :=
  match s with
  | c :: s' =>
      if Ascii.eqb c "-" then (true, s')
      else if Ascii.eqb c "+" then (false, s')
      else (false, s)
  | [] => (false, s)
  end.

Definition strtoul (neg : bool) (v : Z) : Z :=
  if UINT64_MAX <? v then UINT64_MAX
  else if neg then to_uint64 (- v) else v.

Definition strtol (neg : bool) (v : Z) : Z :=
  Z.max INT64_MIN (Z.min INT64_MAX (if neg then - v else v)).

(** [%lx] ([SCNx64]). *)
Definition scan_x64 (s : list ascii) : option (Z * list ascii) :=
  let '(neg, s1) := scan_sign (skip_space s) in
  let '(prefixed, s2) :=
    match s1 with
    | c0 :: x :: s' =>
        if Ascii.eqb c0 "0" && (Ascii.eqb x "x" || Ascii.eqb x "X")
        then (true, s') else (false, s1)
    | _ => (false, s1)
    end in
  let '(ds, rest) := scan_digits 16 s2 in
  match ds with
  | [] => if prefixed then Some (0, rest) else None
  | _ => Some (strtoul neg (digits_value 16 ds), rest)
  end.

(** [%ld] ([SCNd64]). *)
Definition scan_d64 (s : list ascii) : option (Z * list ascii) :=
  let '(neg, s1) := scan_sign (skip_space s) in
  let '(ds, rest) := scan_digits 10 s1 in
  match ds with
  | [] => None
  | _ => Some (strtol neg (digits_value 10 ds), rest)
  end.

(** An ordinary character of the format. *)
Definition scan_char (c : ascii) (s : list ascii) : option (list ascii) :=
  match s with
  | c' :: s' => if Ascii.eqb c c' then Some s' else None
  | [] => None
  end.

Fixpoint scan_token (s : list ascii) : list ascii * list ascii :=
  match s with
  | c :: s' =>
      if isspace c then ([], s)
      else let r := scan_token s' in (c :: r.1, r.2)
  | [] => ([], [])
  end.

(** The array [char prefetch_type[5]] that [%s] writes to: room for four
    characters and the NUL that ends them. *)
Definition prefetch_type_size : nat := 5.

(** [%s]: the characters the conversion writes, starting at
    [prefetch_type], and the stream after them.  The format gives no field
    width, so the conversion writes the whole token whatever its length.  A
    token of up to four characters fits the array; a longer one is written
    past its end, and what the program does from then on is undefined: of
    such a call the embedding says nothing, and every statement about the
    type that the reader stores is made for tokens that fit ([token]
    below). *)
Definition scan_s (s : list ascii) : option (list ascii * list ascii) :=
  let '(tok, rest) := scan_token (skip_space s) in
  match tok with
  | [] => None
  | _ => Some (tok, rest)
  end.

(** [std::string type(prefetch_type)]: the characters up to the first NUL. *)
Fixpoint c_str (tok : list ascii) : string :=
  match tok with
  | c :: tok' => if Ascii.eqb c zero then EmptyString else String c (c_str tok')
  | [] => EmptyString
  end.

(** One call [fscanf(fp, "%lx,%ld,%s\n", &address, &delta, prefetch_type)]:
    [Some] when it returns 3, with the values stored and the stream after
    the call; [None] when it returns anything else.  The values are those
    of the source when the token fits [prefetch_type]. *)
Definition fscanf_hint (s : list ascii) : option (PrefetchHint * list ascii) :=
  '(address, s) ← scan_x64 s;
  s ← scan_char "," s;
  '(delta, s) ← scan_d64 s;
  s ← scan_char "," s;
  '(tok, s) ← scan_s s;
  Some (mkHint address delta (c_str tok), skip_space s).

(** *** Printing a hint file

    The inverse of the scanner on the hints that the format can carry, to
    state what lines the scanner accepts. *)

(** The character of a digit. *)
Definition digit_char (d : Z) : ascii :=
  ascii_of_N (Z.to_N (if d <? 10 then 48 + d else 87 + d)).

(** The digits of a number, most significant first, in front of [acc]. *)
Fixpoint digits_of (fuel : nat) (base n : Z) (acc : list Z) : list Z :=
  match fuel with
  | O => acc
  | S fuel' =>
      let acc' := n mod base :: acc in
      if n <? base then acc' else digits_of fuel' base (n / base) acc'
  end.

Definition print_nat (base n : Z) : list ascii :=
  digit_char <$> digits_of (S (Z.to_nat (Z.log2 n))) base n [].

Definition print_int (z : Z) : list ascii :=
  if z <? 0 then "-"%char :: print_nat 10 (- z) else print_nat 10 z.

(** A line of a hint file. *)
Definition render_hint (hint : PrefetchHint) : list ascii :=
  print_nat 16 (address hint) ++ ","%char :: print_int (delta hint)
    ++ ","%char :: list_ascii_of_string (type hint) ++ ["010"%char].

(** A digit is no space, sign, comma or [x]. *)
Definition plain (c : ascii) : bool :=
  negb (isspace c) && negb (Ascii.eqb c "-") && negb (Ascii.eqb c "+")
  && negb (Ascii.eqb c ",") && negb (Ascii.eqb c "x")
  && negb (Ascii.eqb c "X") && negb (Ascii.eqb c zero).

(** A type token: not empty, short enough to fit [prefetch_type] with its
    NUL, and with no white space and no NUL in it. *)
Definition token (s : string) : Prop :=
  s ≠ EmptyString
  ∧ (String.length s < prefetch_type_size)%nat
  ∧ Forall (λ c, isspace c = false ∧ Ascii.eqb c zero = false)
      (list_ascii_of_string s).

(** A hint as a line carries it and the reader can store it: the address
    within [uint64_t], the delta within [int64_t], and the type a token that
    fits [prefetch_type]. *)
Definition well_formed (hint : PrefetchHint) : Prop :=
  0 ≤ address hint ≤ UINT64_MAX
  ∧ INT64_MIN ≤ delta hint ≤ INT64_MAX
  ∧ token (type hint).

(** The loop [while (!feof(fp))] of [ReadPrefetchHints].  The end-of-file
    indicator is clear on a stream just opened, and set after a successful
    call exactly when the trailing white-space directive ran into the end
    of the file, that is when nothing is left.  Every successful call
    consumes input, so [fuel] (one more than the length of the file) is
    never exhausted: see [read_hints_unfold]. *)
Fixpoint read_hints (fuel : nat) (file_name : string) (s : list ascii)
    : Logged (list PrefetchHint) :=
  match fuel with
  | O => mret []
  | S fuel' =>
      match fscanf_hint s with
      | None =>
          LOG ERROR ("Error reading from " +:+ file_name);;
          mret []
      | Some (hint, rest) =>
          match rest with
          | [] => mret [hint]
          | _ =>
              hints ← read_hints fuel' file_name rest;
              mret (hint :: hints)
          end
      end
  end.

(** The hints successive calls of [fscanf] read before the stream [rest]
    is reached: every call returns 3 and leaves input. *)
Inductive scans : list ascii → list PrefetchHint → list ascii → Prop :=
  | scans_nil s : scans s [] s
  | scans_cons s hint s' hints rest :
      fscanf_hint s = Some (hint, s') → s' ≠ [] → scans s' hints rest →
      scans s (hint :: hints) rest.

(** [ReadPrefetchHints].  [fs] is the file system: the content of each file
    that [fopen] can open for reading. *)
Definition ReadPrefetchHints (fs : gmap string string) (file_name : string)
    : Logged (list PrefetchHint) :=
  match fs !! file_name with
  | None =>
      LOG ERROR ("Cannot open " +:+ file_name +:+ "to read");;
      mret []
  | Some content =>
      let s := list_ascii_of_string content in
      read_hints (S (length s)) file_name s
  end.

(** *** Lines in free layout, and what a call can store *)

(** The end of a token: the end of the input, or a white-space character. *)
Definition ends_token (rest : list ascii) : Prop :=
  match rest with
  | [] => True
  | c :: _ => isspace c = true
  end.

(** A line in free layout: white space before each field and an optional
    [0x] in front of the address. *)
Definition layout_hint (ws1 : list ascii) (prefixed : bool)
    (ws2 ws3 : list ascii) (hint : PrefetchHint) : list ascii :=
  ws1 ++ (if prefixed then ["0"; "x"]%char else [])
    ++ print_nat 16 (address hint) ++ ","%char
    :: ws2 ++ print_int (delta hint) ++ ","%char
    :: ws3 ++ list_ascii_of_string (type hint).

(** A hint as one call of [fscanf] can store it. *)
Definition storable (hint : PrefetchHint) : Prop :=
  0 ≤ address hint ≤ UINT64_MAX
  ∧ INT64_MIN ≤ delta hint ≤ INT64_MAX
  ∧ Forall (λ c, isspace c = false ∧ Ascii.eqb c zero = false)
      (list_ascii_of_string (type hint)).

(** A run of [n] characters ['0']. *)
Definition zeros (n : nat) : string :=
  string_of_list_ascii (replicate n "0"%char).

(** [stem] is [s] cut at the first occurrence of [needle]: all of [s] when
    [needle] does not occur in it, and otherwise what stands in front of
    the occurrence that no other occurrence begins before. *)
Definition cut_at_first (needle s stem : string) : Prop :=
  (stem = s ∧ ∀ pre post, s ≠ pre +:+ needle +:+ post)
  ∨ ∃ post, s = stem +:+ needle +:+ post
      ∧ ∀ pre' post', s = pre' +:+ needle +:+ post' →
          (String.length stem ≤ String.length pre')%nat.

(** ** The collaborators of [profile_creator.cc]

    The classes whose headers the file includes and whose code is outside
    it, each by the operations the file calls.  An object that a method
    mutates is passed in and returned. *)
Class Collaborators := {
  (** symbol_map.h *)
  SymbolMap : Type;
  (** source_info.h: a [SourceStack] is a vector of [SourceInfo]. *)
  SourceInfo : Type;
  SymbolMap_new : string → SymbolMap;
  set_ignore_thresholds : SymbolMap → bool → SymbolMap;
  GetSymbolInfoByAddr : SymbolMap → Z → option string;
  GetSampledSymbolStartAddressSizeMap : SymbolMap → gset Z → gmap Z Z;
  EnsureEntryInFuncForSymbol : SymbolMap → string → Z → bool * SymbolMap;
  AddIndirectCallTarget :
    SymbolMap → string → list SourceInfo → string → Z → bool * SymbolMap;
  ElideSuffixesAndMerge : SymbolMap → SymbolMap;
  (** addr2line.h: the two factories return a null pointer ([None]) when no
      resolver can be built for the binary. *)
  Addr2line : Type;
  Addr2line_Create : string → option Addr2line;
  Addr2line_CreateWithSampledFunctions : string → gmap Z Z → option Addr2line;
  set_addr2line : SymbolMap → Addr2line → SymbolMap;
  (** [symbol_map->get_addr2line()->GetInlineStack(pc, &stack)]: the stack
      that the resolver installed in the map gives for [pc]. *)
  GetInlineStack : SymbolMap → Z → list SourceInfo;
  (** sample_reader.h *)
  SampleReader : Type;
  PerfDataSampleReader : string → string → string → SampleReader;
  TextSampleReaderWriter : string → SampleReader;
  ReadAndSetTotalCount : SampleReader → bool * SampleReader;
  GetSampledAddresses : SampleReader → gset Z;
  GetTotalSampleCount : SampleReader → Z;
  IsFileExist : SampleReader → bool;
  Merge : SampleReader → SampleReader → SampleReader;
  Write : SampleReader → bool;
  (** profile.h: [Profile(reader, binary, addr2line, symbol_map)
      .ComputeProfile()], which fills the symbol map. *)
  Profile_ComputeProfile : SampleReader → string → SymbolMap → SymbolMap;
  (** profile_writer.h, and under HAVE_LLVM llvm_profile_writer.h and
      profile_symbol_list.h.  [StoreSymbolList] is the writer's side of the
      block that attaches the symbol list: [None] when
      [CreateSampleWriter] returns no writer. *)
  ProfileWriter : Type;
  WriteToFile : ProfileWriter → SymbolMap → string → bool;
  HAVE_LLVM : bool;
  StoreSymbolList : ProfileWriter → SymbolMap → string → option ProfileWriter;
  (** util/symbolize/elf_reader.h *)
  GetBuildId : string → string;
  (** The flag [--focus_binary_re]. *)
  FLAGS_focus_binary_re : string;
}.

Section Methods.
Context {collab : Collaborators}.

(** The [ProfileCreator] object. *)
Record Creator := mkCreator {
  binary_ : string;
  sample_reader_ : option SampleReader;
}.

(** [ProfileCreator(binary)]: no sample reader yet. *)
Definition Creator_new (binary : string) : Creator := mkCreator binary None.

(** [ProfileCreator::CheckAndAssignAddr2Line]. *)
Definition CheckAndAssignAddr2Line (self : Creator) (symbol_map : SymbolMap)
    (addr2line : option Addr2line) : Logged (bool * SymbolMap) :=
  match addr2line with
  | None =>
      LOG ERROR ("Error reading binary " +:+ binary_ self);;
      mret (false, symbol_map)
  | Some a => mret (true, set_addr2line symbol_map a)
  end.

(** [strstr(dup_name, ".unstripped")] followed by [*strip_ptr = 0]: the
    name up to the first occurrence of the needle. *)
Fixpoint strip_from (needle s : string) : string :=
  if String.prefix needle s then EmptyString
  else match s with
       | EmptyString => EmptyString
       | String c s' => String c (strip_from needle s')
       end.

(** [basename] (the GNU one of string.h): what follows the last slash. *)
Fixpoint basename (s : string) : string :=
  match s with
  | EmptyString => EmptyString
  | String c s' =>
      if Ascii.eqb c "/" then basename s'
      else match String.index 0 "/" s' with
           | Some _ => basename s'
           | None => s
           end
  end.

(** [build_id.resize(n, '0')] on a shorter string. *)
Definition pad_zeros (n : nat) (s : string) : string :=
  s +:+ string_of_list_ascii (replicate (n - String.length s) "0"%char).

Definition kMinPerfBuildIDStringLength : nat := 40.

(** [ProfileCreator::ReadSample].  The reader is installed before it is
    asked to read, so it stays installed when reading fails. *)
Definition ReadSample (self : Creator) (input_profile_name profiler : string)
    : Logged (bool * Creator) :=
  let read (reader : SampleReader) : Logged (bool * Creator) :=
    let '(ok, reader') := ReadAndSetTotalCount reader in
    let self' := mkCreator (binary_ self) (Some reader') in
    if ok then mret (true, self')
    else LOG ERROR "Error reading profile.";; mret (false, self') in
  if decide (profiler = "perf") then
    let '(focus_binary_re, build_id) :=
      if negb (String.eqb FLAGS_focus_binary_re "") then
        (FLAGS_focus_binary_re, EmptyString)
      else
        let file_base_name := basename (strip_from ".unstripped" (binary_ self)) in
        let build_id := GetBuildId (binary_ self) in
        (".*/" +:+ file_base_name +:+ "$",
         if (0 <? String.length build_id)%nat
            && (String.length build_id <? kMinPerfBuildIDStringLength)%nat
         then pad_zeros kMinPerfBuildIDStringLength build_id
         else build_id) in
    read (PerfDataSampleReader input_profile_name focus_binary_re build_id)
  else if decide (profiler = "text") then
    read (TextSampleReaderWriter input_profile_name)
  else
    LOG ERROR ("Unsupported profiler type: " +:+ profiler);;
    mret (false, self).

(** [ProfileCreator::TotalSamples]. *)
Definition TotalSamples (self : Creator) : Z :=
  match sample_reader_ self with
  | None => 0
  | Some reader => GetTotalSampleCount reader
  end.

(** [ProfileCreator::GetTotalCountFromTextProfile] (a static method). *)
Definition GetTotalCountFromTextProfile (input_profile_name : string)
    : Logged Z :=
  let creator := Creator_new "" in
  '(ok, creator) ← ReadSample creator input_profile_name "text";
  if negb ok then mret 0 else mret (TotalSamples creator).

(** [ProfileCreator::ComputeProfile].  [sample_reader_] is dereferenced
    without a test: the method is only called after [ReadSample] returned
    true, and the model takes the reader as an argument. *)
Definition ComputeProfile (self : Creator) (reader : SampleReader)
    (symbol_map : SymbolMap) : Logged (bool * SymbolMap) :=
  let sampled_addrs := GetSampledAddresses reader in
  let sampled_functions :=
    GetSampledSymbolStartAddressSizeMap symbol_map sampled_addrs in
  '(ok, symbol_map) ←
    CheckAndAssignAddr2Line self symbol_map
      (Addr2line_CreateWithSampledFunctions (binary_ self) sampled_functions);
  if negb ok then mret (false, symbol_map)
  else mret (true, Profile_ComputeProfile reader (binary_ self) symbol_map).

(** The state of the loop of [ConvertPrefetchHints]: the symbol map and
    the local [std::map<uint64_t, uint8_t> repeated_prefetches_indices]. *)
Record HintLoop := mkLoop {
  loop_map : SymbolMap;
  repeated_prefetches_indices : gmap Z Z;
}.

(** The name given to a hint's synthetic call target;
    [std::to_string] prints the [uint8_t] index in decimal. *)
Definition prefetch_target (type : string) (prefetch_index : Z) : string :=
  "__prefetch_" +:+ type +:+ "_" +:+ pretty prefetch_index.

(** The index the loop gives a hint ([repeated_prefetches_indices[pc]],
    zero when the address is new), and the counters after the
    post-increment, which wraps as [uint8_t] does. *)
Definition next_index (st : HintLoop) (hint : PrefetchHint) : Z :=
  default 0 (repeated_prefetches_indices st !! address hint).

Definition bump_index (st : HintLoop) (hint : PrefetchHint) : gmap Z Z :=
  <[address hint := to_uint8 (next_index st hint + 1)]>
    (repeated_prefetches_indices st).

(** The body of [for (auto &hint : hints)]. *)
Definition convert_hint (st : HintLoop) (hint : PrefetchHint)
    : Logged HintLoop :=
  let pc := address hint in
  let delta := delta hint in
  match GetSymbolInfoByAddr (loop_map st) pc with
  | None =>
      LOG INFO ("Instruction address not found:" +:+ hex pc);;
      mret st
  | Some name =>
      (* uint8_t prefetch_index = repeated_prefetches_indices[pc]++; *)
      let prefetch_index := next_index st hint in
      let indices := bump_index st hint in
      let stack := GetInlineStack (loop_map st) pc in
      let '(ensured, symbol_map) :=
        EnsureEntryInFuncForSymbol (loop_map st) name pc in
      if negb ensured then mret (mkLoop symbol_map indices)
      else
        let '(added, symbol_map) :=
          AddIndirectCallTarget symbol_map name stack
            (prefetch_target (type hint) prefetch_index) (to_uint64 delta) in
        if negb added then
          LOG WARNING ("Ignoring address " +:+ hex pc
            +:+ ". Could not add an indirect call target. Likely the "
            +:+ "inline stack is empty for this address.");;
          mret (mkLoop symbol_map indices)
        else mret (mkLoop symbol_map indices)
  end.

(** The whole loop. *)
Fixpoint convert_hints (st : HintLoop) (hints : list PrefetchHint)
    : Logged HintLoop :=
  match hints with
  | [] => mret st
  | hint :: hints' =>
      st' ← convert_hint st hint;
      convert_hints st' hints'
  end.

(** The values of [repeated_prefetches_indices] are [uint8_t]. *)
Definition uint8_counters (st : HintLoop) : Prop :=
  ∀ pc index, repeated_prefetches_indices st !! pc = Some index →
    0 ≤ index < 256.

(** The target names that the loop builds, in order: one for every hint
    that gets past the address lookup. *)
Fixpoint given_targets (st : HintLoop) (hints : list PrefetchHint)
    : list string :=
  match hints with
  | [] => []
  | hint :: hints' =>
      match GetSymbolInfoByAddr (loop_map st) (address hint) with
      | Some _ => [prefetch_target (type hint) (next_index st hint)]
      | None => []
      end ++ given_targets (convert_hint st hint).1 hints'
  end.

(** [ProfileCreator::ConvertPrefetchHints]. *)
Definition ConvertPrefetchHints (fs : gmap string string) (self : Creator)
    (profile_file : string) (symbol_map : SymbolMap)
    : Logged (bool * SymbolMap) :=
  '(ok, symbol_map) ←
    CheckAndAssignAddr2Line self symbol_map (Addr2line_Create (binary_ self));
  if negb ok then mret (false, symbol_map)
  else
    hints ← ReadPrefetchHints fs profile_file;
    st ← convert_hints (mkLoop symbol_map ∅) hints;
    mret (true, ElideSuffixesAndMerge (loop_map st)).

(** What a call of [CreateProfile] leaves behind: its return value, the
    creator, and the symbol map that [WriteToFile] was called on, if it was
    called at all. *)
Record Created := mkCreated {
  created_ok : bool;
  created_self : Creator;
  handed_to_writer : option SymbolMap;
}.

(** [ProfileCreator::CreateProfile]. *)
Definition CreateProfile (fs : gmap string string) (self : Creator)
    (input_profile_name profiler : string) (writer : ProfileWriter)
    (output_profile_name : string) (store_sym_list_in_profile : bool)
    : Logged Created :=
  let symbol_map := SymbolMap_new (binary_ self) in
  let finish (self : Creator) (symbol_map : SymbolMap) : Logged Created :=
    let writer' :=
      if HAVE_LLVM && store_sym_list_in_profile
      then StoreSymbolList writer symbol_map output_profile_name
      else Some writer in
    match writer' with
    | None => mret (mkCreated false self None)
    | Some writer =>
        mret (mkCreated (WriteToFile writer symbol_map output_profile_name)
                        self (Some symbol_map))
    end in
  if decide (profiler = "prefetch") then
    let symbol_map := set_ignore_thresholds symbol_map true in
    '(ok, symbol_map) ←
      ConvertPrefetchHints fs self input_profile_name symbol_map;
    if negb ok then mret (mkCreated false self None)
    else finish self symbol_map
  else
    '(ok, self) ← ReadSample self input_profile_name profiler;
    if negb ok then mret (mkCreated false self None)
    else
      match sample_reader_ self with
      | None =>
          (* not reached: [ReadSample] returned true, so it installed a
             reader ([ReadSample_installs_reader]) *)
          mret (mkCreated false self None)
      | Some reader =>
          '(ok, symbol_map) ← ComputeProfile self reader symbol_map;
          if negb ok then mret (mkCreated false self None)
          else finish self symbol_map
      end.

(** [MergeSample]: merge the samples of an input profile into the text
    profile [output_file], which is read first when it exists. *)
Definition MergeSample (input_file input_profiler binary output_file : string)
    : Logged bool :=
  let writer := TextSampleReaderWriter output_file in
  let '(ok, writer) :=
    if IsFileExist writer then ReadAndSetTotalCount writer
    else (true, writer) in
  if negb ok then mret false
  else
    '(ok, creator) ← ReadSample (Creator_new binary) input_file input_profiler;
    if negb ok then mret false
    else
      match sample_reader_ creator with
      | None => mret false (* not reached, as in [CreateProfile] *)
      | Some reader => mret (Write (Merge writer reader))
      end.

(** The address and the index of every hint that gets past the address
    lookup, in the order of the hints. *)
Fixpoint given_indices (st : HintLoop) (hints : list PrefetchHint)
    : list (Z * Z) :=
  match hints with
  | [] => []
  | hint :: hints' =>
      match GetSymbolInfoByAddr (loop_map st) (address hint) with
      | Some _ => [(address hint, next_index st hint)]
      | None => []
      end ++ given_indices (convert_hint st hint).1 hints'
  end.

End Methods.

End ProfileCreator.

(* ===================================================================== *)
(** * Part III: the collaborators, as the design document describes them *)
(* ===================================================================== *)

Module SpecModel.
Import ProfileCreator.

(** [SourceLocation]: (file or function id, line, discriminator). *)
Abbreviation SourceLocation := (string * Z * Z)%type (only parsing).

(** A frame of an [InlineStack]: (function id, location); the outermost
    frame comes first and the innermost last. *)
Abbreviation Frame := (string * (string * Z * Z))%type (only parsing).

(** Modelled from the spec: the [FunctionProfile] of the data model (§3),
    whose code (symbol_map.cc) is not part of the two source files: the total
    count, the counts by location, the indirect call targets by call site
    and target name, and the addresses for which [ensure_entry] has
    inserted an attribution record. *)
Record FunctionProfile := mkProfile {
  total_count : Z;
  pos_counts : gmap (string * Z * Z) Z;
  call_targets : gmap (string * Z * Z) (gmap string Z);
  entries : gset Z;
}.

Definition empty_profile : FunctionProfile := mkProfile 0 ∅ ∅ ∅.

(** Modelled from the spec: the [SymbolProfileMap] (§3), missing with
    symbol_map.cc: the profiles by function name, the [(start, size)] range
    of each function for containment queries, and the address resolver once
    one is installed (the inline stack of each address it knows). *)
Record SymbolProfileMap := mkMap {
  profiles : gmap string FunctionProfile;
  ranges : list (string * Z * Z);
  resolver : option (gmap Z (list Frame));
  ignore_thresholds : bool;
}.

(** Modelled from the spec: the sample source (§6), missing with
    sample_reader.cc: the file it reads, and after a successful read the
    count of each sampled address and their total. *)
Record Reader := mkReader {
  reader_path : string;
  reader_samples : gmap Z Z;
  reader_total : Z;
}.

(** What is on disk besides the hint files: the function ranges of each
    binary, the inline stacks of each binary that has debug information,
    the samples of each readable sample file, and the canonical name that
    suffix elision gives a function name. *)
Record World := mkWorld {
  symbols : gmap string (list (string * Z * Z));
  debug_info : gmap string (gmap Z (list Frame));
  sample_files : gmap string (gmap Z Z);
  canonical : string → string;
}.

(** Modelled from the spec: [resolve] (§4.1), missing with symbol_map.cc:
    the function whose range [start, start+size) contains the address. *)
Definition resolve (m : SymbolProfileMap) (addr : Z) : option string :=
  (λ r, r.1.1) <$>
    List.find (λ r, (r.1.2 <=? addr) && (addr <? r.1.2 + r.2)) (ranges m).

Definition update_profile (m : SymbolProfileMap) (name : string)
    (f : FunctionProfile → FunctionProfile) : SymbolProfileMap :=
  mkMap (<[name := f (default empty_profile (profiles m !! name))]> (profiles m))
        (ranges m) (resolver m) (ignore_thresholds m).

(** Modelled from the spec: [ensure_entry] (§4.1), missing with
    symbol_map.cc: idempotent, inserts an attribution record for the address
    within the function if absent, and does not fail. *)
Definition ensure_entry (m : SymbolProfileMap) (name : string) (addr : Z)
    : bool * SymbolProfileMap :=
  (true, update_profile m name (λ p,
     mkProfile (total_count p) (pos_counts p) (call_targets p)
               ({[addr]} ∪ entries p))).

(** Modelled from the spec: [add_indirect_call_target] (§4.1), missing with
    symbol_map.cc: fails on an empty stack; otherwise adds the count to the
    target's total at the leaf call-site location of the stack. *)
Definition add_indirect_call_target (m : SymbolProfileMap) (name : string)
    (stack : list Frame) (target : string) (count : Z)
    : bool * SymbolProfileMap :=
  match last stack with
  | None => (false, m)
  | Some leaf =>
      (true, update_profile m name (λ p,
         let targets := default ∅ (call_targets p !! leaf.2) in
         let total := to_uint64 (default 0 (targets !! target) + count) in
         mkProfile (total_count p) (pos_counts p)
                   (<[leaf.2 := <[target := total]> targets]> (call_targets p))
                   (entries p)))
  end.

(** The count recorded for a target at a call site of a function. *)
Definition target_count (m : SymbolProfileMap) (name : string)
    (site : string * Z * Z) (target : string) : option Z :=
  p ← profiles m !! name;
  targets ← call_targets p !! site;
  targets !! target.

Definition add_counts (a b : Z) : option Z := Some (to_uint64 (a + b)).

Definition merge_profiles (p q : FunctionProfile) : FunctionProfile :=
  mkProfile (to_uint64 (total_count p + total_count q))
            (union_with add_counts (pos_counts p) (pos_counts q))
            (union_with (λ t u, Some (union_with add_counts t u))
                        (call_targets p) (call_targets q))
            (entries p ∪ entries q).

(** Modelled from the spec: [elide_suffixes_and_merge] (§4.1), missing with
    symbol_map.cc: the profiles of all names with one canonical name are
    summed under that name.  Which suffixes are recognised is left open by
    the spec; [canon] gives each name its canonical name. *)
Definition elide_suffixes_and_merge (canon : string → string)
    (m : SymbolProfileMap) : SymbolProfileMap :=
  mkMap (map_fold (λ name p acc,
           <[canon name := match acc !! canon name with
                           | Some q => merge_profiles q p
                           | None => p
                           end]> acc) ∅ (profiles m))
        (ranges m) (resolver m) (ignore_thresholds m).

(** Modelled from the spec: the attribution of one sample by the Profile
    Builder (§4.2), missing with profile.cc: an address outside every
    function is dropped with a diagnostic; otherwise the count goes to the
    owning function's total and to the leaf location of the inline stack,
    or to the function's own location when the stack is empty. *)
Definition compute_sample (m : SymbolProfileMap) (sample : Z * Z)
    : Logged SymbolProfileMap :=
  match resolve m sample.1 with
  | None =>
      LOG INFO ("dropped sample at " +:+ hex sample.1);;
      mret m
  | Some name =>
      let stack := default [] (resolver m ≫= λ r, r !! sample.1) in
      let loc := match last stack with
                 | Some leaf => leaf.2
                 | None => (name, 0, 0)
                 end in
      mret (update_profile m name (λ p,
        mkProfile (to_uint64 (total_count p + sample.2))
                  (<[loc := to_uint64 (default 0 (pos_counts p !! loc) + sample.2)]>
                     (pos_counts p))
                  (call_targets p) (entries p)))
  end.

Fixpoint compute (m : SymbolProfileMap) (samples : list (Z * Z))
    : Logged SymbolProfileMap :=
  match samples with
  | [] => mret m
  | sample :: samples' =>
      m' ← compute_sample m sample;
      compute m' samples'
  end.

Definition read_and_total (w : World) (r : Reader) : bool * Reader :=
  match sample_files w !! reader_path r with
  | None => (false, r)
  | Some samples =>
      (true, mkReader (reader_path r) samples
               (to_uint64 (map_fold (λ _ c acc, acc + c) 0 samples)))
  end.

(** The collaborators over a given world.  The profile writer is a stub
    that accepts every map: serialisation is outside the design. *)
Definition collaborators (w : World) : Collaborators := {|
  SymbolMap := SymbolProfileMap;
  SourceInfo := Frame;
  SymbolMap_new binary := mkMap ∅ (default [] (symbols w !! binary)) None false;
  set_ignore_thresholds m b := mkMap (profiles m) (ranges m) (resolver m) b;
  GetSymbolInfoByAddr := resolve;
  GetSampledSymbolStartAddressSizeMap m addrs :=
    list_to_map ((λ r, (r.1.2, r.2)) <$>
      List.filter (λ r, existsb (λ a, (r.1.2 <=? a) && (a <? r.1.2 + r.2))
                                (elements addrs)) (ranges m));
  EnsureEntryInFuncForSymbol := ensure_entry;
  AddIndirectCallTarget := add_indirect_call_target;
  ElideSuffixesAndMerge := elide_suffixes_and_merge (canonical w);
  Addr2line := gmap Z (list Frame);
  Addr2line_Create binary := debug_info w !! binary;
  Addr2line_CreateWithSampledFunctions binary _ := debug_info w !! binary;
  set_addr2line m a := mkMap (profiles m) (ranges m) (Some a) (ignore_thresholds m);
  GetInlineStack m pc := default [] (resolver m ≫= λ r, r !! pc);
  SampleReader := Reader;
  PerfDataSampleReader path _ _ := mkReader path ∅ 0;
  TextSampleReaderWriter path := mkReader path ∅ 0;
  ReadAndSetTotalCount := read_and_total w;
  GetSampledAddresses r := dom (reader_samples r);
  GetTotalSampleCount := reader_total;
  IsFileExist r := bool_decide (is_Some (sample_files w !! reader_path r));
  Merge r1 r2 :=
    mkReader (reader_path r1)
      (union_with add_counts (reader_samples r1) (reader_samples r2))
      (to_uint64 (reader_total r1 + reader_total r2));
  Write _ := true;
  Profile_ComputeProfile r _ m := (compute m (map_to_list (reader_samples r))).1;
  ProfileWriter := unit;
  WriteToFile _ _ _ := true;
  HAVE_LLVM := false;
  StoreSymbolList w _ _ := Some w;
  GetBuildId _ := EmptyString;
  FLAGS_focus_binary_re := EmptyString;
|}.

(** The text of a file, from its lines. *)
Definition nl : string := String "010" EmptyString.

Definition unlines (lines : list string) : string :=
  fold_right (λ line text, line +:+ nl +:+ text) EmptyString lines.

(** A small world: the binary [a.out] holds [foo] at [0x1000, 0x1100) and
    [bar] at [0x2000, 0x2010); its debug information knows the inline
    stack of 0x1000 and of 0x2000 but has no context for 0x1008.  The
    binary [stripped] holds the same functions and no debug information. *)
Definition demo_ranges : list (string * Z * Z) :=
  [("foo", 4096, 256); ("bar", 8192, 16)].

Definition demo_resolver : gmap Z (list Frame) :=
  list_to_map
    [(4096, [("foo", ("foo.c", 10, 0))]);
     (8192, [("foo", ("foo.c", 12, 0)); ("bar", ("bar.c", 3, 1))])].

Definition demo_world : World :=
  mkWorld
    (list_to_map [("a.out", demo_ranges); ("stripped", demo_ranges)])
    {[ "a.out" := demo_resolver ]}
    {[ "samples.txt" := list_to_map [(4096, 5); (8192, 7); (12288, 1)] ]}
    (λ name, name).

Definition demo : Collaborators := collaborators demo_world.

(** The symbol map of [a.out] as [CreateProfile] builds it, and the state
    in which the loop over the hints starts. *)
Definition demo_map : SymbolProfileMap := mkMap ∅ demo_ranges None false.

Definition demo_loop : @HintLoop demo :=
  @mkLoop demo (mkMap ∅ demo_ranges (Some demo_resolver) false) ∅.

(** A file system that holds one hint file. *)
Definition hint_file (lines : list string) : gmap string string :=
  {[ "hints.txt" := unlines lines ]}.

(** The same collaborators in a directory where every output profile is
    there already, whether a reader can read it or not. *)
Definition with_existing_outputs (c : Collaborators) : Collaborators := {|
  SymbolMap := @SymbolMap c;
  SourceInfo := @SourceInfo c;
  SymbolMap_new := @SymbolMap_new c;
  set_ignore_thresholds := @set_ignore_thresholds c;
  GetSymbolInfoByAddr := @GetSymbolInfoByAddr c;
  GetSampledSymbolStartAddressSizeMap :=
    @GetSampledSymbolStartAddressSizeMap c;
  EnsureEntryInFuncForSymbol := @EnsureEntryInFuncForSymbol c;
  AddIndirectCallTarget := @AddIndirectCallTarget c;
  ElideSuffixesAndMerge := @ElideSuffixesAndMerge c;
  Addr2line := @Addr2line c;
  Addr2line_Create := @Addr2line_Create c;
  Addr2line_CreateWithSampledFunctions :=
    @Addr2line_CreateWithSampledFunctions c;
  set_addr2line := @set_addr2line c;
  GetInlineStack := @GetInlineStack c;
  SampleReader := @SampleReader c;
  PerfDataSampleReader := @PerfDataSampleReader c;
  TextSampleReaderWriter := @TextSampleReaderWriter c;
  ReadAndSetTotalCount := @ReadAndSetTotalCount c;
  GetSampledAddresses := @GetSampledAddresses c;
  GetTotalSampleCount := @GetTotalSampleCount c;
  IsFileExist _ := true;
  Merge := @Merge c;
  Write := @Write c;
  Profile_ComputeProfile := @Profile_ComputeProfile c;
  ProfileWriter := @ProfileWriter c;
  WriteToFile := @WriteToFile c;
  HAVE_LLVM := @HAVE_LLVM c;
  StoreSymbolList := @StoreSymbolList c;
  GetBuildId := @GetBuildId c;
  FLAGS_focus_binary_re := @FLAGS_focus_binary_re c;
|}.

End SpecModel.

(* ===================================================================== *)
(** * Part IV: the traversal of create_reg_prof.cc *)
(* ===================================================================== *)

Section DFS_facts.
Import CreateRegProf.
Context {U : Type}.
Variable g : gmap N (list CFGEdge).
Variable on_node : option (N → U → U).
Variable on_edge : option (CFGEdge → U → U).

Local Abbreviation dfs := (DFS g on_node on_edge).
Local Abbreviation loop := (for_edges on_edge).

(** The visited set only grows. *)
Lemma for_edges_visited_mono (visit : N → gset N * U → option (gset N * U)) :
  (∀ n st st', visit n st = Some st' → st.1 ⊆ st'.1) →
  ∀ edges st st', loop visit edges st = Some st' → st.1 ⊆ st'.1.
Proof.
  intros Hvisit edges. induction edges as [|e edges IH]; intros st st' Hrun.
  - simpl in Hrun. by simplify_eq.
  - simpl in Hrun.
    destruct (visit _ _) as [st1|] eqn:Hv; [|done].
    apply Hvisit in Hv. apply IH in Hrun. simpl in Hv. set_solver.
Qed.

Lemma DFS_visited_mono fuel : ∀ n st st',
  dfs fuel n st = Some st' → st.1 ⊆ st'.1.
Proof.
  induction fuel as [|fuel IH]; intros n st st' Hrun; [done|].
  simpl in Hrun. case_decide; [by simplify_eq|].
  apply (for_edges_visited_mono _ IH) in Hrun. simpl in Hrun. set_solver.
Qed.

(** More fuel does not change a result. *)
Lemma for_edges_more_fuel (v1 v2 : N → gset N * U → option (gset N * U)) :
  (∀ n st st', v1 n st = Some st' → v2 n st = Some st') →
  ∀ edges st st', loop v1 edges st = Some st' → loop v2 edges st = Some st'.
Proof.
  intros Hv edges. induction edges as [|e edges IH]; intros st st' Hrun; [done|].
  simpl in *. destruct (v1 _ _) as [st1|] eqn:H1; [|done].
  rewrite (Hv _ _ _ H1). auto.
Qed.

Lemma DFS_fuel_S fuel : ∀ n st st',
  dfs fuel n st = Some st' → dfs (S fuel) n st = Some st'.
Proof.
  induction fuel as [|fuel IH]; intros n st st' Hrun; [done|].
  simpl in Hrun. change (dfs (S (S fuel)) n st) with
    (if decide (n ∈ st.1) then Some st
     else loop (dfs (S fuel)) (intra_outs g n)
            ({[n]} ∪ st.1, invoke on_node n st.2)).
  case_decide; [done|].
  by apply (for_edges_more_fuel _ _ IH).
Qed.

Lemma DFS_fuel_le fuel fuel' n st st' :
  (fuel ≤ fuel')%nat → dfs fuel n st = Some st' → dfs fuel' n st = Some st'.
Proof.
  induction 1; [done|]. intros Hrun. by apply DFS_fuel_S, IHle.
Qed.

(** A call stack as deep as there are unvisited nodes with outgoing edges,
    plus one frame, is enough. *)
Lemma for_edges_enough_fuel (visit : N → gset N * U → option (gset N * U)) (k : nat) :
  (∀ n st, (size (dom g ∖ st.1) ≤ k)%nat → is_Some (visit n st)) →
  (∀ n st st', visit n st = Some st' → st.1 ⊆ st'.1) →
  ∀ edges st, (size (dom g ∖ st.1) ≤ k)%nat → is_Some (loop visit edges st).
Proof.
  intros Hsome Hmono edges. induction edges as [|e edges IH]; intros st Hk.
  - by eexists.
  - simpl. destruct (Hsome (sink e) (st.1, invoke on_edge e st.2)) as [st1 H1]; [done|].
    rewrite H1. apply IH. apply Hmono in H1. simpl in H1.
    etrans; [|exact Hk]. apply subseteq_size. set_solver.
Qed.

Lemma DFS_enough_fuel fuel : ∀ n st,
  (size (dom g ∖ st.1) < fuel)%nat → is_Some (dfs fuel n st).
Proof.
  induction fuel as [|fuel IH]; intros n st Hfuel; [lia|].
  simpl. case_decide as Hin; [by eexists|].
  destruct (g !! n) as [edges|] eqn:Hg.
  - apply (for_edges_enough_fuel _ (pred fuel)).
    + intros m st1 Hk. apply IH.
      assert (size (dom g ∖ st.1) ≠ 0)%nat; [|lia].
      intros Hempty%size_empty_inv.
      assert (n ∈ dom g) as Hdom by (apply elem_of_dom; eauto).
      set_solver.
    + apply DFS_visited_mono.
    + simpl.
      assert (n ∈ dom g) as Hdom by (apply elem_of_dom; eauto).
      assert (size (dom g ∖ ({[n]} ∪ st.1)) < size (dom g ∖ st.1))%nat
        as Hless; [|lia].
      apply subset_size. set_solver.
  - unfold intra_outs. rewrite Hg. by eexists.
Qed.

End DFS_facts.

Section DFS_reach.
Import CreateRegProf.
Context {U : Type}.
Variable g : gmap N (list CFGEdge).
Variable on_node : option (N → U → U).
Variable on_edge : option (CFGEdge → U → U).

Local Abbreviation dfs := (DFS g on_node on_edge).
Local Abbreviation loop := (for_edges on_edge).

(** What a call has visited: its node, everything that the edges of the
    newly visited nodes lead to, and nothing that its node does not reach. *)
Lemma for_edges_covers (visit : N → gset N * U → option (gset N * U)) :
  (∀ n st st', visit n st = Some st' →
     st.1 ⊆ st'.1 ∧ n ∈ st'.1
     ∧ (∀ m e, m ∈ st'.1 → m ∉ st.1 → e ∈ intra_outs g m → sink e ∈ st'.1)
     ∧ (∀ m, m ∈ st'.1 → m ∈ st.1 ∨ reachable g n m)) →
  ∀ edges st st', loop visit edges st = Some st' →
    st.1 ⊆ st'.1
    ∧ (∀ e, e ∈ edges → sink e ∈ st'.1)
    ∧ (∀ m e, m ∈ st'.1 → m ∉ st.1 → e ∈ intra_outs g m → sink e ∈ st'.1)
    ∧ (∀ m, m ∈ st'.1 → m ∈ st.1 ∨ ∃ e, e ∈ edges ∧ reachable g (sink e) m).
Proof.
  intros Hvisit edges. induction edges as [|e edges IH]; intros st st' Hrun.
  - simpl in Hrun. simplify_eq. split_and!; [done| |done|by left].
    intros e He. by apply elem_of_nil in He.
  - simpl in Hrun. destruct (visit _ _) as [st1|] eqn:Hv; [|done].
    apply Hvisit in Hv as (Hsub1 & Hin1 & Hclosed1 & Hreach1).
    apply IH in Hrun as (Hsub2 & Hin2 & Hclosed2 & Hreach2).
    simpl in *. split_and!.
    + set_solver.
    + intros e' [->|He']%elem_of_cons; [set_solver|by apply Hin2].
    + intros m e' Hm Hm' He'. destruct (decide (m ∈ st1.1)) as [Hm1|Hm1].
      * apply Hsub2. by eapply Hclosed1.
      * by eapply Hclosed2.
    + intros m Hm. destruct (Hreach2 m Hm) as [Hm1|(e' & He' & Hr)].
      * destruct (Hreach1 m Hm1) as [?|Hr]; [by left|].
        right. exists e. split; [by left|done].
      * right. exists e'. split; [by right|done].
Qed.

Lemma reachable_trans n m k :
  reachable g n m → reachable g m k → reachable g n k.
Proof. intros Hnm. induction 1; [done|]. by eapply reachable_edge. Qed.

Lemma DFS_covers fuel : ∀ n st st',
  dfs fuel n st = Some st' →
  st.1 ⊆ st'.1 ∧ n ∈ st'.1
  ∧ (∀ m e, m ∈ st'.1 → m ∉ st.1 → e ∈ intra_outs g m → sink e ∈ st'.1)
  ∧ (∀ m, m ∈ st'.1 → m ∈ st.1 ∨ reachable g n m).
Proof.
  induction fuel as [|fuel IH]; intros n st st' Hrun; [done|].
  simpl in Hrun. case_decide as Hin.
  - simplify_eq. split_and!; [done|done|done|by left].
  - apply (for_edges_covers _ IH) in Hrun as (Hsub & Hsinks & Hclosed & Hreach).
    simpl in *. split_and!.
    + set_solver.
    + set_solver.
    + intros m e Hm Hm' He. destruct (decide (m = n)) as [->|Hne].
      * by apply Hsinks.
      * apply (Hclosed m e); [done|set_solver|done].
    + intros m Hm. destruct (Hreach m Hm) as [Hm1|(e & He & Hr)].
      * apply elem_of_union in Hm1 as [->%elem_of_singleton|?];
          [right; constructor|by left].
      * right. eapply reachable_trans; [|exact Hr].
        eapply reachable_edge; [constructor|done].
Qed.

(** Started with nothing visited, a call visits the nodes that its node
    reaches, and no other. *)
Lemma DFS_visits_reachable fuel n u st' :
  dfs fuel n (∅, u) = Some st' →
  ∀ m, m ∈ st'.1 ↔ reachable g n m.
Proof.
  intros (_ & Hn & Hclosed & Hreach)%DFS_covers m. simpl in *. split.
  - intros Hm. destruct (Hreach m Hm) as [Hm'|?]; [set_solver|done].
  - induction 1 as [|k e _ IH He]; [done|].
    apply (Hclosed k e); [done|set_solver|done].
Qed.

End DFS_reach.

Section Trace_facts.
Import CreateRegProf.
Variable g : gmap N (list CFGEdge).

Lemma trace_nodes_app tr1 tr2 :
  trace_nodes (tr1 ++ tr2) = trace_nodes tr1 ++ trace_nodes tr2.
Proof.
  induction tr1 as [|[n|e] tr1 IH]; simpl; [done| |done]. by rewrite IH.
Qed.

Lemma trace_edges_app tr1 tr2 :
  trace_edges (tr1 ++ tr2) = trace_edges tr1 ++ trace_edges tr2.
Proof.
  induction tr1 as [|[n|e] tr1 IH]; simpl; [done|done|]. by rewrite IH.
Qed.

Lemma replay_app {U} (cn : option (N → U → U)) (ce : option (CFGEdge → U → U))
    tr1 tr2 u :
  replay cn ce (tr1 ++ tr2) u = replay cn ce tr2 (replay cn ce tr1 u).
Proof. unfold replay. by rewrite fold_left_app. Qed.

Lemma replay_record tr tr0 :
  replay record_node record_edge tr tr0 = tr0 ++ tr.
Proof.
  revert tr0. induction tr as [|ev tr IH]; intros tr0.
  - by rewrite app_nil_r.
  - change (replay record_node record_edge (ev :: tr) tr0)
      with (replay record_node record_edge tr
              (match ev with
               | VisitNode n => invoke record_node n tr0
               | VisitEdge e => invoke record_edge e tr0
               end)).
    rewrite IH. destruct ev; simpl; by rewrite <- app_assoc.
Qed.

(** Discovery order of a trace followed by another. *)
Lemma discovery_order_app tr1 : ∀ V tr2,
  discovery_order V tr1 →
  discovery_order (V ∪ list_to_set (trace_nodes tr1)) tr2 →
  discovery_order V (tr1 ++ tr2).
Proof.
  induction tr1 as [|[n|e] tr1 IH]; intros V tr2 H1 H2; simpl in *.
  - by rewrite (right_id_L ∅ (∪)) in H2.
  - destruct H1 as [Hn H1]. split; [done|]. apply IH; [done|].
    by replace ({[n]} ∪ V ∪ list_to_set (trace_nodes tr1))
      with (V ∪ ({[n]} ∪ list_to_set (trace_nodes tr1))) by set_solver.
  - destruct H1 as [Hsink H1]. split; [|by apply IH].
    destruct Hsink as [?|[tr'' ->]]; [by left|]. right. by eexists.
Qed.

(** In a trace in discovery order no node is reported twice, and none that
    was visited before the trace began. *)
Lemma discovery_order_fresh tr : ∀ V,
  discovery_order V tr →
  NoDup (trace_nodes tr) ∧ ∀ n, n ∈ trace_nodes tr → n ∉ V.
Proof.
  induction tr as [|[n|e] tr IH]; intros V Hd; simpl in *.
  - split; [constructor|]. intros n Hn. by apply elem_of_nil in Hn.
  - destruct Hd as [Hn Hd]. apply IH in Hd as [Hnd Hfresh]. split.
    + constructor; [|done]. intros Hin%Hfresh. set_solver.
    + intros m [->|Hm]%elem_of_cons; [done|]. apply Hfresh in Hm. set_solver.
  - destruct Hd as [_ Hd]. by apply IH.
Qed.

Local Abbreviation rdfs := (DFS g record_node record_edge).
Local Abbreviation rloop := (for_edges record_edge).

Lemma for_edges_adds (visit : N → gset N * list Event → option (gset N * list Event)) :
  (∀ n st st', visit n st = Some st' →
     ∃ new, adds g [] st st' new
       ∧ (n ∈ st.1 ∧ new = [] ∨ ∃ new', new = VisitNode n :: new')) →
  ∀ edges st st', rloop visit edges st = Some st' →
    ∃ new, adds g edges st st' new.
Proof.
  intros Hvisit edges. induction edges as [|e edges IH]; intros st st' Hrun.
  - simpl in Hrun. simplify_eq. exists []. unfold adds. split_and!; simpl.
    + by rewrite app_nil_r.
    + set_solver.
    + done.
    + done.
  - simpl in Hrun. destruct (visit _ _) as [st1|] eqn:Hv; [|done].
    apply Hvisit in Hv as (a & (Ha1 & Ha2 & Ha3 & Ha4) & Hshape).
    apply IH in Hrun as (b & Hb1 & Hb2 & Hb3 & Hb4). simpl in *.
    exists (VisitEdge e :: a ++ b). unfold adds. split_and!; simpl.
    + rewrite Hb1, Ha1, <- !app_assoc. done.
    + rewrite Hb2, Ha2, trace_nodes_app, list_to_set_app_L. set_solver.
    + split.
      * destruct Hshape as [[Hin ->]|[new' ->]]; [by left|].
        right. by eexists.
      * apply discovery_order_app; [done|]. by rewrite <- Ha2.
    + rewrite trace_edges_app, trace_nodes_app, fmap_app, join_app.
      rewrite Ha4, Hb4. simpl. f_equiv.
      rewrite !(assoc (++)). f_equiv. apply Permutation_app_comm.
Qed.

Lemma DFS_adds fuel : ∀ n st st',
  rdfs fuel n st = Some st' →
  ∃ new, adds g [] st st' new
    ∧ (n ∈ st.1 ∧ new = [] ∨ ∃ new', new = VisitNode n :: new').
Proof.
  induction fuel as [|fuel IH]; intros n st st' Hrun; [done|].
  simpl in Hrun. case_decide as Hin.
  - simplify_eq. exists []. split; [|by left]. unfold adds. split_and!; simpl.
    + by rewrite app_nil_r.
    + set_solver.
    + done.
    + done.
  - apply (for_edges_adds _ IH) in Hrun as (new & H1 & H2 & H3 & H4).
    simpl in *. exists (VisitNode n :: new). split; [|right; by eexists].
    unfold adds. split_and!; simpl.
    + by rewrite H1, <- app_assoc.
    + rewrite H2. set_solver.
    + done.
    + by rewrite H4.
Qed.

(** Any pair of callbacks sees the invocations that the recording pair
    writes down, in the same order. *)
Lemma for_edges_replay {U} (cn : option (N → U → U)) (ce : option (CFGEdge → U → U))
    (u0 : U) (tr0 : list Event)
    (rvisit : N → gset N * list Event → option (gset N * list Event))
    (visit : N → gset N * U → option (gset N * U)) :
  (∀ n V new V' tr', rvisit n (V, tr0 ++ new) = Some (V', tr') →
     ∃ new', tr' = tr0 ++ new'
       ∧ visit n (V, replay cn ce new u0) = Some (V', replay cn ce new' u0)) →
  ∀ edges V new V' tr',
    rloop rvisit edges (V, tr0 ++ new) = Some (V', tr') →
    ∃ new', tr' = tr0 ++ new'
      ∧ for_edges ce visit edges (V, replay cn ce new u0)
        = Some (V', replay cn ce new' u0).
Proof.
  intros Hvisit edges. induction edges as [|e edges IH]; intros V new V' tr' Hrun.
  - simpl in *. simplify_eq. by eexists.
  - simpl in Hrun. rewrite <- app_assoc in Hrun.
    destruct (rvisit _ _) as [[V1 tr1]|] eqn:Hv; [|done].
    apply Hvisit in Hv as (new1 & -> & Hv). apply IH in Hrun as (new' & -> & Hrun).
    exists new'. split; [done|]. simpl.
    rewrite replay_app in Hv. simpl in Hv. by rewrite Hv.
Qed.

Lemma DFS_replay {U} (cn : option (N → U → U)) (ce : option (CFGEdge → U → U))
    (u0 : U) (tr0 : list Event) fuel :
  ∀ n V new V' tr', rdfs fuel n (V, tr0 ++ new) = Some (V', tr') →
    ∃ new', tr' = tr0 ++ new'
      ∧ DFS g cn ce fuel n (V, replay cn ce new u0)
        = Some (V', replay cn ce new' u0).
Proof.
  induction fuel as [|fuel IH]; intros n V new V' tr' Hrun; [done|].
  simpl in *. case_decide as Hin.
  - simplify_eq. by eexists.
  - rewrite <- app_assoc in Hrun.
    apply (for_edges_replay cn ce u0 tr0 _ _ IH) in Hrun as (new' & -> & Hrun).
    exists new'. split; [done|]. by rewrite replay_app in Hrun.
Qed.

End Trace_facts.

Section Tree_facts.
Import CreateRegProf.
Variable g : gmap N (list CFGEdge).

Lemma tree_order_app a : ∀ seen prev b,
  tree_order g seen prev a →
  (∀ prev', tree_order g (seen ∪ list_to_set (trace_nodes a)) prev' b) →
  tree_order g seen prev (a ++ b).
Proof.
  induction a as [|[n|e] a IH]; intros seen prev b Ha Hb; simpl in *.
  - rewrite (right_id_L ∅ (∪)) in Hb. apply Hb.
  - destruct Ha as [He Ha]. split; [done|]. apply IH; [done|].
    intros prev'.
    by replace ({[n]} ∪ seen ∪ list_to_set (trace_nodes a))
      with (seen ∪ ({[n]} ∪ list_to_set (trace_nodes a))) by set_solver.
  - destruct Ha as [He Ha]. split; [done|]. by apply IH.
Qed.

Lemma for_edges_tree (owner : N)
    (visit : N → gset N * list Event → option (gset N * list Event)) :
  (∀ n st st', visit n st = Some st' →
     ∃ new, st'.2 = st.2 ++ new
       ∧ ∀ seen e, sink e = n → tree_order g seen (Some e) new) →
  ∀ edges st st',
    (∀ e, e ∈ edges → e ∈ intra_outs g owner) →
    for_edges record_edge visit edges st = Some st' →
    ∃ new, st'.2 = st.2 ++ new
      ∧ ∀ seen prev, owner ∈ seen → tree_order g seen prev new.
Proof.
  intros Hvisit edges. induction edges as [|e edges IH]; intros st st' Hown Hrun.
  - simpl in Hrun. simplify_eq. exists []. by rewrite app_nil_r.
  - simpl in Hrun. destruct (visit _ _) as [st1|] eqn:Hv; [|done].
    apply Hvisit in Hv as (a & Ha & Htree).
    apply IH in Hrun as (b & Hb & Hrest);
      [|intros e' He'; apply Hown; by right].
    exists (VisitEdge e :: a ++ b). split.
    + simpl in *. by rewrite Hb, Ha, <- !app_assoc.
    + intros seen prev Hseen. simpl. split.
      * exists owner. split; [done|]. apply Hown. by left.
      * apply tree_order_app; [by apply Htree|].
        intros prev'. apply Hrest. set_solver.
Qed.

Lemma DFS_tree fuel : ∀ n st st',
  DFS g record_node record_edge fuel n st = Some st' →
  ∃ new, st'.2 = st.2 ++ new
    ∧ ∀ seen e, sink e = n → tree_order g seen (Some e) new.
Proof.
  induction fuel as [|fuel IH]; intros n st st' Hrun; [done|].
  simpl in Hrun. case_decide as Hin.
  - simplify_eq. exists []. by rewrite app_nil_r.
  - apply (for_edges_tree n _ IH) in Hrun as (new & Hnew & Htree); [|done].
    exists (VisitNode n :: new). split.
    + simpl in *. by rewrite Hnew, <- app_assoc.
    + intros seen e He. simpl. split; [by exists e|].
      apply Htree. set_solver.
Qed.

Lemma edges_in_vector_order_app a b :
  edges_in_vector_order g a → edges_in_vector_order g b →
  edges_in_vector_order g (a ++ b).
Proof.
  induction a as [|[n|e] a IH]; simpl; [done| |by auto].
  intros [Hsub Ha] Hb. split; [|by apply IH].
  rewrite trace_edges_app. by apply sublist_inserts_r.
Qed.

Lemma for_edges_vector_order
    (visit : N → gset N * list Event → option (gset N * list Event)) :
  (∀ n st st', visit n st = Some st' →
     ∃ new, st'.2 = st.2 ++ new ∧ edges_in_vector_order g new) →
  ∀ edges st st',
    for_edges record_edge visit edges st = Some st' →
    ∃ new, st'.2 = st.2 ++ new ∧ edges_in_vector_order g new
      ∧ edges `sublist_of` trace_edges new.
Proof.
  intros Hvisit edges. induction edges as [|e edges IH]; intros st st' Hrun.
  - simpl in Hrun. simplify_eq. exists []. by rewrite app_nil_r.
  - simpl in Hrun. destruct (visit _ _) as [st1|] eqn:Hv; [|done].
    apply Hvisit in Hv as (a & Ha & Hord).
    apply IH in Hrun as (b & Hb & Hrest & Hsub).
    exists (VisitEdge e :: a ++ b). split_and!.
    + simpl in *. by rewrite Hb, Ha, <- !app_assoc.
    + simpl. by apply edges_in_vector_order_app.
    + simpl. rewrite trace_edges_app.
      by apply sublist_skip, sublist_inserts_l.
Qed.

Lemma DFS_vector_order fuel : ∀ n st st',
  DFS g record_node record_edge fuel n st = Some st' →
  ∃ new, st'.2 = st.2 ++ new ∧ edges_in_vector_order g new.
Proof.
  induction fuel as [|fuel IH]; intros n st st' Hrun; [done|].
  simpl in Hrun. case_decide as Hin.
  - simplify_eq. exists []. by rewrite app_nil_r.
  - apply (for_edges_vector_order _ IH) in Hrun as (new & Hnew & Hord & Hsub).
    exists (VisitNode n :: new). split.
    + simpl in *. by rewrite Hnew, <- app_assoc.
    + by simpl.
Qed.

End Tree_facts.

Section DFS_claims.
Import CreateRegProf.

Example cycle_trace :
  snd <$> DFS cycle_cfg record_node record_edge 5 nA (∅, []) =
  Some [VisitNode nA; VisitEdge (mkEdge nA nB 10); VisitNode nB;
        VisitEdge (mkEdge nB nC 7); VisitNode nC; VisitEdge (mkEdge nC nA 7);
        VisitEdge (mkEdge nB nExit 3); VisitNode nExit].
Proof. vm_compute. reflexivity. Qed.

Example diamond_trace :
  snd <$> DFS diamond_cfg record_node record_edge 5 nA (∅, []) =
  Some [VisitNode nA; VisitEdge (mkEdge nA nB 1); VisitNode nB;
        VisitEdge (mkEdge nB nExit 1); VisitNode nExit;
        VisitEdge (mkEdge nA nC 2); VisitNode nC;
        VisitEdge (mkEdge nC nExit 2)].
Proof. vm_compute. reflexivity. Qed.

Lemma elem_of_trace_nodes n tr : VisitNode n ∈ tr ↔ n ∈ trace_nodes tr.
Proof.
  induction tr as [|[m|e] tr IH]; simpl.
  - by rewrite !elem_of_nil.
  - rewrite !elem_of_cons, IH. naive_solver.
  - rewrite elem_of_cons, IH. naive_solver.
Qed.

(** What discovery order says about one reported edge. *)
Lemma discovery_order_edge tr1 : ∀ V e tr2,
  discovery_order V (tr1 ++ VisitEdge e :: tr2) →
  let seen := V ∪ list_to_set (trace_nodes tr1) in
  (sink e ∈ seen → VisitNode (sink e) ∉ tr2)
  ∧ (sink e ∉ seen → ∃ tr2', tr2 = VisitNode (sink e) :: tr2').
Proof.
  induction tr1 as [|[n|e'] tr1 IH]; intros V e tr2 Hd; simpl in *.
  - destruct Hd as [Hsink Hd]. rewrite (right_id_L ∅ (∪)). split.
    + intros HV Hin%elem_of_trace_nodes.
      by apply (discovery_order_fresh _ _ Hd) in Hin.
    + intros HV. by destruct Hsink.
  - destruct Hd as [_ Hd]. apply IH in Hd.
    by replace (V ∪ ({[n]} ∪ list_to_set (trace_nodes tr1)))
      with ({[n]} ∪ V ∪ list_to_set (trace_nodes tr1)) by set_solver.
  - destruct Hd as [_ Hd]. by apply IH.
Qed.

(** Every call returns, whatever the callbacks and the visited set it
    starts from, and what it does is summed up by a trace. *)
Lemma DFS_run {U : Type} (g : gmap N (list CFGEdge))
    (on_node : option (N → U → U)) (on_edge : option (CFGEdge → U → U))
    (entry : N) (visited : gset N) (u : U) :
  ∃ visited' tr,
    (∀ k, DFS g on_node on_edge (S (size (dom g)) + k) entry (visited, u)
          = Some (visited', replay on_node on_edge tr u))
    ∧ visited' = visited ∪ list_to_set (trace_nodes tr)
    ∧ discovery_order visited tr
    ∧ trace_edges tr ≡ₚ mjoin (intra_outs g <$> trace_nodes tr)
    ∧ (visited = ∅ → ∀ n, n ∈ trace_nodes tr ↔ reachable g entry n).
Proof.
  destruct (DFS_enough_fuel g record_node record_edge (S (size (dom g)))
              entry (visited, [])) as [[visited' tr] Hrun].
  { simpl. apply Nat.lt_succ_r, subseteq_size. set_solver. }
  destruct (DFS_adds g _ _ _ _ Hrun) as (new & (H1 & H2 & H3 & H4) & _).
  simpl in H1, H2, H3, H4. subst tr.
  destruct (DFS_replay g on_node on_edge u [] _ entry visited [] visited' new Hrun)
    as (new' & Heq & Hgen).
  simpl in Heq. subst new'.
  exists visited', new. split_and!; try done.
  - intros k. eapply DFS_fuel_le; [|exact Hgen]. lia.
  - intros -> n.
    rewrite <- (DFS_visits_reachable g _ _ _ _ _ _ Hgen n). simpl.
    rewrite H2, elem_of_union, elem_of_list_to_set. set_solver.
Qed.

(** C5: the traversal terminates on every graph and invokes the node
    callback at most once per node: for every graph (cycles and diamonds
    included), pair of callbacks, entry node and initial visited set, [DFS]
    returns once the call stack may be as deep as the graph has nodes, its
    effect is that of replaying a trace of invocations in which no node
    occurs twice and no node already visited occurs; when the visited set
    was cleared before the call, as [main] does, the nodes reported are
    the nodes reachable from the entry.  On the cycle
    A→B, B→C, C→A, B→exit from A the nodes reported are A, B, C, exit,
    once each, and on the diamond A, B, exit, C. *)
Theorem DFS_terminates_each_node_once :
  (∀ (U : Type) (g : gmap N (list CFGEdge))
     (on_node : option (N → U → U)) (on_edge : option (CFGEdge → U → U))
     (entry : N) (visited : gset N) (u : U),
     ∃ visited' tr,
       (∀ k, DFS g on_node on_edge (S (size (dom g)) + k) entry (visited, u)
             = Some (visited', replay on_node on_edge tr u))
       ∧ visited' = visited ∪ list_to_set (trace_nodes tr)
       ∧ NoDup (trace_nodes tr)
       ∧ (∀ n, n ∈ trace_nodes tr → n ∉ visited)
       ∧ (visited = ∅ → ∀ n, n ∈ trace_nodes tr ↔ reachable g entry n))
  ∧ (trace_nodes ∘ snd) <$>
      DFS cycle_cfg record_node record_edge (S (size (dom cycle_cfg))) nA (∅, [])
    = Some [nA; nB; nC; nExit]
  ∧ (trace_nodes ∘ snd) <$>
      DFS diamond_cfg record_node record_edge (S (size (dom diamond_cfg))) nA (∅, [])
    = Some [nA; nB; nExit; nC].
Proof.
  split; [|split; vm_compute; reflexivity].
  intros U g on_node on_edge entry visited u.
  destruct (DFS_run g on_node on_edge entry visited u)
    as (visited' & tr & Hrun & Hvis & Hord & _ & Hreach).
  exists visited', tr.
  destruct (discovery_order_fresh _ _ Hord) as [Hnodup Hfresh].
  by split_and!.
Qed.

(** The trace of a call, with all that the traversal makes true of it. *)
Lemma DFS_trace {U : Type} (g : gmap N (list CFGEdge))
    (on_node : option (N → U → U)) (on_edge : option (CFGEdge → U → U))
    (entry : N) (visited : gset N) (u : U) :
  ∃ visited' tr,
    (∀ k, DFS g on_node on_edge (S (size (dom g)) + k) entry (visited, u)
          = Some (visited', replay on_node on_edge tr u))
    ∧ visited' = visited ∪ list_to_set (trace_nodes tr)
    ∧ discovery_order visited tr
    ∧ trace_edges tr ≡ₚ mjoin (intra_outs g <$> trace_nodes tr)
    ∧ (visited = ∅ → ∀ n, n ∈ trace_nodes tr ↔ reachable g entry n)
    ∧ (entry ∈ visited → tr = [])
    ∧ (entry ∉ visited →
         ∃ tr', tr = VisitNode entry :: tr'
           ∧ tree_order g {[entry]} None tr')
    ∧ edges_in_vector_order g tr.
Proof.
  destruct (DFS_enough_fuel g record_node record_edge (S (size (dom g)))
              entry (visited, [])) as [[visited' tr] Hrun].
  { simpl. apply Nat.lt_succ_r, subseteq_size. set_solver. }
  destruct (DFS_adds g _ _ _ _ Hrun) as (new & (H1 & H2 & H3 & H4) & _).
  simpl in H1, H2, H3, H4. subst tr.
  destruct (DFS_replay g on_node on_edge u [] _ entry visited [] visited' new Hrun)
    as (new' & Heq & Hgen).
  simpl in Heq. subst new'.
  destruct (DFS_vector_order g _ _ _ _ Hrun) as (new' & Heq & Hvec).
  simpl in Heq. subst new'.
  exists visited', new. split_and!; try done.
  - intros k. eapply DFS_fuel_le; [|exact Hgen]. lia.
  - intros -> n.
    rewrite <- (DFS_visits_reachable g _ _ _ _ _ _ Hgen n). simpl.
    rewrite H2, elem_of_union, elem_of_list_to_set. set_solver.
  - intros Hin.
    change (DFS g record_node record_edge (S (size (dom g))) entry (visited, []))
      with (if decide (entry ∈ visited) then Some (visited, [])
            else for_edges record_edge
                   (DFS g record_node record_edge (size (dom g)))
                   (intra_outs g entry)
                   ({[entry]} ∪ visited, [VisitNode entry])) in Hrun.
    rewrite decide_True in Hrun by done. by simplify_eq.
  - intros Hin.
    change (DFS g record_node record_edge (S (size (dom g))) entry (visited, []))
      with (if decide (entry ∈ visited) then Some (visited, [])
            else for_edges record_edge
                   (DFS g record_node record_edge (size (dom g)))
                   (intra_outs g entry)
                   ({[entry]} ∪ visited, [VisitNode entry])) in Hrun.
    rewrite decide_False in Hrun by done.
    apply (for_edges_tree g entry _ (DFS_tree g _)) in Hrun
      as (tr' & Hnew & Htree); [|done].
    simpl in Hnew. exists tr'. split; [done|]. apply Htree. set_solver.
Qed.

(** C6: every edge met is reported, also when its sink is already visited,
    and such an edge starts no second descent; callbacks fire in discovery
    order.  For every graph, callbacks, entry and initial visited set, a call
    of [DFS] returns, and its invocations form a trace of which all this
    holds.  The nodes reported are new and join the visited set (when it was
    cleared, they are the nodes reachable from the entry).  A call on a
    visited entry reports nothing; otherwise the entry is reported first,
    every edge reported belongs to a node reported before it, and every
    other node is reported immediately after an edge into it.  The edges
    reported are, with multiplicity, the outgoing edges of the nodes
    reported, those of one node after the node and in the order of its
    vector.  And at each place where an edge is reported: if its sink was
    visited before (at the start or earlier in the trace) the sink is not
    reported afterwards, and otherwise the report of the sink follows
    immediately.  On the cycle A→B, B→C, C→A, B→exit the edge C→A is reported
    and A is not entered again; on the diamond the second edge into exit is
    reported last. *)
Theorem DFS_reports_edges_in_discovery_order :
  (∀ (U : Type) (g : gmap N (list CFGEdge))
     (on_node : option (N → U → U)) (on_edge : option (CFGEdge → U → U))
     (entry : N) (visited : gset N) (u : U),
     ∃ visited' tr,
       (∀ k, DFS g on_node on_edge (S (size (dom g)) + k) entry (visited, u)
             = Some (visited', replay on_node on_edge tr u))
       ∧ visited' = visited ∪ list_to_set (trace_nodes tr)
       ∧ discovery_order visited tr
       ∧ trace_edges tr ≡ₚ mjoin (intra_outs g <$> trace_nodes tr)
       ∧ (visited = ∅ → ∀ n, n ∈ trace_nodes tr ↔ reachable g entry n)
       ∧ (entry ∈ visited → tr = [])
       ∧ (entry ∉ visited →
            ∃ tr', tr = VisitNode entry :: tr'
              ∧ tree_order g {[entry]} None tr')
       ∧ edges_in_vector_order g tr
       ∧ ∀ tr1 e tr2, tr = tr1 ++ VisitEdge e :: tr2 →
           let seen := visited ∪ list_to_set (trace_nodes tr1) in
           (sink e ∈ seen → VisitNode (sink e) ∉ tr2)
           ∧ (sink e ∉ seen → ∃ tr2', tr2 = VisitNode (sink e) :: tr2'))
  ∧ snd <$> DFS cycle_cfg record_node record_edge
              (S (size (dom cycle_cfg))) nA (∅, [])
    = Some [VisitNode nA; VisitEdge (mkEdge nA nB 10); VisitNode nB;
            VisitEdge (mkEdge nB nC 7); VisitNode nC;
            VisitEdge (mkEdge nC nA 7);
            VisitEdge (mkEdge nB nExit 3); VisitNode nExit]
  ∧ snd <$> DFS diamond_cfg record_node record_edge
              (S (size (dom diamond_cfg))) nA (∅, [])
    = Some [VisitNode nA; VisitEdge (mkEdge nA nB 1); VisitNode nB;
            VisitEdge (mkEdge nB nExit 1); VisitNode nExit;
            VisitEdge (mkEdge nA nC 2); VisitNode nC;
            VisitEdge (mkEdge nC nExit 2)].
Proof.
  split; [|split; vm_compute; reflexivity].
  intros U g on_node on_edge entry visited u.
  destruct (DFS_trace g on_node on_edge entry visited u)
    as (visited' & tr & Hrun & Hvis & Hord & Hedges & Hreach & Hin & Hout
        & Hvec).
  exists visited', tr. split_and!; try done.
  intros tr1 e tr2 ->. by apply discovery_order_edge.
Qed.

End DFS_claims.

Section Main_facts.
Import CreateRegProf.

Lemma string_app_assoc (s1 s2 s3 : string) :
  (s1 +:+ s2) +:+ s3 = s1 +:+ s2 +:+ s3.
Proof.
  induction s1 as [|c s1 IH]; [done|].
  change (String c (((s1 +:+ s2) +:+ s3)) = String c (s1 +:+ s2 +:+ s3)).
  by rewrite IH.
Qed.

Lemma string_app_nil (s : string) : s +:+ EmptyString = s.
Proof.
  induction s as [|c s IH]; [done|].
  change (String c (s +:+ EmptyString) = String c s). by rewrite IH.
Qed.

Lemma replay_print_bb_index (bb_index : N → Z) tr : ∀ out,
  replay (print_bb_index bb_index) None tr out =
    out +:+ fold_right (λ node text, pretty (bb_index node) +:+ " " +:+ text)
              EmptyString (trace_nodes tr).
Proof.
  induction tr as [|[n|e] tr IH]; intros out.
  - simpl. by rewrite string_app_nil.
  - change (replay (print_bb_index bb_index) None (VisitNode n :: tr) out)
      with (replay (print_bb_index bb_index) None tr
              (out +:+ pretty (bb_index n) +:+ " ")).
    rewrite IH. simpl. by rewrite !string_app_assoc.
  - change (replay (print_bb_index bb_index) None (VisitEdge e :: tr) out)
      with (replay (print_bb_index bb_index) None tr out).
    by rewrite IH.
Qed.

Lemma fold_right_endl (bb_index : N → Z) order :
  fold_right (λ node text, pretty (bb_index node) +:+ " " +:+ text)
    EmptyString order +:+ endl
  = fold_right (λ node text, pretty (bb_index node) +:+ " " +:+ text)
      endl order.
Proof.
  induction order as [|n order IH]; simpl; [done|].
  by rewrite !string_app_assoc, IH.
Qed.

(** [main] writes, for each graph in turn, its name and the indices of the
    blocks reachable from its entry, each block once, whatever was visited
    before. *)
Theorem main_prints_each_reachable_block_once (g : gmap N (list CFGEdge))
    (bb_index : N → Z) (cfgs : list ControlFlowGraph) :
  ∀ (visited : gset N) (out : string),
  ∃ orders,
    Forall2 (λ cfg order,
      NoDup order ∧ ∀ n, n ∈ order ↔ reachable g (GetEntryNode cfg) n)
      cfgs orders
    ∧ snd <$> main_loop g bb_index cfgs (visited, out) =
        Some (out +:+ fold_right String.append EmptyString
                        (zip_with (cfg_text bb_index) cfgs orders)).
Proof.
  induction cfgs as [|cfg cfgs IH]; intros visited out.
  - exists []. split; [constructor|]. simpl.
    by rewrite string_app_nil.
  - destruct (DFS_run g (print_bb_index bb_index) None (GetEntryNode cfg) ∅
                (out +:+ "CFG:" +:+ GetPrimaryName cfg +:+ endl))
      as (visited' & tr & Hrun & _ & Hord & _ & Hreach).
    specialize (Hrun 0%nat). rewrite Nat.add_0_r in Hrun.
    destruct (IH visited'
      (replay (print_bb_index bb_index) None tr
         (out +:+ "CFG:" +:+ GetPrimaryName cfg +:+ endl) +:+ endl))
      as (orders & Horders & Hrest).
    exists (trace_nodes tr :: orders). split.
    + constructor; [|done]. split; [|by apply Hreach].
      by apply (discovery_order_fresh _ _ Hord).
    + cbn [main_loop fst snd]. rewrite Hrun. cbn [fst snd]. rewrite Hrest.
      f_equal. rewrite replay_print_bb_index. cbn [zip_with fold_right].
      unfold cfg_text. rewrite <- fold_right_endl.
      by rewrite !string_app_assoc.
Qed.

(** The invocations of a traversal follow its tree: the walk reports
    nothing when the entry is already visited, and otherwise the entry first;
    every edge reported is an outgoing edge of a node reported before it, and
    every node after the entry is reported immediately after an edge into
    it. *)
Theorem DFS_follows_a_tree (U : Type) (g : gmap N (list CFGEdge))
    (on_node : option (N → U → U)) (on_edge : option (CFGEdge → U → U))
    (entry : N) (visited : gset N) (u : U) :
  ∃ visited' tr,
    (∀ k, DFS g on_node on_edge (S (size (dom g)) + k) entry (visited, u)
          = Some (visited', replay on_node on_edge tr u))
    ∧ (entry ∈ visited ∧ tr = []
       ∨ (entry ∉ visited)
         ∧ ∃ tr', tr = VisitNode entry :: tr'
             ∧ tree_order g {[entry]} None tr').
Proof.
  destruct (DFS_enough_fuel g record_node record_edge (S (size (dom g)))
              entry (visited, [])) as [[visited' tr] Hrun].
  { simpl. apply Nat.lt_succ_r, subseteq_size. set_solver. }
  destruct (DFS_replay g on_node on_edge u [] _ entry visited [] visited' tr Hrun)
    as (new & Heq & Hgen).
  simpl in Heq. subst new. exists visited', tr. split.
  { intros k. eapply DFS_fuel_le; [|exact Hgen]. lia. }
  destruct (decide (entry ∈ visited)) as [Hin|Hin].
  - left. split; [done|].
    change (DFS g record_node record_edge (S (size (dom g))) entry (visited, []))
      with (if decide (entry ∈ visited) then Some (visited, [])
            else for_edges record_edge
                   (DFS g record_node record_edge (size (dom g)))
                   (intra_outs g entry)
                   ({[entry]} ∪ visited, [VisitNode entry])) in Hrun.
    rewrite decide_True in Hrun by done. by simplify_eq.
  - right. split; [done|].
    change (DFS g record_node record_edge (S (size (dom g))) entry (visited, []))
      with (if decide (entry ∈ visited) then Some (visited, [])
            else for_edges record_edge
                   (DFS g record_node record_edge (size (dom g)))
                   (intra_outs g entry)
                   ({[entry]} ∪ visited, [VisitNode entry])) in Hrun.
    rewrite decide_False in Hrun by done.
    apply (for_edges_tree g entry _ (DFS_tree g _)) in Hrun
      as (new & Hnew & Htree); [|done].
    simpl in Hnew. exists new. split; [done|]. apply Htree. set_solver.
Qed.

(** Without [visited_nodes.clear()] a second traversal does nothing: after
    a call of [DFS], a call on the same node, or, when the first call
    started with nothing visited, on any node it reaches, returns at once,
    with no callback invoked and the state as it was. *)
Theorem DFS_again_does_nothing (U : Type) (g : gmap N (list CFGEdge))
    (on_node : option (N → U → U)) (on_edge : option (CFGEdge → U → U))
    (fuel : nat) (entry : N) (st st' : gset N * U) :
  DFS g on_node on_edge fuel entry st = Some st' →
  ∀ fuel', DFS g on_node on_edge (S fuel') entry st' = Some st'
    ∧ (st.1 = ∅ → ∀ n, reachable g entry n →
         DFS g on_node on_edge (S fuel') n st' = Some st').
Proof.
  intros Hrun fuel'.
  pose proof (DFS_covers g on_node on_edge _ _ _ _ Hrun)
    as (_ & Hentry & _ & _).
  split.
  - simpl. by rewrite decide_True.
  - intros Hclear n Hn. destruct st as [visited u]. simpl in Hclear. subst.
    apply (DFS_visits_reachable g on_node on_edge _ _ _ _ Hrun) in Hn.
    simpl. by rewrite decide_True.
Qed.


Lemma DFS_again_does_nothing_witness :
  ∃ st', DFS cycle_cfg record_node record_edge 5 nA (∅, []) = Some st'
    ∧ DFS cycle_cfg record_node record_edge 1 nA st' = Some st'
    ∧ DFS cycle_cfg record_node record_edge 1 nC st' = Some st'.
Proof.
  destruct (DFS cycle_cfg record_node record_edge 5 nA (∅, []))
    as [st'|] eqn:Hrun; [|by vm_compute in Hrun].
  exists st'. split; [done|].
  destruct (DFS_again_does_nothing _ cycle_cfg record_node record_edge 5 nA
              (∅, []) st' Hrun 0%nat) as [Hentry Hreach].
  split; [done|]. apply Hreach; [done|].
  apply (reachable_edge _ _ nB (mkEdge nB nC 7)).
  - apply (reachable_edge _ _ nA (mkEdge nA nB 10)); [constructor|].
    vm_compute. repeat constructor.
  - vm_compute. repeat constructor.
Defined.

End Main_facts.

Section Options_facts.
Import CreateRegProf.
Import ProfileCreator.

Lemma StrSplit_plain sep piece :
  has_char sep piece = false → StrSplit sep piece = [piece].
Proof.
  induction piece as [|c piece IH]; simpl; [done|].
  rewrite (Ascii.eqb_sym c sep).
  intros [Hc Hrest]%orb_false_iff. rewrite Hc, IH by done. done.
Qed.

Lemma StrSplit_piece sep piece rest :
  has_char sep piece = false →
  StrSplit sep (piece +:+ String sep rest) = piece :: StrSplit sep rest.
Proof.
  induction piece as [|c piece IH]; simpl.
  - by rewrite Ascii.eqb_refl.
  - rewrite (Ascii.eqb_sym c sep).
    intros [Hc Hrest]%orb_false_iff. rewrite Hc, IH by done. done.
Qed.

(** Splitting what was joined gives the pieces back. *)
Lemma StrSplit_concat sep pieces :
  pieces ≠ [] → Forall (λ piece, has_char sep piece = false) pieces →
  StrSplit sep (String.concat (String sep EmptyString) pieces) = pieces.
Proof.
  intros Hne Hpieces. induction Hpieces as [|piece pieces Hpiece Hrest IH];
    [done|].
  destruct pieces as [|piece' pieces].
  - simpl. by apply StrSplit_plain.
  - change (String.concat (String sep EmptyString) (piece :: piece' :: pieces))
      with (piece +:+ String sep
              (String.concat (String sep EmptyString) (piece' :: pieces))).
    rewrite StrSplit_piece by done. by rewrite IH.
Qed.

Lemma StrSplit_no_sep sep s :
  Forall (λ piece, has_char sep piece = false) (StrSplit sep s).
Proof.
  induction s as [|c s IH]; simpl.
  - by repeat constructor.
  - destruct (Ascii.eqb c sep) eqn:Hc; [by constructor|].
    destruct (StrSplit sep s) as [|piece pieces].
    + constructor; [|constructor]. simpl.
      by rewrite (Ascii.eqb_sym sep c), Hc.
    + apply Forall_cons in IH as [Hpiece Hpieces]. constructor; [|done].
      simpl. by rewrite (Ascii.eqb_sym sep c), Hc.
Qed.

Lemma getlines_plain line :
  has_char "010" line = false →
  getlines line = if nonempty line then [line] else [].
Proof.
  induction line as [|c line IH]; cbn [getlines has_char nonempty]; [done|].
  rewrite (Ascii.eqb_sym c "010").
  intros [Hc Hrest]%orb_false_iff. rewrite Hc, IH by done.
  by destruct line.
Qed.

Lemma getlines_line line rest :
  has_char "010" line = false →
  getlines (line +:+ String "010" rest) = line :: getlines rest.
Proof.
  induction line as [|c line IH]; [done|].
  cbn [has_char]. intros [Hc Hrest]%orb_false_iff.
  change (String c line +:+ String "010" rest)
    with (String c (line +:+ String "010" rest)).
  cbn [getlines]. by rewrite (Ascii.eqb_sym c "010"), Hc, IH.
Qed.

Lemma getlines_no_newline text :
  Forall (λ line, has_char "010" line = false) (getlines text).
Proof.
  induction text as [|c text IH]; cbn [getlines]; [constructor|].
  destruct (Ascii.eqb c "010") eqn:Hc; [by constructor|].
  destruct (getlines text) as [|line lines].
  - constructor; [|constructor]. cbn [has_char].
    by rewrite (Ascii.eqb_sym "010" c), Hc.
  - apply Forall_cons in IH as [Hline Hlines]. constructor; [|done].
    cbn [has_char]. by rewrite (Ascii.eqb_sym "010" c), Hc.
Qed.


(** The lines of a text, up to a last empty line, which is not listed
    anyway. *)
Lemma getlines_concat lines :
  Forall (λ line, has_char "010" line = false) lines →
  List.filter listed (getlines (String.concat (String "010" EmptyString) lines))
    = List.filter listed lines.
Proof.
  induction 1 as [|line lines Hline Hlines IH]; [done|].
  destruct lines as [|line' lines].
  - simpl String.concat. rewrite getlines_plain by done.
    by destruct line.
  - change (String.concat (String "010" EmptyString) (line :: line' :: lines))
      with (line +:+ String "010"
              (String.concat (String "010" EmptyString) (line' :: lines))).
    rewrite getlines_line by done.
    change (List.filter listed (line :: ?l)) with
      (if listed line then line :: List.filter listed l
       else List.filter listed l).
    rewrite IH. done.
Qed.

(** The profile flag as a list of names separated by [;]: the names come
    back in order, and empty pieces are dropped. *)
Theorem perf_names_of_joined_flag (fs : gmap string string) flags pieces :
  pieces ≠ [] →
  Forall (λ piece, has_char ";" piece = false) pieces →
  FLAGS_profile flags = String.concat ";" pieces →
  starts_with "@" (FLAGS_profile flags) = false →
  perf_names (CreatePropellerOptionsFromFlags fs flags)
    = List.filter nonempty pieces.
Proof.
  intros Hne Hpieces Hflag Hat. unfold CreatePropellerOptionsFromFlags.
  cbn [perf_names]. rewrite Hat, Hflag. by rewrite StrSplit_concat.
Qed.

(** The profile flag as [@] and the path of a list file: the names are the
    lines of the file that are not empty and do not start with [#], in
    order; a list file that cannot be opened gives no name. *)
Theorem perf_names_of_list_file (fs : gmap string string) flags path :
  FLAGS_profile flags = String "@" path →
  (fs !! path = None →
     perf_names (CreatePropellerOptionsFromFlags fs flags) = [])
  ∧ (∀ lines,
       Forall (λ line, has_char "010" line = false) lines →
       fs !! path = Some (String.concat (String "010" EmptyString) lines) →
       perf_names (CreatePropellerOptionsFromFlags fs flags)
         = List.filter listed lines).
Proof.
  intros Hflag. unfold CreatePropellerOptionsFromFlags. rewrite Hflag.
  cbn [perf_names starts_with substr1]. rewrite Ascii.eqb_refl. split.
  - by intros ->.
  - intros lines Hlines ->. by apply getlines_concat.
Qed.

(** No name handed to the options builder is empty; a name from a list
    file does not start with [#] and holds no newline, a name from the flag
    itself holds no [;]. *)
Theorem perf_names_are_clean (fs : gmap string string) flags name :
  name ∈ perf_names (CreatePropellerOptionsFromFlags fs flags) →
  name ≠ EmptyString
  ∧ if starts_with "@" (FLAGS_profile flags)
    then starts_with "#" name = false ∧ has_char "010" name = false
    else has_char ";" name = false.
Proof.
  unfold CreatePropellerOptionsFromFlags. cbn [perf_names].
  assert (∀ s, name ∈ List.filter nonempty (StrSplit ";" s) →
    name ≠ EmptyString ∧ has_char ";" name = false) as Hsplit.
  { intros s [Hin Hne]%list_elem_of_In%filter_In. split; [by destruct name|].
    pose proof (StrSplit_no_sep ";" s) as Hall.
    rewrite Forall_forall in Hall. by apply Hall, list_elem_of_In. }
  destruct (starts_with "@" (FLAGS_profile flags)); [|by apply Hsplit].
  destruct (fs !! substr1 (FLAGS_profile flags)) as [text|];
    [|by intros ?%elem_of_nil].
  intros [Hin Hlisted]%list_elem_of_In%filter_In.
  apply andb_true_iff in Hlisted as [Hne Hhash%negb_true_iff].
  split; [by destruct name|]. split; [done|].
  pose proof (getlines_no_newline text) as Hall.
  rewrite Forall_forall in Hall. by apply Hall, list_elem_of_In.
Qed.


Lemma perf_names_of_joined_flag_witness :
  perf_names (CreatePropellerOptionsFromFlags ∅
                (mkFlags "a.out" "a.data;;b.data" "" ""))
    = ["a.data"; "b.data"].
Proof.
  apply (perf_names_of_joined_flag ∅ (mkFlags "a.out" "a.data;;b.data" "" "")
           ["a.data"; ""; "b.data"]);
    [done|repeat constructor|reflexivity|reflexivity].
Defined.

Lemma perf_names_of_list_file_witness :
  let flags := mkFlags "a.out" "@profiles.txt" "" "" in
  let lines := ["# hot runs"; "a.data"; ""; "b.data"; ""] in
  perf_names (CreatePropellerOptionsFromFlags ∅ flags) = []
  ∧ perf_names (CreatePropellerOptionsFromFlags
                  {[ "profiles.txt" := String.concat endl lines ]} flags)
      = ["a.data"; "b.data"].
Proof.
  intros flags lines. split.
  - by apply (perf_names_of_list_file ∅ flags "profiles.txt" eq_refl).
  - apply (proj2 (perf_names_of_list_file _ flags "profiles.txt" eq_refl)
             lines); [repeat constructor|vm_compute; reflexivity].
Defined.

Lemma perf_names_are_clean_witness :
  "b.data" ≠ EmptyString ∧ has_char ";" "b.data" = false.
Proof.
  apply (perf_names_are_clean ∅ (mkFlags "a.out" "a.data;;b.data" "" "")).
  change ("b.data" ∈ ["a.data"; "b.data"]). repeat constructor.
Defined.

End Options_facts.

(* ===================================================================== *)
(** * Part V: reading and converting prefetch hints *)
(* ===================================================================== *)

Section Reader_facts.
Import ProfileCreator.

(** No scanner gives back more input than it was given. *)
Lemma skip_space_length s : (length (skip_space s) ≤ length s)%nat.
Proof.
  induction s as [|c s IH]; simpl; [done|]. destruct (isspace c); simpl; lia.
Qed.

Lemma scan_digits_length base s :
  (length (scan_digits base s).2 ≤ length s)%nat.
Proof.
  induction s as [|c s IH]; simpl; [done|].
  destruct (digit_of base c); simpl; lia.
Qed.

Lemma scan_sign_length s : (length (scan_sign s).2 ≤ length s)%nat.
Proof.
  destruct s as [|c s]; simpl; [done|].
  repeat (case_match; simpl); lia.
Qed.

Lemma scan_token_length s : (length (scan_token s).2 ≤ length s)%nat.
Proof.
  induction s as [|c s IH]; simpl; [done|].
  destruct (isspace c); simpl; lia.
Qed.

Lemma scan_x64_length s v rest :
  scan_x64 s = Some (v, rest) → (length rest ≤ length s)%nat.
Proof.
  unfold scan_x64. intros Hscan.
  pose proof (skip_space_length s) as H1.
  pose proof (scan_sign_length (skip_space s)) as H2.
  destruct (scan_sign (skip_space s)) as [neg s1]. simpl in H2.
  assert (∀ p s2, (length s2 ≤ length s1)%nat →
    (let '(ds, rest) := scan_digits 16 s2 in
     match ds with
     | [] => if (p : bool) then Some (0, rest) else None
     | _ => Some (strtoul neg (digits_value 16 ds), rest)
     end) = Some (v, rest) → (length rest ≤ length s)%nat) as Hgo.
  { intros p s2 Hle Heq. pose proof (scan_digits_length 16 s2) as H3.
    destruct (scan_digits 16 s2) as [ds r]. simpl in H3.
    destruct ds, p; simplify_eq; lia. }
  destruct s1 as [|c0 [|x s']];
    [by apply (Hgo false []) | by apply (Hgo false [c0]) |].
  destruct (_ && _);
    [apply (Hgo true s') | apply (Hgo false (c0 :: x :: s'))];
    simpl; (done || lia).
Qed.

Lemma scan_d64_length s v rest :
  scan_d64 s = Some (v, rest) → (length rest ≤ length s)%nat.
Proof.
  unfold scan_d64. intros Hscan.
  pose proof (skip_space_length s) as H1.
  pose proof (scan_sign_length (skip_space s)) as H2.
  destruct (scan_sign (skip_space s)) as [neg s1]. simpl in H2.
  pose proof (scan_digits_length 10 s1) as H3.
  destruct (scan_digits 10 s1) as [ds r]. simpl in H3.
  destruct ds; simplify_eq; lia.
Qed.

Lemma scan_char_length c s rest :
  scan_char c s = Some rest → length s = S (length rest).
Proof.
  destruct s as [|c' s]; simpl; [done|]. case_match; naive_solver.
Qed.

Lemma scan_s_length s tok rest :
  scan_s s = Some (tok, rest) → (length rest ≤ length s)%nat.
Proof.
  unfold scan_s. intros Hscan.
  pose proof (skip_space_length s) as H1.
  pose proof (scan_token_length (skip_space s)) as H2.
  destruct (scan_token (skip_space s)) as [t r]. simpl in H2.
  destruct t; simplify_eq; lia.
Qed.

(** A call of [fscanf] that returns 3 has consumed input. *)
Lemma fscanf_hint_consumes s hint rest :
  fscanf_hint s = Some (hint, rest) → (length rest < length s)%nat.
Proof.
  unfold fscanf_hint. intros Hscan.
  destruct (scan_x64 s) as [[a s1]|] eqn:H1; simpl in Hscan; [|done].
  destruct (scan_char "," s1) as [s2|] eqn:H2; simpl in Hscan; [|done].
  destruct (scan_d64 s2) as [[d s3]|] eqn:H3; simpl in Hscan; [|done].
  destruct (scan_char "," s3) as [s4|] eqn:H4; simpl in Hscan; [|done].
  destruct (scan_s s4) as [[tok s5]|] eqn:H5; simpl in Hscan; [|done].
  simplify_eq.
  apply scan_x64_length in H1. apply scan_char_length in H2.
  apply scan_d64_length in H3. apply scan_char_length in H4.
  apply scan_s_length in H5. pose proof (skip_space_length s5). lia.
Qed.

Lemma scans_length s hints rest :
  scans s hints rest → (length rest ≤ length s)%nat.
Proof.
  induction 1 as [|s hint s' hints rest Hscan _ _ IH]; [done|].
  apply fscanf_hint_consumes in Hscan. lia.
Qed.

(** The fuel of the loop does not matter once it exceeds the length of
    the stream. *)
Lemma read_hints_fuel fuel1 : ∀ fuel2 file_name s,
  (length s < fuel1)%nat → (length s < fuel2)%nat →
  read_hints fuel1 file_name s = read_hints fuel2 file_name s.
Proof.
  induction fuel1 as [|fuel1 IH]; intros fuel2 file_name s H1 H2; [lia|].
  destruct fuel2 as [|fuel2]; [lia|]. simpl.
  destruct (fscanf_hint s) as [[hint rest]|] eqn:Hscan; [|done].
  destruct rest as [|c rest]; [done|].
  apply fscanf_hint_consumes in Hscan.
  by rewrite (IH fuel2) by lia.
Qed.

Lemma read_hints_S fuel file_name s :
  read_hints (S fuel) file_name s =
    match fscanf_hint s with
    | None => ([], [mkLog ERROR ("Error reading from " +:+ file_name)])
    | Some (hint, []) => ([hint], [])
    | Some (hint, rest) =>
        let r := read_hints fuel file_name rest in (hint :: r.1, r.2)
    end.
Proof.
  simpl. destruct (fscanf_hint s) as [[hint [|c rest]]|]; try done.
  unfold mbind, Logged_bind, mret, Logged_ret. simpl. by rewrite app_nil_r.
Qed.

(** The loop, without its fuel. *)
Lemma read_hints_unfold fuel file_name s :
  (length s < fuel)%nat →
  read_hints fuel file_name s =
    match fscanf_hint s with
    | None => ([], [mkLog ERROR ("Error reading from " +:+ file_name)])
    | Some (hint, []) => ([hint], [])
    | Some (hint, rest) =>
        let r := read_hints (S (length rest)) file_name rest in
        (hint :: r.1, r.2)
    end.
Proof.
  intros Hfuel. destruct fuel as [|fuel]; [lia|]. rewrite read_hints_S.
  destruct (fscanf_hint s) as [[hint rest]|] eqn:Hscan; [|done].
  destruct rest as [|c rest]; [done|].
  apply fscanf_hint_consumes in Hscan.
  by rewrite (read_hints_fuel fuel (S (length (c :: rest)))) by lia.
Qed.

(** The loop stops at the first call that does not return 3, keeping the
    hints read so far. *)
Lemma read_hints_stops_at_failure file_name s hints bad :
  scans s hints bad → fscanf_hint bad = None →
  ∀ fuel, (length s < fuel)%nat →
  read_hints fuel file_name s =
    (hints, [mkLog ERROR ("Error reading from " +:+ file_name)]).
Proof.
  induction 1 as [s|s hint s' hints rest Hscan Hne Hrest IH];
    intros Hbad fuel Hfuel; rewrite read_hints_unfold by done.
  - by rewrite Hbad.
  - rewrite Hscan. destruct s' as [|c s']; [done|].
    by rewrite IH by (done || lia).
Qed.

(** The loop reads to the end of a stream that parses throughout. *)
Lemma read_hints_to_the_end file_name s hints last hint :
  scans s hints last → fscanf_hint last = Some (hint, []) →
  ∀ fuel, (length s < fuel)%nat →
  read_hints fuel file_name s = (hints ++ [hint], []).
Proof.
  induction 1 as [s|s h s' hints rest Hscan Hne Hrest IH];
    intros Hlast fuel Hfuel; rewrite read_hints_unfold by done.
  - by rewrite Hlast.
  - rewrite Hscan. destruct s' as [|c s']; [done|].
    by rewrite IH by (done || lia).
Qed.

(** A hint file that parses to its end is read whole, and nothing is
    logged. *)
Theorem well_formed_file_is_read_whole (fs : gmap string string) file_name
    content hints last hint :
  fs !! file_name = Some content →
  scans (list_ascii_of_string content) hints last →
  fscanf_hint last = Some (hint, []) →
  ReadPrefetchHints fs file_name = (hints ++ [hint], []).
Proof.
  intros Hfile Hscans Hlast. unfold ReadPrefetchHints. rewrite Hfile.
  by apply (read_hints_to_the_end _ _ _ last); [| |lia].
Qed.

End Reader_facts.

Section Roundtrip.
Import ProfileCreator.

Lemma digit_cases d : 0 ≤ d < 16 →
  d = 0 ∨ d = 1 ∨ d = 2 ∨ d = 3 ∨ d = 4 ∨ d = 5 ∨ d = 6 ∨ d = 7 ∨ d = 8
  ∨ d = 9 ∨ d = 10 ∨ d = 11 ∨ d = 12 ∨ d = 13 ∨ d = 14 ∨ d = 15.
Proof. lia. Qed.

Lemma digit_of_digit_char base d :
  base = 10 ∨ base = 16 → 0 ≤ d < base →
  digit_of base (digit_char d) = Some d.
Proof.
  intros [-> | ->] Hd.
  - assert (0 ≤ d < 16) as H by lia. apply digit_cases in H.
    repeat (destruct H as [->|H]; [(vm_compute; reflexivity) || lia|]).
    subst d. lia.
  - assert (0 ≤ d < 16) as H by lia. apply digit_cases in H.
    repeat (destruct H as [->|H]; [(vm_compute; reflexivity) || lia|]).
    subst d. vm_compute; reflexivity.
Qed.

Lemma digit_char_plain d : 0 ≤ d < 16 → plain (digit_char d) = true.
Proof.
  intros H. apply digit_cases in H.
  repeat (destruct H as [->|H]; [vm_compute; reflexivity|]).
  subst d. vm_compute; reflexivity.
Qed.

Lemma digits_of_range fuel base : ∀ n acc,
  0 < base → 0 ≤ n →
  Forall (λ d, 0 ≤ d < base) acc →
  Forall (λ d, 0 ≤ d < base) (digits_of fuel base n acc).
Proof.
  induction fuel as [|fuel IH]; intros n acc Hbase Hn Hacc; simpl; [done|].
  assert (Forall (λ d, 0 ≤ d < base) (n mod base :: acc)) as Hacc'.
  { constructor; [by apply Z.mod_pos_bound|done]. }
  case_match; [done|]. apply IH; [done| |done]. by apply Z.div_pos.
Qed.

Lemma digits_of_value fuel base : ∀ n acc,
  1 < base → 0 ≤ n < base ^ Z.of_nat fuel →
  fold_left (λ a d, a * base + d) (digits_of fuel base n acc) 0
  = fold_left (λ a d, a * base + d) acc n.
Proof.
  induction fuel as [|fuel IH]; intros n acc Hbase Hn.
  - simpl in *. assert (n = 0) as -> by lia. done.
  - simpl digits_of. destruct (n <? base) eqn:Hlt.
    + apply Z.ltb_lt in Hlt. simpl. by rewrite Z.mod_small by lia.
    + apply Z.ltb_ge in Hlt. rewrite IH; [|done|].
      * simpl. f_equal. rewrite (Z.div_mod n base) at 3 by lia. lia.
      * split; [apply Z.div_pos; lia|].
        apply Z.div_lt_upper_bound; [lia|].
        rewrite Nat2Z.inj_succ, Z.pow_succ_r in Hn by lia. lia.
Qed.

Lemma digits_of_nonempty fuel base n acc :
  digits_of (S fuel) base n acc ≠ [].
Proof.
  revert n acc. induction fuel as [|fuel IH]; intros n acc.
  - simpl. by case_match.
  - change (digits_of (S (S fuel)) base n acc) with
      (if n <? base then n mod base :: acc
       else digits_of (S fuel) base (n / base) (n mod base :: acc)).
    case_match; [done|apply IH].
Qed.

Lemma print_nat_value base n :
  1 < base → 0 ≤ n →
  digits_value base (digits_of (S (Z.to_nat (Z.log2 n))) base n []) = n.
Proof.
  intros Hbase Hn. unfold digits_value. rewrite digits_of_value; [done|done|].
  split; [done|]. rewrite Nat2Z.inj_succ, Z2Nat.id by apply Z.log2_nonneg.
  destruct (decide (n = 0)) as [->|Hne].
  - simpl. lia.
  - pose proof (Z.log2_spec n ltac:(lia)) as [_ Hup].
    eapply Z.lt_le_trans; [exact Hup|].
    apply Z.pow_le_mono_l. lia.
Qed.

(** Scanning what was printed. *)
Lemma scan_digits_printed base ds rest :
  base = 10 ∨ base = 16 →
  Forall (λ d, 0 ≤ d < base) ds →
  scan_digits base ((digit_char <$> ds) ++ rest) =
    (ds ++ (scan_digits base rest).1, (scan_digits base rest).2).
Proof.
  intros Hbase. induction 1 as [|d ds Hd _ IH].
  - simpl. by destruct (scan_digits base rest).
  - rewrite fmap_cons, <- app_comm_cons.
    change (scan_digits base (digit_char d :: (digit_char <$> ds) ++ rest))
      with (match digit_of base (digit_char d) with
            | Some d' =>
                let r := scan_digits base ((digit_char <$> ds) ++ rest) in
                (d' :: r.1, r.2)
            | None => ([], digit_char d :: (digit_char <$> ds) ++ rest)
            end).
    rewrite digit_of_digit_char by done. by rewrite IH.
Qed.


Lemma plain_inv c : plain c = true →
  isspace c = false ∧ Ascii.eqb c "-" = false ∧ Ascii.eqb c "+" = false
  ∧ Ascii.eqb c "," = false ∧ Ascii.eqb c "x" = false
  ∧ Ascii.eqb c "X" = false ∧ Ascii.eqb c zero = false.
Proof.
  unfold plain. rewrite !andb_true_iff, !negb_true_iff. naive_solver.
Qed.

Lemma skip_space_plain c s : isspace c = false → skip_space (c :: s) = c :: s.
Proof. intros Hc. simpl. by rewrite Hc. Qed.

Lemma scan_sign_plain c s :
  Ascii.eqb c "-" = false → Ascii.eqb c "+" = false →
  scan_sign (c :: s) = (false, c :: s).
Proof. intros H1 H2. unfold scan_sign. by rewrite H1, H2. Qed.

Lemma scan_x64_printed ds rest :
  ds ≠ [] → Forall (λ d, 0 ≤ d < 16) ds →
  digits_value 16 ds ≤ UINT64_MAX →
  scan_x64 ((digit_char <$> ds) ++ ","%char :: rest)
    = Some (digits_value 16 ds, ","%char :: rest).
Proof.
  intros Hne Hds Hmax.
  pose proof (scan_digits_printed 16 ds (","%char :: rest) (or_intror eq_refl) Hds)
    as Hscan.
  destruct ds as [|d0 ds]; [done|].
  apply Forall_cons in Hds as [Hd0 Hds].
  destruct (plain_inv _ (digit_char_plain d0 Hd0))
    as (Hsp & Hminus & Hplus & _).
  unfold scan_x64. rewrite fmap_cons, <- app_comm_cons in *.
  rewrite skip_space_plain, scan_sign_plain by done.
  assert (∀ x s', (digit_char <$> ds) ++ ","%char :: rest = x :: s' →
    Ascii.eqb x "x" || Ascii.eqb x "X" = false) as Hx.
  { intros x s' Heq. destruct ds as [|d1 ds]; simpl in Heq; simplify_eq; [done|].
    apply Forall_cons in Hds as [Hd1 _].
    destruct (plain_inv _ (digit_char_plain d1 Hd1)) as (_&_&_&_&->&->&_). done. }
  destruct ((digit_char <$> ds) ++ ","%char :: rest) as [|x s'] eqn:Htail.
  { by destruct ds. }
  rewrite (Hx x s' eq_refl), andb_false_r.
  rewrite Hscan. simpl. rewrite app_nil_r.
  unfold strtoul. by rewrite (proj2 (Z.ltb_ge _ _)) by done.
Qed.

Lemma scan_d64_printed (neg : bool) ds rest :
  ds ≠ [] → Forall (λ d, 0 ≤ d < 10) ds →
  scan_d64 ((if neg then ["-"%char] else [])
             ++ (digit_char <$> ds) ++ ","%char :: rest)
    = Some (strtol neg (digits_value 10 ds), ","%char :: rest).
Proof.
  intros Hne Hds.
  pose proof (scan_digits_printed 10 ds (","%char :: rest) (or_introl eq_refl) Hds)
    as Hscan.
  assert (scan_sign (skip_space ((if neg then ["-"%char] else [])
             ++ (digit_char <$> ds) ++ ","%char :: rest))
          = (neg, (digit_char <$> ds) ++ ","%char :: rest)) as Hsign.
  { destruct neg; [done|]. destruct ds as [|d0 ds]; [done|].
    apply Forall_cons in Hds as [Hd0 Hds].
    destruct (plain_inv _ (digit_char_plain d0 ltac:(lia)))
      as (Hsp & Hminus & Hplus & _).
    rewrite fmap_cons. simpl app.
    by rewrite skip_space_plain, scan_sign_plain. }
  unfold scan_d64. rewrite Hsign, Hscan. simpl. rewrite app_nil_r.
  by destruct ds.
Qed.

Lemma scan_token_word tok rest :
  Forall (λ c, isspace c = false ∧ Ascii.eqb c zero = false) tok →
  scan_token (tok ++ "010"%char :: rest) = (tok, "010"%char :: rest).
Proof.
  induction 1 as [|c tok [Hc _] _ IH]; [done|].
  simpl. by rewrite Hc, IH.
Qed.

Lemma c_str_word tok :
  Forall (λ c, isspace c = false ∧ Ascii.eqb c zero = false) tok →
  c_str tok = string_of_list_ascii tok.
Proof.
  induction 1 as [|c tok [_ Hc] _ IH]; [done|].
  simpl. by rewrite Hc, IH.
Qed.

Lemma scan_s_word s rest :
  token s →
  scan_s (list_ascii_of_string s ++ "010"%char :: rest)
    = Some (list_ascii_of_string s, "010"%char :: rest).
Proof.
  intros (Hne & _ & Htok). unfold scan_s.
  destruct s as [|c s]; [done|]. simpl in *.
  apply Forall_cons in Htok as [[Hc Hz] Htok].
  rewrite Hc. simpl. rewrite Hc.
  by rewrite (scan_token_word _ rest Htok).
Qed.


Lemma print_nat_digits base n :
  base = 10 ∨ base = 16 → 0 ≤ n →
  ∃ ds, print_nat base n = digit_char <$> ds ∧ ds ≠ []
    ∧ Forall (λ d, 0 ≤ d < base) ds ∧ digits_value base ds = n.
Proof.
  intros Hbase Hn. eexists. split; [reflexivity|]. split_and!.
  - apply digits_of_nonempty.
  - apply digits_of_range; [lia|done|constructor].
  - apply print_nat_value; [lia|done].
Qed.

Lemma fscanf_hint_printed hint rest :
  well_formed hint →
  fscanf_hint (render_hint hint ++ rest) = Some (hint, skip_space rest).
Proof.
  intros (Haddr & Hdelta & Htok).
  destruct (print_nat_digits 16 (address hint)) as (da & Hpa & Hnea & Hra & Hva);
    [by right|lia|].
  destruct (print_nat_digits 10 (Z.abs (delta hint)))
    as (dd & Hpd & Hned & Hrd & Hvd); [by left|lia|].
  assert (print_int (delta hint) =
    (if delta hint <? 0 then ["-"%char] else []) ++ (digit_char <$> dd)) as Hint.
  { unfold print_int. destruct (delta hint <? 0) eqn:Hneg.
    - apply Z.ltb_lt in Hneg. by rewrite <- Hpd, Z.abs_neq by lia.
    - apply Z.ltb_ge in Hneg. by rewrite <- Hpd, Z.abs_eq by lia. }
  assert (strtol (delta hint <? 0) (digits_value 10 dd) = delta hint) as Hstrtol.
  { rewrite Hvd. unfold strtol, INT64_MIN, INT64_MAX in *.
    destruct (delta hint <? 0) eqn:Hneg;
      [apply Z.ltb_lt in Hneg|apply Z.ltb_ge in Hneg]; lia. }
  unfold render_hint. rewrite Hpa, Hint, <- !app_assoc. simpl app.
  rewrite <- !app_assoc. unfold fscanf_hint.
  rewrite scan_x64_printed by (done || lia). simpl.
  rewrite scan_d64_printed by done. simpl.
  rewrite <- app_assoc. simpl app.
  rewrite scan_s_word by done. simpl.
  rewrite Hva, Hstrtol.
  rewrite (c_str_word _ (proj2 (proj2 Htok))), string_of_list_ascii_of_string.
  by destruct hint.
Qed.

(** One call of [fscanf] on a printed line reads the hint back: for a
    well-formed hint, whose type has at most four characters and so fits
    [prefetch_type], the call returns 3 with the hint's address, delta and
    type, and leaves what follows the line, less its leading white space. *)
Theorem fscanf_hint_render hint rest :
  well_formed hint →
  fscanf_hint (render_hint hint ++ rest) = Some (hint, skip_space rest).
Proof. apply fscanf_hint_printed. Qed.

Lemma skip_space_render hint rest :
  well_formed hint →
  skip_space (render_hint hint ++ rest) = render_hint hint ++ rest.
Proof.
  intros (Haddr & _).
  destruct (print_nat_digits 16 (address hint)) as (da & Hpa & Hnea & Hra & _);
    [by right|lia|].
  unfold render_hint. rewrite Hpa.
  destruct da as [|d0 da]; [done|]. apply Forall_cons in Hra as [Hd0 _].
  destruct (plain_inv _ (digit_char_plain d0 Hd0)) as (Hsp & _).
  rewrite fmap_cons, <- !app_comm_cons. by apply skip_space_plain.
Qed.

(** The lines of well-formed hints are read one after the other. *)
Lemma scans_rendered hints bad :
  Forall well_formed hints → bad ≠ [] → skip_space bad = bad →
  scans (mjoin (render_hint <$> hints) ++ bad) hints bad.
Proof.
  intros Hwf Hbad Hskip. induction Hwf as [|hint hints Hhint Hwf IH].
  - apply scans_nil.
  - change (mjoin (render_hint <$> hint :: hints) ++ bad)
      with ((render_hint hint ++ mjoin (render_hint <$> hints)) ++ bad).
    rewrite <- app_assoc.
    assert (skip_space (mjoin (render_hint <$> hints) ++ bad)
            = mjoin (render_hint <$> hints) ++ bad) as Hnext.
    { destruct Hwf as [|h hints' Hh _]; [done|].
      change (mjoin (render_hint <$> h :: hints') ++ bad)
        with ((render_hint h ++ mjoin (render_hint <$> hints')) ++ bad).
      rewrite <- app_assoc. by apply skip_space_render. }
    eapply scans_cons; [by apply fscanf_hint_printed| |].
    + rewrite Hnext. intros [Hnil ->]%app_eq_nil. done.
    + by rewrite Hnext.
Qed.

(** Well-formed lines, with types that fit [prefetch_type], followed by
    text that does not parse: the reader returns the hints of the lines and
    logs the error. *)
Theorem lines_before_a_malformed_line_are_read (fs : gmap string string)
    file_name hints bad :
  fs !! file_name
    = Some (string_of_list_ascii (mjoin (render_hint <$> hints) ++ bad)) →
  Forall well_formed hints →
  bad ≠ [] → skip_space bad = bad →
  fscanf_hint bad = None →
  ReadPrefetchHints fs file_name =
    (hints, [mkLog ERROR ("Error reading from " +:+ file_name)]).
Proof.
  intros Hfile Hwf Hbad Hskip Hfail. unfold ReadPrefetchHints.
  rewrite Hfile, list_ascii_of_string_of_list_ascii.
  eapply read_hints_stops_at_failure; [by apply scans_rendered|done|lia].
Qed.

End Roundtrip.

Section Scanner_facts.
Import ProfileCreator.

(** White space in front of a conversion is skipped. *)
Lemma skip_space_spaces ws s :
  Forall (λ c, isspace c = true) ws → skip_space (ws ++ s) = skip_space s.
Proof. induction 1 as [|c ws Hc _ IH]; [done|]. simpl. by rewrite Hc. Qed.

Lemma skip_space_all ws :
  Forall (λ c, isspace c = true) ws → skip_space ws = [].
Proof. induction 1 as [|c ws Hc _ IH]; [done|]. simpl. by rewrite Hc. Qed.

Lemma scan_x64_spaces ws s :
  Forall (λ c, isspace c = true) ws → scan_x64 (ws ++ s) = scan_x64 s.
Proof.
  intros Hws. unfold scan_x64. by rewrite (skip_space_spaces _ _ Hws).
Qed.

Lemma scan_d64_spaces ws s :
  Forall (λ c, isspace c = true) ws → scan_d64 (ws ++ s) = scan_d64 s.
Proof. intros Hws. unfold scan_d64. by rewrite (skip_space_spaces _ _ Hws). Qed.

Lemma scan_s_spaces ws s :
  Forall (λ c, isspace c = true) ws → scan_s (ws ++ s) = scan_s s.
Proof. intros Hws. unfold scan_s. by rewrite (skip_space_spaces _ _ Hws). Qed.

Lemma fscanf_hint_spaces ws s :
  Forall (λ c, isspace c = true) ws → fscanf_hint (ws ++ s) = fscanf_hint s.
Proof. intros Hws. unfold fscanf_hint. by rewrite (scan_x64_spaces _ _ Hws). Qed.

Lemma scan_token_stop tok rest :
  Forall (λ c, isspace c = false ∧ Ascii.eqb c zero = false) tok →
  ends_token rest →
  scan_token (tok ++ rest) = (tok, rest).
Proof.
  intros Htok Hrest. induction Htok as [|c tok [Hc _] _ IH].
  - destruct rest as [|c rest]; [done|]. simpl in *. by rewrite Hrest.
  - simpl. by rewrite Hc, IH.
Qed.

Lemma scan_s_stop s rest :
  token s → ends_token rest →
  scan_s (list_ascii_of_string s ++ rest)
    = Some (list_ascii_of_string s, rest).
Proof.
  intros (Hne & _ & Htok) Hrest. unfold scan_s.
  destruct s as [|c s]; [done|]. simpl in *.
  apply Forall_cons in Htok as [[Hc Hz] Htok].
  rewrite Hc. simpl. rewrite Hc.
  by rewrite (scan_token_stop _ rest Htok Hrest).
Qed.

Lemma scan_x64_prefixed ds rest :
  ds ≠ [] → Forall (λ d, 0 ≤ d < 16) ds →
  digits_value 16 ds ≤ UINT64_MAX →
  scan_x64 ("0"%char :: "x"%char :: (digit_char <$> ds) ++ ","%char :: rest)
    = Some (digits_value 16 ds, ","%char :: rest).
Proof.
  intros Hne Hds Hmax.
  pose proof (scan_digits_printed 16 ds (","%char :: rest) (or_intror eq_refl) Hds)
    as Hscan.
  unfold scan_x64.
  change (skip_space ("0"%char :: "x"%char :: ?s)) with ("0"%char :: "x"%char :: s).
  change (scan_sign ("0"%char :: "x"%char :: ?s)) with (false, "0"%char :: "x"%char :: s).
  cbv iota beta.
  change (Ascii.eqb "0" "0" && (Ascii.eqb "x" "x" || Ascii.eqb "x" "X")) with true.
  cbv iota. rewrite Hscan. simpl. rewrite app_nil_r.
  destruct ds; [done|].
  unfold strtoul. by rewrite (proj2 (Z.ltb_ge _ _)) by done.
Qed.

Lemma fscanf_hint_layout ws1 prefixed ws2 ws3 hint rest :
  well_formed hint →
  Forall (λ c, isspace c = true) ws1 →
  Forall (λ c, isspace c = true) ws2 →
  Forall (λ c, isspace c = true) ws3 →
  ends_token rest →
  fscanf_hint (layout_hint ws1 prefixed ws2 ws3 hint ++ rest)
    = Some (hint, skip_space rest).
Proof.
  intros (Haddr & Hdelta & Htok) Hws1 Hws2 Hws3 Hrest.
  destruct (print_nat_digits 16 (address hint)) as (da & Hpa & Hnea & Hra & Hva);
    [by right|lia|].
  destruct (print_nat_digits 10 (Z.abs (delta hint)))
    as (dd & Hpd & Hned & Hrd & Hvd); [by left|lia|].
  assert (print_int (delta hint) =
    (if delta hint <? 0 then ["-"%char] else []) ++ (digit_char <$> dd)) as Hint.
  { unfold print_int. destruct (delta hint <? 0) eqn:Hneg.
    - apply Z.ltb_lt in Hneg. by rewrite <- Hpd, Z.abs_neq by lia.
    - apply Z.ltb_ge in Hneg. by rewrite <- Hpd, Z.abs_eq by lia. }
  assert (strtol (delta hint <? 0) (digits_value 10 dd) = delta hint) as Hstrtol.
  { rewrite Hvd. unfold strtol, INT64_MIN, INT64_MAX in *.
    destruct (delta hint <? 0) eqn:Hneg;
      [apply Z.ltb_lt in Hneg|apply Z.ltb_ge in Hneg]; lia. }
  unfold layout_hint. rewrite Hpa, Hint, <- !app_assoc.
  rewrite fscanf_hint_spaces by done. unfold fscanf_hint.
  assert (∀ tail, scan_x64 ((if prefixed then ["0"; "x"]%char else [])
            ++ (digit_char <$> da) ++ ","%char :: tail)
          = Some (address hint, ","%char :: tail)) as Hx.
  { intros tail. rewrite <- Hva. destruct prefixed.
    - apply scan_x64_prefixed; [done..|lia].
    - apply scan_x64_printed; [done..|lia]. }
  rewrite <- ?app_assoc. simpl app. rewrite <- ?app_assoc. simpl app.
  rewrite Hx. simpl. rewrite scan_d64_spaces by done.
  rewrite <- !app_assoc. simpl app.
  rewrite scan_d64_printed by done. simpl.
  rewrite scan_s_spaces by done.
  rewrite scan_s_stop by done. simpl.
  rewrite Hstrtol.
  rewrite (c_str_word _ (proj2 (proj2 Htok))), string_of_list_ascii_of_string.
  by destruct hint.
Qed.

(** The scanner is more liberal than the format's description ("no
    superfluous spaces"): for a well-formed hint, whose type fits
    [prefetch_type], white space of any kind and amount is accepted in
    front of the address, the delta and the type, the address may carry a
    [0x] prefix, and the type ends at the end of the file or at any
    white-space character, so that the last line needs no newline and lines
    may end in CR LF. *)
Theorem fscanf_hint_accepts_free_layout ws1 prefixed ws2 ws3 hint rest :
  well_formed hint →
  Forall (λ c, isspace c = true) ws1 →
  Forall (λ c, isspace c = true) ws2 →
  Forall (λ c, isspace c = true) ws3 →
  ends_token rest →
  fscanf_hint (layout_hint ws1 prefixed ws2 ws3 hint ++ rest)
    = Some (hint, skip_space rest).
Proof. apply fscanf_hint_layout. Qed.

Lemma scan_x64_digits_then c ds rest :
  ds ≠ [] → Forall (λ d, 0 ≤ d < 16) ds →
  digit_of 16 c = None → Ascii.eqb c "x" || Ascii.eqb c "X" = false →
  ∃ v, scan_x64 ((digit_char <$> ds) ++ c :: rest) = Some (v, c :: rest).
Proof.
  intros Hne Hds Hc Hx.
  pose proof (scan_digits_printed 16 ds (c :: rest) (or_intror eq_refl) Hds)
    as Hscan.
  assert (scan_digits 16 (c :: rest) = ([], c :: rest)) as Hstop.
  { simpl. by rewrite Hc. }
  rewrite Hstop in Hscan. simpl in Hscan. rewrite app_nil_r in Hscan.
  destruct ds as [|d0 ds]; [done|].
  apply Forall_cons in Hds as [Hd0 Hds].
  destruct (plain_inv _ (digit_char_plain d0 Hd0))
    as (Hsp & Hminus & Hplus & _).
  unfold scan_x64. rewrite fmap_cons, <- app_comm_cons in *.
  rewrite skip_space_plain, scan_sign_plain by done.
  assert (∀ x s', (digit_char <$> ds) ++ c :: rest = x :: s' →
    Ascii.eqb x "x" || Ascii.eqb x "X" = false) as Hx'.
  { intros x s' Heq. destruct ds as [|d1 ds]; simpl in Heq; simplify_eq; [done|].
    apply Forall_cons in Hds as [Hd1 _].
    destruct (plain_inv _ (digit_char_plain d1 Hd1)) as (_&_&_&_&->&->&_). done. }
  destruct ((digit_char <$> ds) ++ c :: rest) as [|x s'] eqn:Htail.
  { by destruct ds. }
  rewrite (Hx' x s' eq_refl), andb_false_r.
  rewrite Hscan. eauto.
Qed.

Lemma isspace_no_digit c :
  isspace c = true →
  digit_of 16 c = None ∧ Ascii.eqb c "x" || Ascii.eqb c "X" = false
  ∧ Ascii.eqb ","%char c = false.
Proof.
  destruct c as [[] [] [] [] [] [] [] []]; vm_compute; intros; by simplify_eq.
Qed.

(** White space in front of a comma is not accepted: the call stops at it
    and returns 1, and the reader reports an error and no hint. *)
Theorem space_before_comma_is_an_error (fs : gmap string string) file_name
    address c rest :
  0 ≤ address → isspace c = true →
  fs !! file_name
    = Some (string_of_list_ascii (print_nat 16 address ++ c :: rest)) →
  ReadPrefetchHints fs file_name =
    ([], [mkLog ERROR ("Error reading from " +:+ file_name)]).
Proof.
  intros Haddr Hc Hfile.
  destruct (print_nat_digits 16 address) as (da & Hpa & Hnea & Hra & Hva);
    [by right|lia|].
  destruct (isspace_no_digit c Hc) as (Hdigit & Hx & Hcomma).
  destruct (scan_x64_digits_then c da rest Hnea Hra Hdigit Hx) as [v Hscan].
  unfold ReadPrefetchHints.
  rewrite Hfile, list_ascii_of_string_of_list_ascii, read_hints_S.
  unfold fscanf_hint. rewrite Hpa, Hscan.
  cbn [mbind option_bind scan_char]. by rewrite Hcomma.
Qed.

(** ** The whole file *)

Lemma render_hint_nonempty hint : render_hint hint ≠ [].
Proof. unfold render_hint. by destruct (print_nat _ _). Qed.

Lemma read_rendered file_name hints :
  hints ≠ [] → Forall well_formed hints →
  ∀ fuel, (length (mjoin (render_hint <$> hints)) < fuel)%nat →
  read_hints fuel file_name (mjoin (render_hint <$> hints)) = (hints, []).
Proof.
  intros Hne Hwf fuel Hfuel.
  destruct (exists_last Hne) as (front & [hint ->]).
  apply Forall_app in Hwf as [Hfront Hlast].
  apply Forall_cons in Hlast as [Hlast _].
  rewrite fmap_app, join_app in *. simpl in *. rewrite app_nil_r in *.
  eapply read_hints_to_the_end; [| |done].
  - apply scans_rendered; [done|apply render_hint_nonempty|].
    rewrite <- (app_nil_r (render_hint hint)).
    by apply skip_space_render.
  - rewrite <- (app_nil_r (render_hint hint)).
    by apply fscanf_hint_printed.
Qed.

(** Writing well-formed hints, with types that fit [prefetch_type], one
    per line and reading the file gives the hints back, in order and with
    nothing logged. *)
Theorem rendered_file_is_read_back (fs : gmap string string) file_name hints :
  hints ≠ [] → Forall well_formed hints →
  fs !! file_name
    = Some (string_of_list_ascii (mjoin (render_hint <$> hints))) →
  ReadPrefetchHints fs file_name = (hints, []).
Proof.
  intros Hne Hwf Hfile. unfold ReadPrefetchHints.
  rewrite Hfile, list_ascii_of_string_of_list_ascii.
  apply read_rendered; [done..|lia].
Qed.

(** A file with no hint in it, empty or all white space, is reported as a
    read error: [feof] is false on the stream just opened, and the first
    call of [fscanf] returns [EOF]. *)
Theorem blank_file_is_an_error (fs : gmap string string) file_name content :
  fs !! file_name = Some content →
  Forall (λ c, isspace c = true) (list_ascii_of_string content) →
  ReadPrefetchHints fs file_name =
    ([], [mkLog ERROR ("Error reading from " +:+ file_name)]).
Proof.
  intros Hfile Hblank. unfold ReadPrefetchHints.
  rewrite Hfile, read_hints_S.
  unfold fscanf_hint, scan_x64. by rewrite (skip_space_all _ Hblank).
Qed.

(** ** What the reader can return *)

Lemma scan_digits_range base s :
  Forall (λ d, 0 ≤ d) (scan_digits base s).1.
Proof.
  induction s as [|c s IH]; simpl; [done|].
  destruct (digit_of base c) as [d|] eqn:Hd; simpl; [|done].
  constructor; [|done].
  unfold digit_of in Hd. revert Hd.
  generalize (Z.of_N (N_of_ascii c)). intros n.
  repeat case_match; intros; simplify_eq; lia.
Qed.

Lemma digits_value_nonneg base ds :
  0 ≤ base → Forall (λ d, 0 ≤ d) ds → 0 ≤ digits_value base ds.
Proof.
  intros Hbase. unfold digits_value.
  assert (∀ acc, 0 ≤ acc → Forall (λ d, 0 ≤ d) ds →
    0 ≤ fold_left (λ acc d, acc * base + d) ds acc) as Hgen.
  { induction ds as [|d ds IH]; intros acc Hacc Hds; simpl; [done|].
    apply Forall_cons in Hds as [Hd Hds]. apply IH; [nia|done]. }
  by apply Hgen.
Qed.

Lemma scan_x64_range s v rest :
  scan_x64 s = Some (v, rest) → 0 ≤ v ≤ UINT64_MAX.
Proof.
  unfold scan_x64. destruct (scan_sign _) as [neg s1].
  destruct (match s1 with
            | c0 :: x :: s' =>
                if Ascii.eqb c0 "0" && (Ascii.eqb x "x" || Ascii.eqb x "X")
                then (true, s') else (false, s1)
            | _ => (false, s1)
            end) as [prefixed s2].
  pose proof (scan_digits_range 16 s2) as Hds.
  destruct (scan_digits 16 s2) as [ds rest']. simpl in Hds.
  pose proof (digits_value_nonneg 16 ds ltac:(lia) Hds) as Hv.
  destruct ds as [|d ds].
  - destruct prefixed; intros; simplify_eq. unfold UINT64_MAX. lia.
  - intros. simplify_eq. unfold strtoul, to_uint64.
    destruct (UINT64_MAX <? _) eqn:Hmax.
    + unfold UINT64_MAX. lia.
    + apply Z.ltb_ge in Hmax. destruct neg; [|lia].
      pose proof (Z.mod_pos_bound (- digits_value 16 (d :: ds)) (2 ^ 64)).
      unfold UINT64_MAX. lia.
Qed.

Lemma scan_d64_range s v rest :
  scan_d64 s = Some (v, rest) → INT64_MIN ≤ v ≤ INT64_MAX.
Proof.
  unfold scan_d64. destruct (scan_sign _) as [neg s1].
  destruct (scan_digits 10 s1) as [ds rest'].
  destruct ds as [|d ds]; [done|].
  intros. simplify_eq. unfold strtol, INT64_MIN, INT64_MAX. lia.
Qed.

Lemma scan_token_word_chars s :
  Forall (λ c, isspace c = false) (scan_token s).1.
Proof.
  induction s as [|c s IH]; simpl; [done|].
  destruct (isspace c) eqn:Hc; simpl; [done|]. by constructor.
Qed.

Lemma c_str_chars tok :
  Forall (λ c, isspace c = false) tok →
  Forall (λ c, isspace c = false ∧ Ascii.eqb c zero = false)
    (list_ascii_of_string (c_str tok)).
Proof.
  induction 1 as [|c tok Hc _ IH]; simpl; [done|].
  destruct (Ascii.eqb c zero) eqn:Hz; simpl; [done|]. by constructor.
Qed.

Lemma fscanf_hint_storable s hint rest :
  fscanf_hint s = Some (hint, rest) → storable hint.
Proof.
  unfold fscanf_hint. intros Hscan.
  destruct (scan_x64 s) as [[a s1]|] eqn:Ha; [|done]. simpl in Hscan.
  destruct (scan_char "," s1) as [s2|]; [|done]. simpl in Hscan.
  destruct (scan_d64 s2) as [[d s3]|] eqn:Hd; [|done]. simpl in Hscan.
  destruct (scan_char "," s3) as [s4|]; [|done]. simpl in Hscan.
  destruct (scan_s s4) as [[tok s5]|] eqn:Ht; [|done]. simpl in Hscan.
  simplify_eq. split; [|split]; simpl.
  - by eapply scan_x64_range.
  - by eapply scan_d64_range.
  - apply c_str_chars. unfold scan_s in Ht.
    pose proof (scan_token_word_chars (skip_space s4)) as Htok.
    destruct (scan_token (skip_space s4)) as [tok' rest'].
    destruct tok'; by simplify_eq.
Qed.

Lemma read_hints_storable fuel file_name : ∀ s,
  Forall storable (read_hints fuel file_name s).1
  ∧ (read_hints fuel file_name s).2
      ⊆ [mkLog ERROR ("Error reading from " +:+ file_name)]
  ∧ (length (read_hints fuel file_name s).2 ≤ 1)%nat.
Proof.
  induction fuel as [|fuel IH]; intros s.
  { simpl. split_and!; [done|set_solver|lia]. }
  rewrite read_hints_S.
  destruct (fscanf_hint s) as [[hint rest]|] eqn:Hscan.
  - apply fscanf_hint_storable in Hscan.
    destruct rest as [|c rest].
    + simpl. split_and!; [by apply Forall_singleton|set_solver|lia].
    + destruct (IH (c :: rest)) as (Hs & Hlog & Hlen).
      simpl. split_and!; [by apply Forall_cons|done|done].
  - simpl. split_and!; [done|set_solver|lia].
Qed.

(** Whatever the file holds, every hint the reader returns has an address
    in the range of [uint64_t], a delta in the range of [int64_t] (values
    out of range are clamped by the conversions, not rejected) and a type
    with no white space in it, and the reader logs at most one line, an
    error. *)
Theorem ReadPrefetchHints_returns_storable_hints (fs : gmap string string)
    file_name :
  Forall storable (ReadPrefetchHints fs file_name).1
  ∧ (length (ReadPrefetchHints fs file_name).2 ≤ 1)%nat
  ∧ Forall (λ line, severity line = ERROR) (ReadPrefetchHints fs file_name).2.
Proof.
  unfold ReadPrefetchHints. destruct (fs !! file_name) as [content|].
  - destruct (read_hints_storable (S (length (list_ascii_of_string content)))
                file_name (list_ascii_of_string content)) as (Hs & Hlog & Hlen).
    split_and!; [done..|].
    apply Forall_forall. intros line Hline. apply Hlog in Hline.
    apply list_elem_of_singleton in Hline. by subst.
  - simpl. split_and!; [done|lia|by repeat constructor].
Qed.

End Scanner_facts.

Section Creator_facts.
Import ProfileCreator.
Context {collab : Collaborators}.

Lemma ReadPrefetchHints_missing (fs : gmap string string) file_name :
  fs !! file_name = None →
  ReadPrefetchHints fs file_name =
    ([], [mkLog ERROR ("Cannot open " +:+ file_name +:+ "to read")]).
Proof. unfold ReadPrefetchHints. by intros ->. Qed.

(** The conversion once the resolver is built: read, convert, merge. *)
Lemma ConvertPrefetchHints_resolved (fs : gmap string string) self
    profile_file symbol_map a :
  Addr2line_Create (binary_ self) = Some a →
  ConvertPrefetchHints fs self profile_file symbol_map =
    let hints := ReadPrefetchHints fs profile_file in
    let run := convert_hints (mkLoop (set_addr2line symbol_map a) ∅) hints.1 in
    ((true, ElideSuffixesAndMerge (loop_map run.1)), hints.2 ++ run.2).
Proof.
  intros Ha. unfold ConvertPrefetchHints, CheckAndAssignAddr2Line.
  rewrite Ha. simpl.
  destruct (ReadPrefetchHints fs profile_file) as [hints log1].
  unfold mbind, Logged_bind, mret, Logged_ret. simpl.
  by rewrite app_nil_r.
Qed.

Lemma ConvertPrefetchHints_unresolved (fs : gmap string string) self
    profile_file symbol_map :
  Addr2line_Create (binary_ self) = None →
  ConvertPrefetchHints fs self profile_file symbol_map =
    ((false, symbol_map),
     [mkLog ERROR ("Error reading binary " +:+ binary_ self)]).
Proof.
  intros Ha. unfold ConvertPrefetchHints, CheckAndAssignAddr2Line.
  by rewrite Ha.
Qed.

Lemma convert_hints_app st hints1 hints2 :
  convert_hints st (hints1 ++ hints2) =
    let run1 := convert_hints st hints1 in
    let run2 := convert_hints run1.1 hints2 in
    (run2.1, run1.2 ++ run2.2).
Proof.
  revert st. induction hints1 as [|hint hints1 IH]; intros st; simpl.
  - by destruct (convert_hints st hints2).
  - destruct (convert_hint st hint) as [st1 log1].
    unfold mbind, Logged_bind. simpl. rewrite IH. simpl.
    by rewrite app_assoc.
Qed.

(** [ReadSample] leaves the binary alone, and a reader behind when it
    returns true. *)
Lemma ReadSample_binary self input_profile_name profiler :
  binary_ (ReadSample self input_profile_name profiler).1.2 = binary_ self.
Proof.
  unfold ReadSample. repeat case_decide.
  - destruct (if negb _ then _ else _) as [re id].
    destruct (ReadAndSetTotalCount _) as [[] reader]; done.
  - destruct (ReadAndSetTotalCount _) as [[] reader]; done.
  - done.
Qed.

Lemma ReadSample_installs_reader self input_profile_name profiler :
  (ReadSample self input_profile_name profiler).1.1 = true →
  is_Some (sample_reader_ (ReadSample self input_profile_name profiler).1.2).
Proof.
  unfold ReadSample. repeat case_decide.
  - destruct (if negb _ then _ else _) as [re id].
    destruct (ReadAndSetTotalCount _) as [[] reader]; simpl; by eauto.
  - destruct (ReadAndSetTotalCount _) as [[] reader]; simpl; by eauto.
  - done.
Qed.

Lemma ReadSample_text self input_profile_name :
  ReadSample self input_profile_name "text" =
    let r := ReadAndSetTotalCount (TextSampleReaderWriter input_profile_name) in
    ((r.1, mkCreator (binary_ self) (Some r.2)),
     if r.1 then [] else [mkLog ERROR "Error reading profile."]).
Proof.
  unfold ReadSample. simpl.
  destruct (ReadAndSetTotalCount _) as [[] reader]; done.
Qed.


(** C1 (as the code has it): a line that does not parse ends the reading
    and nothing more.  When the first calls of [fscanf] read [hints] and
    the next call, on the stream [bad], does not return 3, the reader logs an
    error and returns exactly [hints]; the conversion then converts these
    hints, whatever [bad] holds, and returns true (given that the resolver
    was built). *)
Theorem malformed_line_stops_reading (fs : gmap string string) self
    profile_file symbol_map content a hints bad :
  fs !! profile_file = Some content →
  Addr2line_Create (binary_ self) = Some a →
  scans (list_ascii_of_string content) hints bad →
  fscanf_hint bad = None →
  let error := mkLog ERROR ("Error reading from " +:+ profile_file) in
  let run := convert_hints (mkLoop (set_addr2line symbol_map a) ∅) hints in
  ReadPrefetchHints fs profile_file = (hints, [error])
  ∧ ConvertPrefetchHints fs self profile_file symbol_map =
      ((true, ElideSuffixesAndMerge (loop_map run.1)), error :: run.2).
Proof.
  intros Hfile Ha Hscans Hbad error run.
  assert (ReadPrefetchHints fs profile_file = (hints, [error])) as Hread.
  { unfold ReadPrefetchHints. rewrite Hfile.
    by apply (read_hints_stops_at_failure _ _ _ bad); [| |lia]. }
  split; [done|].
  rewrite (ConvertPrefetchHints_resolved _ _ _ _ a Ha), Hread. done.
Qed.

(** [CreateProfile] on the sample path, once [ReadSample] has failed. *)
Lemma CreateProfile_unread (fs : gmap string string) self input_profile_name
    profiler writer output_profile_name store_sym_list_in_profile :
  profiler ≠ "prefetch" →
  (ReadSample self input_profile_name profiler).1.1 = false →
  (CreateProfile fs self input_profile_name profiler writer
     output_profile_name store_sym_list_in_profile).1 =
    mkCreated false (ReadSample self input_profile_name profiler).1.2 None.
Proof.
  intros Hprof Hread. unfold CreateProfile.
  case_decide; [done|].
  destruct (ReadSample self input_profile_name profiler) as [[ok self'] log].
  simpl in Hread. by subst ok.
Qed.

(** [ReadSample] with the profiler "perf": the reader it builds, whatever
    its arguments, is installed and asked to read. *)
Lemma ReadSample_perf_reader self input_profile_name :
  ∃ focus_binary_re build_id,
    ReadSample self input_profile_name "perf" =
      let r := ReadAndSetTotalCount
                 (PerfDataSampleReader input_profile_name
                    focus_binary_re build_id) in
      ((r.1, mkCreator (binary_ self) (Some r.2)),
       if r.1 then [] else [mkLog ERROR "Error reading profile."]).
Proof.
  unfold ReadSample. rewrite decide_True by done.
  destruct (if negb _ then _ else _) as [re id]. exists re, id.
  by destruct (ReadAndSetTotalCount _) as [[] reader].
Qed.

(** [CreateProfile] on the prefetch path, once the resolver is built: the
    hints are read and converted, and the map goes to the writer. *)
Lemma CreateProfile_prefetch (fs : gmap string string) self
    input_profile_name writer output_profile_name store_sym_list_in_profile
    a :
  Addr2line_Create (binary_ self) = Some a →
  CreateProfile fs self input_profile_name "prefetch" writer
    output_profile_name store_sym_list_in_profile =
    let hints := ReadPrefetchHints fs input_profile_name in
    let run :=
      convert_hints
        (mkLoop (set_addr2line
                   (set_ignore_thresholds (SymbolMap_new (binary_ self)) true)
                   a) ∅) hints.1 in
    let symbol_map := ElideSuffixesAndMerge (loop_map run.1) in
    (match (if HAVE_LLVM && store_sym_list_in_profile
            then StoreSymbolList writer symbol_map output_profile_name
            else Some writer) with
     | None => mkCreated false self None
     | Some writer' =>
         mkCreated (WriteToFile writer' symbol_map output_profile_name)
                   self (Some symbol_map)
     end, hints.2 ++ run.2).
Proof.
  intros Ha. unfold CreateProfile. rewrite decide_True by done.
  rewrite (ConvertPrefetchHints_resolved _ _ _ _ a Ha). cbv zeta.
  unfold mbind, Logged_bind. cbn [fst snd negb].
  destruct (if HAVE_LLVM && store_sym_list_in_profile then _ else _);
    cbn [fst snd mret Logged_ret]; by rewrite app_nil_r.
Qed.

(** C2 (as the code has it): a sample profile that its reader cannot read
    makes [ReadSample], with the profiler "text" as with "perf", and with it
    [CreateProfile], return false before the writer is called; a hint file
    that cannot be opened is logged and read as no hints at all: the
    conversion returns true on the map with its resolver installed and
    merged, and [CreateProfile] goes on to the writer with this map and
    returns what [WriteToFile] returns (false without calling it only when
    the symbol list is asked for and no sample writer can be created). *)
Theorem unreadable_input_profile :
  (∀ (fs : gmap string string) self profile_file symbol_map a,
     fs !! profile_file = None →
     Addr2line_Create (binary_ self) = Some a →
     ConvertPrefetchHints fs self profile_file symbol_map =
       ((true, ElideSuffixesAndMerge (set_addr2line symbol_map a)),
        [mkLog ERROR ("Cannot open " +:+ profile_file +:+ "to read")]))
  ∧ (∀ self input_profile_name,
       (ReadAndSetTotalCount (TextSampleReaderWriter input_profile_name)).1
         = false →
       (ReadSample self input_profile_name "text").1.1 = false)
  ∧ (∀ (fs : gmap string string) self input_profile_name profiler writer
       output_profile_name store_sym_list_in_profile,
       profiler ≠ "prefetch" →
       (ReadSample self input_profile_name profiler).1.1 = false →
       let created := (CreateProfile fs self input_profile_name profiler writer
                         output_profile_name store_sym_list_in_profile).1 in
       created_ok created = false ∧ handed_to_writer created = None)
  ∧ (∀ self input_profile_name,
       (∀ focus_binary_re build_id,
          (ReadAndSetTotalCount
             (PerfDataSampleReader input_profile_name
                focus_binary_re build_id)).1 = false) →
       (ReadSample self input_profile_name "perf").1.1 = false
       ∧ (ReadSample self input_profile_name "perf").2
         = [mkLog ERROR "Error reading profile."])
  ∧ (∀ (fs : gmap string string) self input_profile_name writer
       output_profile_name store_sym_list_in_profile a,
       fs !! input_profile_name = None →
       Addr2line_Create (binary_ self) = Some a →
       let symbol_map :=
         ElideSuffixesAndMerge
           (set_addr2line
              (set_ignore_thresholds (SymbolMap_new (binary_ self)) true) a) in
       CreateProfile fs self input_profile_name "prefetch" writer
         output_profile_name store_sym_list_in_profile =
         (match (if HAVE_LLVM && store_sym_list_in_profile
                 then StoreSymbolList writer symbol_map output_profile_name
                 else Some writer) with
          | None => mkCreated false self None
          | Some writer' =>
              mkCreated (WriteToFile writer' symbol_map output_profile_name)
                        self (Some symbol_map)
          end,
          [mkLog ERROR ("Cannot open " +:+ input_profile_name +:+ "to read")])).
Proof.
  split_and!.
  - intros fs self profile_file symbol_map a Hfile Ha.
    rewrite (ConvertPrefetchHints_resolved _ _ _ _ a Ha).
    by rewrite (ReadPrefetchHints_missing _ _ Hfile).
  - intros self input_profile_name Hread. by rewrite ReadSample_text.
  - intros fs self input_profile_name profiler writer out store Hprof Hread
      created. subst created. by rewrite CreateProfile_unread.
  - intros self input_profile_name Hread.
    destruct (ReadSample_perf_reader self input_profile_name)
      as (re & id & ->). cbv zeta. cbn [fst snd]. by rewrite Hread.
  - intros fs self input_profile_name writer out store a Hfile Ha symbol_map.
    subst symbol_map. rewrite (CreateProfile_prefetch _ _ _ _ _ _ a Ha).
    by rewrite (ReadPrefetchHints_missing _ _ Hfile).
Qed.

(** C9: when no address resolver can be built for the binary, profile
    creation fails before any attribution: [ConvertPrefetchHints] and
    [ComputeProfile] log the error and return false with the symbol map
    exactly as it was passed in, and [CreateProfile] returns false without
    calling the writer, on the prefetch path and on the sample path. *)
Theorem no_resolver_no_attribution :
  (∀ (fs : gmap string string) self profile_file symbol_map,
     Addr2line_Create (binary_ self) = None →
     ConvertPrefetchHints fs self profile_file symbol_map =
       ((false, symbol_map),
        [mkLog ERROR ("Error reading binary " +:+ binary_ self)]))
  ∧ (∀ self reader symbol_map,
       Addr2line_CreateWithSampledFunctions (binary_ self)
         (GetSampledSymbolStartAddressSizeMap symbol_map
            (GetSampledAddresses reader)) = None →
       ComputeProfile self reader symbol_map =
         ((false, symbol_map),
          [mkLog ERROR ("Error reading binary " +:+ binary_ self)]))
  ∧ (∀ (fs : gmap string string) self input_profile_name writer
       output_profile_name store_sym_list_in_profile,
       Addr2line_Create (binary_ self) = None →
       let created := (CreateProfile fs self input_profile_name "prefetch"
                         writer output_profile_name
                         store_sym_list_in_profile).1 in
       created_ok created = false ∧ handed_to_writer created = None)
  ∧ (∀ (fs : gmap string string) self input_profile_name profiler writer
       output_profile_name store_sym_list_in_profile,
       profiler ≠ "prefetch" →
       (∀ sampled_functions,
          Addr2line_CreateWithSampledFunctions (binary_ self)
            sampled_functions = None) →
       let created := (CreateProfile fs self input_profile_name profiler
                         writer output_profile_name
                         store_sym_list_in_profile).1 in
       created_ok created = false ∧ handed_to_writer created = None).
Proof.
  assert (∀ self reader symbol_map,
    Addr2line_CreateWithSampledFunctions (binary_ self)
      (GetSampledSymbolStartAddressSizeMap symbol_map
         (GetSampledAddresses reader)) = None →
    ComputeProfile self reader symbol_map =
      ((false, symbol_map),
       [mkLog ERROR ("Error reading binary " +:+ binary_ self)])) as Hcompute.
  { intros self reader symbol_map Ha.
    unfold ComputeProfile, CheckAndAssignAddr2Line. by rewrite Ha. }
  split_and!.
  - intros. by apply ConvertPrefetchHints_unresolved.
  - done.
  - intros fs self input writer out store Ha created. subst created.
    unfold CreateProfile. case_decide; [|done].
    by rewrite (ConvertPrefetchHints_unresolved _ _ _ _ Ha).
  - intros fs self input profiler writer out store Hprof Ha created.
    enough (created =
      mkCreated false (ReadSample self input profiler).1.2 None) as -> by done.
    subst created. unfold CreateProfile. case_decide; [done|].
    pose proof (ReadSample_binary self input profiler) as Hbin.
    destruct (ReadSample self input profiler) as [[ok self'] log].
    simpl in Hbin. destruct ok; [|done].
    unfold mbind at 1, Logged_bind at 1. cbn [fst snd negb].
    destruct (sample_reader_ self') as [reader|]; [|done].
    rewrite Hcompute by (rewrite Hbin; apply Ha). done.
Qed.

(** C10: asking for the total sample count cannot fail.  Both functions
    are total; [GetTotalCountFromTextProfile] is the reader's total when the
    text profile was read and 0 when it could not be read, and
    [TotalSamples] is 0 as long as no sample reader is installed, as on a
    creator just made. *)
Theorem total_sample_count_defaults_to_zero :
  (∀ input_profile_name,
     (GetTotalCountFromTextProfile input_profile_name).1 =
       let read := ReadAndSetTotalCount
                     (TextSampleReaderWriter input_profile_name) in
       if read.1 then GetTotalSampleCount read.2 else 0)
  ∧ (∀ input_profile_name,
       (ReadAndSetTotalCount (TextSampleReaderWriter input_profile_name)).1
         = false →
       (GetTotalCountFromTextProfile input_profile_name).1 = 0)
  ∧ (∀ self, sample_reader_ self = None → TotalSamples self = 0)
  ∧ (∀ binary, TotalSamples (Creator_new binary) = 0).
Proof.
  assert (∀ input_profile_name,
     (GetTotalCountFromTextProfile input_profile_name).1 =
       let read := ReadAndSetTotalCount
                     (TextSampleReaderWriter input_profile_name) in
       if read.1 then GetTotalSampleCount read.2 else 0) as Hget.
  { intros input. unfold GetTotalCountFromTextProfile.
    rewrite ReadSample_text. simpl.
    by destruct (ReadAndSetTotalCount _) as [[] reader]. }
  split_and!.
  - done.
  - intros input Hread. rewrite Hget. simpl. by rewrite Hread.
  - intros self Hnone. unfold TotalSamples. by rewrite Hnone.
  - done.
Qed.

(** C4: the count recorded for a hint's synthetic target is the hint's
    delta converted to [uint64_t], that is the delta modulo 2^64, with its
    64-bit two's-complement pattern unchanged: a hint that reaches
    [AddIndirectCallTarget] passes exactly this count, with the target name
    built from its type and index; a delta of -4 gives 2^64 - 4. *)
Theorem hint_count_is_delta_as_uint64 st hint name symbol_map :
  GetSymbolInfoByAddr (loop_map st) (address hint) = Some name →
  EnsureEntryInFuncForSymbol (loop_map st) name (address hint)
    = (true, symbol_map) →
  loop_map (convert_hint st hint).1 =
    (AddIndirectCallTarget symbol_map name
       (GetInlineStack (loop_map st) (address hint))
       (prefetch_target (type hint) (next_index st hint))
       (delta hint mod 2 ^ 64)).2
  ∧ 0 ≤ delta hint mod 2 ^ 64 < 2 ^ 64
  ∧ (∀ i, 0 ≤ i < 64 →
       Z.testbit (delta hint mod 2 ^ 64) i = Z.testbit (delta hint) i)
  ∧ to_uint64 (-4) = 2 ^ 64 - 4.
Proof.
  intros Hname Hensure. split; [|split; [|split]].
  - unfold convert_hint. rewrite Hname, Hensure. simpl.
    unfold next_index, to_uint64.
    by destruct (AddIndirectCallTarget _ _ _ _ _) as [[] m].
  - by apply Z.mod_pos_bound.
  - intros i Hi. apply Z.mod_pow2_bits_low. lia.
  - done.
Qed.

(** C7 (as the code has it): a hint whose address resolves but has an empty
    inline stack adds no indirect call target; a warning is logged and the
    loop goes on.  The map is left as [EnsureEntryInFuncForSymbol], called
    before the stack is looked at, has made it, and the index counter of the
    address has advanced.  ([AddIndirectCallTarget] fails on the empty
    stack without touching the map, as the design document has it.) *)
Theorem empty_stack_hint_adds_no_target st hint name symbol_map :
  GetSymbolInfoByAddr (loop_map st) (address hint) = Some name →
  GetInlineStack (loop_map st) (address hint) = [] →
  EnsureEntryInFuncForSymbol (loop_map st) name (address hint)
    = (true, symbol_map) →
  (∀ target count,
     AddIndirectCallTarget symbol_map name [] target count
       = (false, symbol_map)) →
  convert_hint st hint =
    (mkLoop symbol_map (bump_index st hint),
     [mkLog WARNING ("Ignoring address " +:+ hex (address hint)
        +:+ ". Could not add an indirect call target. Likely the "
        +:+ "inline stack is empty for this address.")]).
Proof.
  intros Hname Hstack Hensure Hfail.
  unfold convert_hint. rewrite Hname, Hstack, Hensure. simpl.
  by rewrite Hfail.
Qed.

End Creator_facts.

Section Target_names.
Import ProfileCreator.

Lemma has_char_app c s1 s2 :
  has_char c (s1 +:+ s2) = has_char c s1 || has_char c s2.
Proof.
  induction s1 as [|c' s1 IH]; simpl; [done|]. by rewrite IH, orb_assoc.
Qed.

(** A string is split in one way only at its last underscore. *)
Lemma split_at_last_underscore t1 : ∀ t2 d1 d2,
  has_char "_" d1 = false → has_char "_" d2 = false →
  t1 +:+ String "_" d1 = t2 +:+ String "_" d2 → t1 = t2 ∧ d1 = d2.
Proof.
  induction t1 as [|c t1 IH]; intros [|c' t2] d1 d2 H1 H2 Heq; simpl in Heq.
  - by simplify_eq.
  - simplify_eq. rewrite has_char_app in H1. simpl in H1.
    by rewrite orb_true_r in H1.
  - simplify_eq. rewrite has_char_app in H2. simpl in H2.
    by rewrite orb_true_r in H2.
  - simplify_eq. by destruct (IH t2 d1 d2) as [-> ->].
Qed.

Lemma pretty_uint8_no_underscore i :
  0 ≤ i < 256 → has_char "_" (pretty i) = false.
Proof.
  intros Hi.
  assert (forallb (λ i, negb (has_char "_" (pretty i))) (seqZ 0 256) = true)
    as Hall by (vm_compute; reflexivity).
  rewrite forallb_forall in Hall.
  apply negb_true_iff, Hall, list_elem_of_In, elem_of_seqZ. lia.
Qed.

(** Target names differ when types or indices do. *)
Lemma prefetch_target_inj t1 t2 i1 i2 :
  0 ≤ i1 < 256 → 0 ≤ i2 < 256 →
  prefetch_target t1 i1 = prefetch_target t2 i2 → t1 = t2 ∧ i1 = i2.
Proof.
  intros H1 H2 Heq. unfold prefetch_target in Heq.
  apply (inj (String.app "__prefetch_")) in Heq.
  apply split_at_last_underscore in Heq as [-> Heq];
    [|by apply pretty_uint8_no_underscore..].
  split; [done|]. by apply (inj pretty).
Qed.

Context {collab : Collaborators}.

(** The counters after a hint. *)
Lemma convert_hint_indices st hint :
  repeated_prefetches_indices (convert_hint st hint).1 =
    match GetSymbolInfoByAddr (loop_map st) (address hint) with
    | Some _ => bump_index st hint
    | None => repeated_prefetches_indices st
    end.
Proof.
  unfold convert_hint.
  destruct (GetSymbolInfoByAddr _ _) as [name|]; [|done].
  destruct (EnsureEntryInFuncForSymbol _ _ _) as [[] m]; simpl; [|done].
  by destruct (AddIndirectCallTarget _ _ _ _ _) as [[] m'].
Qed.

Lemma convert_hint_uint8 st hint :
  uint8_counters st → uint8_counters (convert_hint st hint).1.
Proof.
  intros Hst pc index. rewrite convert_hint_indices.
  destruct (GetSymbolInfoByAddr _ _) as [name|]; [|apply Hst].
  unfold bump_index. intros [[_ <-]|[_ Hold]]%lookup_insert_Some.
  - by apply Z.mod_pos_bound.
  - by eapply Hst.
Qed.

Lemma next_index_uint8 st hint :
  uint8_counters st → 0 ≤ next_index st hint < 256.
Proof.
  intros Hst. unfold next_index.
  destruct (repeated_prefetches_indices st !! address hint) as [index|] eqn:Hi;
    simpl; [by eapply Hst|lia].
Qed.

(** The hints at one address are numbered from the counter on, modulo
    256. *)
Lemma given_targets_numbered pc hints : ∀ st,
  uint8_counters st →
  (∀ hint, hint ∈ hints → address hint = pc) →
  ∃ types, (length types ≤ length hints)%nat
    ∧ given_targets st hints =
        imap (λ j t, prefetch_target t
                ((default 0 (repeated_prefetches_indices st !! pc)
                  + Z.of_nat j) mod 256)) types.
Proof.
  induction hints as [|hint hints IH]; intros st Hst Hpc.
  - by exists [].
  - assert (address hint = pc) as Hhint by (apply Hpc; by left).
    destruct (IH (convert_hint st hint).1) as (types & Hlen & Hgiven).
    { by apply convert_hint_uint8. }
    { intros h Hh. apply Hpc. by right. }
    pose proof (next_index_uint8 st hint Hst) as Hnext.
    simpl. rewrite Hgiven, convert_hint_indices.
    destruct (GetSymbolInfoByAddr _ _) as [name|].
    + exists (type hint :: types). split; [simpl; lia|]. simpl. f_equal.
      * unfold next_index in *. rewrite Hhint in *. f_equal.
        rewrite Z.add_0_r, Z.mod_small; [done|lia].
      * apply imap_ext. intros j t _. simpl. f_equal.
        unfold bump_index, next_index, to_uint8. rewrite Hhint.
        rewrite lookup_insert_eq. simpl.
        rewrite Zplus_mod_idemp_l. f_equal. lia.
    + exists types. split; [simpl; lia|done].
Qed.

(** Up to 256 hints at one address get target names that differ from each
    other: the names are [__prefetch_<type>_<index>] with the indices 0, 1,
    2, ... in the order of the hints. *)
Theorem prefetch_targets_distinct_up_to_256 st pc hints :
  repeated_prefetches_indices st = ∅ →
  (∀ hint, hint ∈ hints → address hint = pc) →
  (length hints ≤ 256)%nat →
  NoDup (given_targets st hints)
  ∧ ∃ types, given_targets st hints =
      imap (λ j t, prefetch_target t (Z.of_nat j)) types.
Proof.
  intros Hfresh Hpc Hlen.
  destruct (given_targets_numbered pc hints st) as (types & Hlen' & Hgiven).
  { intros k v. by rewrite Hfresh, lookup_empty. }
  { done. }
  rewrite Hfresh, lookup_empty in Hgiven. simpl in Hgiven.
  assert (given_targets st hints =
    imap (λ j t, prefetch_target t (Z.of_nat j)) types) as Hnames.
  { rewrite Hgiven. apply imap_ext. intros j t Hj%lookup_lt_Some. simpl.
    f_equal. apply Z.mod_small. lia. }
  split; [|by exists types].
  rewrite Hnames. apply NoDup_alt. intros i j name Hi Hj.
  rewrite list_lookup_imap in Hi, Hj.
  destruct (types !! i) as [ti|] eqn:Hti; [|done].
  destruct (types !! j) as [tj|] eqn:Htj; [|done].
  apply lookup_lt_Some in Hti, Htj. simpl in Hi, Hj.
  pose proof (eq_trans Hi (eq_sym Hj)) as Heq. apply (inj Some) in Heq.
  apply prefetch_target_inj in Heq as [_ Hij]; lia.
Qed.

End Target_names.

Section Unresolved_facts.
Import ProfileCreator SpecModel.

Lemma convert_hint_unresolved {collab : Collaborators} st hint :
  GetSymbolInfoByAddr (loop_map st) (address hint) = None →
  convert_hint st hint =
    (st, [mkLog INFO ("Instruction address not found:" +:+ hex (address hint))]).
Proof. intros Hnone. unfold convert_hint. by rewrite Hnone. Qed.

Lemma convert_hints_skip_unresolved {collab : Collaborators} st before hint after :
  GetSymbolInfoByAddr (loop_map (convert_hints st before).1) (address hint)
    = None →
  (convert_hints st (before ++ hint :: after)).1
    = (convert_hints st (before ++ after)).1.
Proof.
  intros Hnone. rewrite !convert_hints_app. simpl.
  by rewrite (convert_hint_unresolved _ _ Hnone).
Qed.

(** Modelled [resolve] finds nothing exactly for the addresses outside
    every range. *)
Lemma resolve_None m addr :
  resolve m addr = None ↔
  ∀ r, r ∈ ranges m → ¬ (r.1.2 ≤ addr < r.1.2 + r.2).
Proof.
  unfold resolve. rewrite fmap_None. split.
  - intros Hfind r Hr%list_elem_of_In Hin.
    apply (find_none _ _ Hfind) in Hr. simpl in Hr.
    apply andb_false_iff in Hr as [Hr|Hr]; [apply Z.leb_gt in Hr|apply Z.ltb_ge in Hr]; lia.
  - intros Hout. destruct (List.find _ _) as [r|] eqn:Hfind; [|done].
    apply find_some in Hfind as [Hr%list_elem_of_In Hin].
    apply Hout in Hr. apply andb_true_iff in Hin as [H1%Z.leb_le H2%Z.ltb_lt]. lia.
Qed.

(** C8: an address outside every known function is dropped with a
    diagnostic and changes nothing.  For a hint: the loop body logs
    "Instruction address not found" and returns its state, the symbol map and
    the index counters, as it was, so that the loop ends in the same state
    with or without the hint; for a sample, under the attribution of the
    design document: the sample is logged and the map returned as it was.
    In the modelled map "not found" is: in no range [start, start+size). *)
Theorem address_outside_functions_changes_nothing :
  (∀ (collab : Collaborators) st hint,
     GetSymbolInfoByAddr (loop_map st) (address hint) = None →
     convert_hint st hint =
       (st, [mkLog INFO
               ("Instruction address not found:" +:+ hex (address hint))]))
  ∧ (∀ (collab : Collaborators) st before hint after,
       GetSymbolInfoByAddr (loop_map (convert_hints st before).1)
         (address hint) = None →
       (convert_hints st (before ++ hint :: after)).1
         = (convert_hints st (before ++ after)).1)
  ∧ (∀ (w : World) (m : SymbolProfileMap) addr,
       (∀ r, r ∈ ranges m → ¬ (r.1.2 ≤ addr < r.1.2 + r.2)) →
       @GetSymbolInfoByAddr (collaborators w) m addr = None
       ∧ ∀ count, compute_sample m (addr, count) =
           (m, [mkLog INFO ("dropped sample at " +:+ hex addr)])).
Proof.
  split_and!.
  - intros. by apply convert_hint_unresolved.
  - intros. by apply convert_hints_skip_unresolved.
  - intros w m addr Hout%resolve_None. split; [done|].
    intros count. unfold compute_sample. simpl. by rewrite Hout.
Qed.

End Unresolved_facts.

Section Creator_outcomes.
Import ProfileCreator.
Context {collab : Collaborators}.

Lemma string_length_app (s1 s2 : string) :
  String.length (s1 +:+ s2) = (String.length s1 + String.length s2)%nat.
Proof.
  induction s1 as [|c s1 IH]; [done|].
  change (String c s1 +:+ s2) with (String c (s1 +:+ s2)). simpl. by rewrite IH.
Qed.

Lemma zeros_length n : String.length (zeros n) = n.
Proof. induction n as [|n IH]; [done|]. unfold zeros in *. simpl. by rewrite IH. Qed.

Lemma index_slash s :
  String.index 0 "/" s = None ↔ has_char "/" s = false.
Proof.
  induction s as [|c s IH]; [done|].
  change (String.index 0 "/" (String c s))
    with (if String.prefix "/" (String c s) then Some 0%nat
          else match String.index 0 "/" s with
               | Some n => Some (S n)
               | None => None
               end).
  change (String.prefix "/" (String c s))
    with (if ascii_dec "/" c then String.prefix "" s else false).
  change (has_char "/" (String c s)) with (Ascii.eqb "/" c || has_char "/" s).
  destruct (ascii_dec "/" c) as [<-|Hc].
  - by destruct s.
  - apply Ascii.eqb_neq in Hc. rewrite Hc. simpl.
    destruct (String.index 0 "/" s); naive_solver.
Qed.

Lemma basename_unfold c s :
  basename (String c s) =
    if Ascii.eqb c "/" then basename s
    else match String.index 0 "/" s with
         | Some _ => basename s
         | None => String c s
         end.
Proof. done. Qed.

Lemma basename_no_slash s : has_char "/" (basename s) = false.
Proof.
  induction s as [|c s IH]; [done|]. rewrite basename_unfold.
  destruct (Ascii.eqb c "/") eqn:Hc; [done|].
  destruct (String.index 0 "/" s) eqn:Hi; [done|].
  apply index_slash in Hi.
  change (has_char "/" (String c s)) with (Ascii.eqb "/" c || has_char "/" s).
  by rewrite Ascii.eqb_sym, Hc, Hi.
Qed.

Lemma basename_suffix s :
  ∃ dir, s = dir +:+ basename s
    ∧ (dir = EmptyString ∨ ∃ d, dir = d +:+ "/").
Proof.
  induction s as [|c s (dir & Hs & Hdir)].
  - exists EmptyString. by split; [|left].
  - rewrite basename_unfold.
    destruct (Ascii.eqb c "/") eqn:Hc.
    + apply Ascii.eqb_eq in Hc as ->. exists (String "/" dir). split.
      * change (String "/" dir +:+ basename s)
          with (String "/" (dir +:+ basename s)). by rewrite <- Hs.
      * right. destruct Hdir as [->|[d ->]]; [by exists EmptyString|].
        by exists (String "/" d).
    + destruct (String.index 0 "/" s) eqn:Hi.
      * exists (String c dir). split.
        { change (String c dir +:+ basename s)
            with (String c (dir +:+ basename s)). by rewrite <- Hs. }
        right. destruct Hdir as [->|[d ->]]; [|by exists (String c d)].
        exfalso. simpl in Hs.
        assert (has_char "/" s = false) as Hno
          by (rewrite Hs; apply basename_no_slash).
        apply index_slash in Hno. congruence.
      * exists EmptyString. by split; [|left].
Qed.

(** [ReadSample] with the profiler "perf". *)
Lemma ReadSample_perf self input_profile_name :
  ReadSample self input_profile_name "perf" =
    let build_id := GetBuildId (binary_ self) in
    let args :=
      if negb (String.eqb FLAGS_focus_binary_re "") then
        (FLAGS_focus_binary_re, EmptyString)
      else
        (".*/" +:+ basename (strip_from ".unstripped" (binary_ self)) +:+ "$",
         if (0 <? String.length build_id)%nat
            && (String.length build_id <? kMinPerfBuildIDStringLength)%nat
         then pad_zeros kMinPerfBuildIDStringLength build_id
         else build_id) in
    let r := ReadAndSetTotalCount
               (PerfDataSampleReader input_profile_name args.1 args.2) in
    ((r.1, mkCreator (binary_ self) (Some r.2)),
     if r.1 then [] else [mkLog ERROR "Error reading profile."]).
Proof.
  unfold ReadSample. rewrite decide_True by done.
  destruct (negb _); cbv zeta.
  - by destruct (ReadAndSetTotalCount _) as [[] reader].
  - cbn [fst snd]. by destruct (ReadAndSetTotalCount _) as [[] reader].
Qed.

Lemma string_prefix_app needle : ∀ s,
  String.prefix needle s = true ↔ ∃ post, s = needle +:+ post.
Proof.
  induction needle as [|a needle IH]; intros s.
  - destruct s; (split; [intros _; by eexists|done]).
  - destruct s as [|b s].
    + split; [done|]. by intros [post ?].
    + change (String.prefix (String a needle) (String b s))
        with (if ascii_dec a b then String.prefix needle s else false).
      destruct (ascii_dec a b) as [->|Hab].
      * rewrite IH. split; intros [post Hpost]; exists post.
        -- change (String b needle +:+ post) with (String b (needle +:+ post)).
           by rewrite <- Hpost.
        -- change (String b needle +:+ post)
             with (String b (needle +:+ post)) in Hpost.
           by simplify_eq.
      * split; [done|]. intros [post Hpost].
        change (String a needle +:+ post)
          with (String a (needle +:+ post)) in Hpost.
        by simplify_eq.
Qed.

Lemma strip_from_unfold needle s :
  strip_from needle s =
    if String.prefix needle s then EmptyString
    else match s with
         | EmptyString => EmptyString
         | String c s' => String c (strip_from needle s')
         end.
Proof. by destruct s. Qed.

(** [strip_from] cuts at the first occurrence. *)
Lemma strip_from_first needle s :
  cut_at_first needle s (strip_from needle s).
Proof.
  induction s as [|c s IH]; rewrite strip_from_unfold;
    destruct (String.prefix needle _) eqn:Hp.
  - apply string_prefix_app in Hp as [post Hp]. right. exists post.
    split; [done|]. intros; simpl; lia.
  - left. split; [done|]. intros pre post Heq.
    destruct pre as [|c pre]; [|done].
    assert (String.prefix needle EmptyString = true) as Hp'
      by (apply string_prefix_app; by exists post).
    congruence.
  - apply string_prefix_app in Hp as [post Hp]. right. exists post.
    split; [done|]. intros; simpl; lia.
  - destruct IH as [[Hall Hnone]|(post & Hs & Hmin)].
    + left. split; [by rewrite Hall|]. intros pre post Heq.
      destruct pre as [|c' pre].
      * assert (String.prefix needle (String c s) = true) as Hp'
          by (apply string_prefix_app; by exists post).
        congruence.
      * change (String c' pre +:+ needle +:+ post)
          with (String c' (pre +:+ needle +:+ post)) in Heq.
        simplify_eq. by eapply Hnone.
    + right. exists post. split.
      * change (String c (strip_from needle s) +:+ needle +:+ post)
          with (String c (strip_from needle s +:+ needle +:+ post)).
        by rewrite <- Hs.
      * intros pre' post' Heq. destruct pre' as [|c' pre'].
        -- assert (String.prefix needle (String c s) = true) as Hp'
             by (apply string_prefix_app; by exists post').
           congruence.
        -- change (String c' pre' +:+ needle +:+ post')
             with (String c' (pre' +:+ needle +:+ post')) in Heq.
           simplify_eq. specialize (Hmin _ _ eq_refl). simpl. lia.
Qed.

(** What the perf reader is given.  With [--focus_binary_re] set, the flag
    and an empty build id.  Otherwise the expression [.*/<base>$], where
    [<base>] is what follows the last slash of [<stem>], and so has no slash
    in it, and [<stem>] is the binary's name cut at the first occurrence of
    [.unstripped] (the whole name when there is none); and the build id of
    the binary, empty when it has none and else padded with ['0'] to 40
    characters, never truncated. *)
Theorem perf_reader_arguments self input_profile_name :
  ∃ focus_binary_re build_id,
    ReadSample self input_profile_name "perf" =
      (let r := ReadAndSetTotalCount
                  (PerfDataSampleReader input_profile_name
                     focus_binary_re build_id) in
       ((r.1, mkCreator (binary_ self) (Some r.2)),
        if r.1 then [] else [mkLog ERROR "Error reading profile."]))
    ∧ (FLAGS_focus_binary_re ≠ EmptyString →
         focus_binary_re = FLAGS_focus_binary_re ∧ build_id = EmptyString)
    ∧ (FLAGS_focus_binary_re = EmptyString →
         (∃ stem dir base,
            cut_at_first ".unstripped" (binary_ self) stem
            ∧ stem = dir +:+ base
            ∧ (dir = EmptyString ∨ ∃ d, dir = d +:+ "/")
            ∧ has_char "/" base = false
            ∧ focus_binary_re = ".*/" +:+ base +:+ "$")
         ∧ ∃ n, build_id = GetBuildId (binary_ self) +:+ zeros n
             ∧ String.length build_id =
                 match String.length (GetBuildId (binary_ self)) with
                 | O => O
                 | len => Nat.max 40 len
                 end).
Proof.
  rewrite ReadSample_perf. cbv zeta.
  destruct (String.eqb_spec FLAGS_focus_binary_re "") as [Hflag|Hflag].
  - eexists _, _. split; [reflexivity|]. split; [done|]. intros _. split.
    + destruct (basename_suffix (strip_from ".unstripped" (binary_ self)))
        as (dir & Hbase & Hdir).
      exists (strip_from ".unstripped" (binary_ self)), dir,
        (basename (strip_from ".unstripped" (binary_ self))).
      split_and!;
        [apply strip_from_first|done|done|apply basename_no_slash|done].
    + cbn [negb fst snd]. unfold kMinPerfBuildIDStringLength, pad_zeros.
      assert (∀ s : string, s = s +:+ zeros 0) as Hnil.
      { intros s. induction s as [|c s IH]; [done|].
        change (String c s +:+ zeros 0) with (String c (s +:+ zeros 0)).
        by rewrite <- IH. }
      destruct (String.length (GetBuildId (binary_ self))) as [|len] eqn:Hlen.
      * exists O. split; [apply Hnil|]. by cbn.
      * change (0 <? S len)%nat with true. cbn [andb].
        destruct (S len <? 40)%nat eqn:Hshort.
        -- apply Nat.ltb_lt in Hshort. exists (40 - S len)%nat.
           split; [done|]. fold (zeros (40 - S len)).
           rewrite string_length_app, zeros_length, Hlen. lia.
        -- apply Nat.ltb_ge in Hshort. exists O. split; [apply Hnil|].
           rewrite Hlen. lia.
  - eexists _, _. split; [reflexivity|]. split; [|done]. intros _.
    by destruct (String.eqb_spec FLAGS_focus_binary_re "").
Qed.

Lemma ReadSample_cases self input_profile_name profiler :
  binary_ (ReadSample self input_profile_name profiler).1.2 = binary_ self
  ∧ (if (ReadSample self input_profile_name profiler).1.1
     then (ReadSample self input_profile_name profiler).2 = []
     else ∃ msg, (ReadSample self input_profile_name profiler).2
                 = [mkLog ERROR msg])
  ∧ (if decide (profiler = "perf" ∨ profiler = "text")
     then ∃ reader,
       sample_reader_ (ReadSample self input_profile_name profiler).1.2
         = Some (ReadAndSetTotalCount reader).2
       ∧ (ReadSample self input_profile_name profiler).1.1
           = (ReadAndSetTotalCount reader).1
     else (ReadSample self input_profile_name profiler).1 = (false, self)).
Proof.
  destruct (decide (profiler = "perf")) as [->|Hperf].
  { rewrite ReadSample_perf. cbv zeta. rewrite decide_True by by left.
    split_and!; [done| |by eexists].
    destruct (ReadAndSetTotalCount _) as [[] reader]; simpl; by eauto. }
  destruct (decide (profiler = "text")) as [->|Htext].
  { rewrite ReadSample_text. cbv zeta. rewrite decide_True by by right.
    split_and!; [done| |by eexists].
    destruct (ReadAndSetTotalCount _) as [[] reader]; simpl; by eauto. }
  rewrite decide_False by naive_solver.
  unfold ReadSample. rewrite !decide_False by done.
  split_and!; [done|by eexists|done].
Qed.

(** [ReadSample] logs nothing when it returns true and exactly one error
    when it returns false; it never changes the binary; with a profiler other
    than "perf" and "text" it leaves the creator as it was; with "perf" or
    "text" it installs the new reader, also when the read then fails. *)
Theorem ReadSample_outcome self input_profile_name profiler :
  binary_ (ReadSample self input_profile_name profiler).1.2 = binary_ self
  ∧ (if (ReadSample self input_profile_name profiler).1.1
     then (ReadSample self input_profile_name profiler).2 = []
     else ∃ msg, (ReadSample self input_profile_name profiler).2
                 = [mkLog ERROR msg])
  ∧ (if decide (profiler = "perf" ∨ profiler = "text")
     then ∃ reader,
       sample_reader_ (ReadSample self input_profile_name profiler).1.2
         = Some (ReadAndSetTotalCount reader).2
       ∧ (ReadSample self input_profile_name profiler).1.1
           = (ReadAndSetTotalCount reader).1
     else (ReadSample self input_profile_name profiler).1 = (false, self)).
Proof. apply ReadSample_cases. Qed.

(** ** [CreateProfile] *)


(** ** [MergeSample] *)

(** [MergeSample] returns true only when everything went well: the output
    profile, if it exists, was read; the input profile was read by a reader
    for its profiler; and the merged samples were written.  Nothing is logged
    then. *)
Theorem MergeSample_true_means_written input_file input_profiler binary
    output_file :
  (MergeSample input_file input_profiler binary output_file).1 = true →
  (MergeSample input_file input_profiler binary output_file).2 = []
  ∧ ∃ writer reader,
      (if IsFileExist (TextSampleReaderWriter output_file)
       then ReadAndSetTotalCount (TextSampleReaderWriter output_file)
            = (true, writer)
       else writer = TextSampleReaderWriter output_file)
      ∧ ReadSample (Creator_new binary) input_file input_profiler
          = ((true, mkCreator binary (Some reader)), [])
      ∧ Write (Merge writer reader) = true.
Proof.
  unfold MergeSample.
  pose proof (ReadSample_binary (Creator_new binary) input_file input_profiler)
    as Hbin.
  pose proof (ReadSample_cases (Creator_new binary) input_file input_profiler)
    as (_ & Hlog & _).
  destruct (IsFileExist (TextSampleReaderWriter output_file)).
  - destruct (ReadAndSetTotalCount (TextSampleReaderWriter output_file))
      as [[] writer]; [|done]. cbn [negb].
    destruct (ReadSample _ _ _) as [[[] [binary' [reader|]]] log]; try done.
    cbn [fst snd binary_ Creator_new] in *. subst.
    unfold mbind, Logged_bind, mret, Logged_ret. cbn [fst snd negb app sample_reader_].
    intros Hw. split; [done|]. by exists writer, reader.
  - cbn [negb].
    destruct (ReadSample _ _ _) as [[[] [binary' [reader|]]] log]; try done.
    cbn [fst snd binary_ Creator_new] in *. subst.
    unfold mbind, Logged_bind, mret, Logged_ret. cbn [fst snd negb app sample_reader_].
    intros Hw. split; [done|]. by eexists _, reader.
Qed.

(** The ways [MergeSample] fails.  An output profile that exists and
    cannot be read makes it return false without a word and without reading
    the input; so does a failed [Write].  Only a failure of [ReadSample] on
    the input leaves a line in the log, the one error [ReadSample] wrote. *)
Theorem MergeSample_failures input_file input_profiler binary output_file :
  (MergeSample input_file input_profiler binary output_file).1 = false →
  let output := TextSampleReaderWriter output_file in
  let read := ReadSample (Creator_new binary) input_file input_profiler in
  let log := (MergeSample input_file input_profiler binary output_file).2 in
  (IsFileExist output = true ∧ (ReadAndSetTotalCount output).1 = false
   ∧ log = [])
  ∨ ((IsFileExist output = true → (ReadAndSetTotalCount output).1 = true)
     ∧ read.1.1 = false ∧ log = read.2 ∧ ∃ msg, log = [mkLog ERROR msg])
  ∨ ((IsFileExist output = true → (ReadAndSetTotalCount output).1 = true)
     ∧ ∃ reader, read = ((true, mkCreator binary (Some reader)), [])
         ∧ Write (Merge (if IsFileExist output
                         then (ReadAndSetTotalCount output).2 else output)
                        reader) = false
         ∧ log = []).
Proof.
  intros Hfail output read log. subst output read log. revert Hfail.
  unfold MergeSample.
  pose proof (ReadSample_binary (Creator_new binary) input_file input_profiler)
    as Hbin.
  pose proof (ReadSample_cases (Creator_new binary) input_file input_profiler)
    as (_ & Hlog & _).
  pose proof (ReadSample_installs_reader (Creator_new binary) input_file
                input_profiler) as Hinst.
  destruct (IsFileExist (TextSampleReaderWriter output_file)).
  - destruct (ReadAndSetTotalCount (TextSampleReaderWriter output_file))
      as [[] writer]; [|by left]. cbn [negb].
    destruct (ReadSample _ _ _) as [[[] [binary' [reader|]]] log];
      cbn [fst snd binary_ Creator_new] in *; subst;
      unfold mbind, Logged_bind, mret, Logged_ret;
      cbn [fst snd negb app sample_reader_]; intros Hfail.
    + right. right. split; [done|]. by exists reader.
    + by destruct (Hinst eq_refl).
    + right. left. by rewrite app_nil_r.
    + right. left. by rewrite app_nil_r.
  - cbn [negb].
    destruct (ReadSample _ _ _) as [[[] [binary' [reader|]]] log];
      cbn [fst snd binary_ Creator_new] in *; subst;
      unfold mbind, Logged_bind, mret, Logged_ret;
      cbn [fst snd negb app sample_reader_]; intros Hfail.
    + right. right. split; [done|]. by exists reader.
    + by destruct (Hinst eq_refl).
    + right. left. by rewrite app_nil_r.
    + right. left. by rewrite app_nil_r.
Qed.

(** ** The indices of repeated prefetches *)

Lemma given_indices_counted pc hints : ∀ st,
  uint8_counters st →
  (filter (λ p, p.1 = pc) (given_indices st hints)).*2 =
    imap (λ j _, (default 0 (repeated_prefetches_indices st !! pc)
                  + Z.of_nat j) mod 256)
      (filter (λ p, p.1 = pc) (given_indices st hints)).
Proof.
  induction hints as [|hint hints IH]; intros st Hst; [done|].
  pose proof (IH _ (convert_hint_uint8 st hint Hst)) as Hrest.
  pose proof (next_index_uint8 st hint Hst) as Hnext.
  rewrite convert_hint_indices in Hrest.
  cbn [given_indices].
  destruct (GetSymbolInfoByAddr _ _) as [name|]; [|done].
  rewrite filter_app, fmap_app, imap_app.
  destruct (decide (address hint = pc)) as [Hpc|Hpc].
  - rewrite filter_cons_True, filter_nil by done. simpl. f_equal.
    + unfold next_index in *. rewrite Hpc in *.
      rewrite Z.add_0_r, Z.mod_small; [done|lia].
    + rewrite Hrest at 1. apply imap_ext. intros j p _. simpl.
      unfold bump_index, next_index, to_uint8. rewrite Hpc.
      rewrite lookup_insert_eq. simpl.
      rewrite Zplus_mod_idemp_l. f_equal. lia.
  - rewrite filter_cons_False, filter_nil by done. simpl.
    rewrite Hrest at 1. apply imap_ext. intros j p _. simpl.
    unfold bump_index. by rewrite lookup_insert_ne.
Qed.

(** The indices count per address: whatever hints at other addresses come
    in between, the hints at one address that get past the address lookup
    are given the indices 0, 1, 2, ... in their order, modulo 256. *)
Theorem prefetch_indices_count_per_address st hints pc :
  repeated_prefetches_indices st = ∅ →
  (filter (λ p, p.1 = pc) (given_indices st hints)).*2 =
    imap (λ j _, Z.of_nat j mod 256)
      (filter (λ p, p.1 = pc) (given_indices st hints)).
Proof.
  intros Hfresh. rewrite given_indices_counted.
  - apply imap_ext. intros j p _. simpl. by rewrite Hfresh, lookup_empty.
  - intros k v. by rewrite Hfresh, lookup_empty.
Qed.

End Creator_outcomes.

(* ===================================================================== *)
(** * Part VI: the claims on a concrete binary *)
(* ===================================================================== *)

Section Demo.
Import ProfileCreator SpecModel.
#[local] Existing Instance demo.

Lemma address_outside_functions_changes_nothing_witness :
  let hint := mkHint 12288 (-4) "T1" in
  convert_hint demo_loop hint =
    (demo_loop, [mkLog INFO "Instruction address not found:3000"])
  ∧ (convert_hints demo_loop [mkHint 4096 8 "NTA"; hint]).1
    = (convert_hints demo_loop [mkHint 4096 8 "NTA"]).1
  ∧ compute_sample demo_map (12288, 1) =
      (demo_map, [mkLog INFO "dropped sample at 3000"]).
Proof.
  destruct address_outside_functions_changes_nothing as (Hstep & Hrun & Hsample).
  split_and!.
  - apply (Hstep demo demo_loop (mkHint 12288 (-4) "T1")). reflexivity.
  - apply (Hrun demo demo_loop [mkHint 4096 8 "NTA"] (mkHint 12288 (-4) "T1") []).
    vm_compute. reflexivity.
  - refine (proj2 (Hsample demo_world demo_map 12288 _) 1).
    intros r Hr. unfold demo_map in Hr. simpl in Hr.
    repeat (apply elem_of_cons in Hr as [->|Hr]; [simpl; lia|]).
    by apply elem_of_nil in Hr.
Defined.


(** C1, as stated, fails: the second line of this file lacks its type
    field, and the conversion still returns true and commits the record of
    the first line (the third line is not read). *)
Lemma malformed_line_keeps_earlier_hints :
  let fs := hint_file ["1000,8,NTA"; "1000,-4"; "2000,1,T0"] in
  let r := ConvertPrefetchHints fs (Creator_new "a.out") "hints.txt" demo_map in
  fscanf_hint (list_ascii_of_string (unlines ["1000,-4"; "2000,1,T0"])) = None
  ∧ r.1.1 = true
  ∧ target_count r.1.2 "foo" ("foo.c", 10, 0) "__prefetch_NTA_0" = Some 8
  ∧ profiles r.1.2 !! "bar" = None.
Proof. vm_compute. done. Qed.

Lemma malformed_line_stops_reading_witness :
  let fs := hint_file ["1000,8,NTA"; "1000,-4"; "2000,1,T0"] in
  ReadPrefetchHints fs "hints.txt" =
    ([mkHint 4096 8 "NTA"], [mkLog ERROR "Error reading from hints.txt"])
  ∧ (ConvertPrefetchHints fs (Creator_new "a.out") "hints.txt" demo_map).1.1
    = true.
Proof.
  intros fs.
  destruct (malformed_line_stops_reading (collab := demo) fs (Creator_new "a.out") "hints.txt"
              demo_map (unlines ["1000,8,NTA"; "1000,-4"; "2000,1,T0"])
              demo_resolver [mkHint 4096 8 "NTA"]
              (list_ascii_of_string (unlines ["1000,-4"; "2000,1,T0"])))
    as [Hread Hconvert].
  - reflexivity.
  - reflexivity.
  - eapply scans_cons; [vm_compute; reflexivity | discriminate | apply scans_nil].
  - vm_compute. reflexivity.
  - split; [exact Hread|]. by rewrite Hconvert.
Defined.

(** C2, as stated, fails: on a hint file that does not exist the
    conversion returns true, and [CreateProfile] goes on to hand the (empty)
    map to the writer and returns true. *)
Lemma missing_hint_file_is_converted :
  let r := ConvertPrefetchHints ∅ (Creator_new "a.out") "missing.txt" demo_map in
  let created := (CreateProfile ∅ (Creator_new "a.out") "missing.txt"
                    "prefetch" () "out.afdo" false).1 in
  (∅ : gmap string string) !! "missing.txt" = None
  ∧ r.1.1 = true
  ∧ r.2 = [mkLog ERROR "Cannot open missing.txtto read"]
  ∧ created_ok created = true
  ∧ is_Some (handed_to_writer created).
Proof. vm_compute. split_and!; try done. by eexists. Qed.

Lemma unreadable_input_profile_witness :
  ConvertPrefetchHints ∅ (Creator_new "a.out") "missing.txt" demo_map =
    ((true, demo_loop.(loop_map)),
     [mkLog ERROR "Cannot open missing.txtto read"])
  ∧ (ReadSample (Creator_new "a.out") "missing.txt" "text").1.1 = false
  ∧ created_ok (CreateProfile ∅ (Creator_new "a.out") "missing.txt" "text"
                  () "out.afdo" false).1 = false
  ∧ handed_to_writer (CreateProfile ∅ (Creator_new "a.out") "missing.txt"
                        "text" () "out.afdo" false).1 = None
  ∧ (ReadSample (Creator_new "a.out") "missing.data" "perf").1.1 = false
  ∧ created_ok (CreateProfile ∅ (Creator_new "a.out") "missing.txt"
                  "prefetch" () "out.afdo" false).1 = true
  ∧ handed_to_writer (CreateProfile ∅ (Creator_new "a.out") "missing.txt"
                        "prefetch" () "out.afdo" false).1
    = Some (mkMap ∅ demo_ranges (Some demo_resolver) true)
  ∧ (CreateProfile ∅ (Creator_new "a.out") "missing.txt" "prefetch" ()
       "out.afdo" false).2
    = [mkLog ERROR "Cannot open missing.txtto read"].
Proof.
  destruct (unreadable_input_profile (collab := demo))
    as (Hhint & Hread & Hcreate & Hperf & Hprefetch).
  split_and!.
  - rewrite (Hhint ∅ (Creator_new "a.out") "missing.txt" demo_map demo_resolver)
      by reflexivity.
    vm_compute. reflexivity.
  - apply Hread. reflexivity.
  - apply (Hcreate ∅ (Creator_new "a.out") "missing.txt" "text" () "out.afdo" false);
      [discriminate | apply Hread; reflexivity].
  - apply (Hcreate ∅ (Creator_new "a.out") "missing.txt" "text" () "out.afdo" false);
      [discriminate | apply Hread; reflexivity].
  - exact (proj1 (Hperf (Creator_new "a.out") "missing.data"
                    (λ _ _, eq_refl))).
  - rewrite (Hprefetch ∅ (Creator_new "a.out") "missing.txt" () "out.afdo"
               false demo_resolver) by reflexivity.
    reflexivity.
  - rewrite (Hprefetch ∅ (Creator_new "a.out") "missing.txt" () "out.afdo"
               false demo_resolver) by reflexivity.
    vm_compute. reflexivity.
  - rewrite (Hprefetch ∅ (Creator_new "a.out") "missing.txt" () "out.afdo"
               false demo_resolver) by reflexivity.
    reflexivity.
Defined.

(** C3 on the code: the two hints of the design document get the targets
    [__prefetch_NTA_0] and [__prefetch_T1_1]; but the index is a [uint8_t],
    so the 257th hint at one address is given index 0 again: of 257 hints
    [1000,1,NTA] the first and the last share the target
    [__prefetch_NTA_0], whose count is the sum of the two, and only 256
    targets are recorded. *)
Theorem prefetch_index_wraps_after_256_hints :
  let site := ("foo.c", 10, 0) in
  let two := (ConvertPrefetchHints (hint_file ["1000,8,NTA"; "1000,-4,T1"])
                (Creator_new "a.out") "hints.txt" demo_map).1.2 in
  let many := (ConvertPrefetchHints (hint_file (replicate 257 "1000,1,NTA"))
                 (Creator_new "a.out") "hints.txt" demo_map).1.2 in
  let st256 := (convert_hints demo_loop (replicate 256 (mkHint 4096 1 "NTA"))).1 in
  target_count two "foo" site "__prefetch_NTA_0" = Some 8
  ∧ target_count two "foo" site "__prefetch_T1_1" = Some (2 ^ 64 - 4)
  ∧ next_index st256 (mkHint 4096 1 "NTA") = 0
  ∧ prefetch_target "NTA" (next_index st256 (mkHint 4096 1 "NTA"))
    = prefetch_target "NTA" (next_index demo_loop (mkHint 4096 1 "NTA"))
  ∧ target_count many "foo" site "__prefetch_NTA_0" = Some 2
  ∧ target_count many "foo" site "__prefetch_NTA_255" = Some 1
  ∧ target_count many "foo" site "__prefetch_NTA_256" = None
  ∧ (λ p, size (default ∅ (call_targets p !! site))) <$> profiles many !! "foo"
    = Some 256%nat.
Proof. vm_compute. done. Qed.

Lemma prefetch_targets_distinct_up_to_256_witness :
  let hints := [mkHint 4096 8 "NTA"; mkHint 4096 (-4) "T1"] in
  given_targets demo_loop hints = ["__prefetch_NTA_0"; "__prefetch_T1_1"]
  ∧ NoDup (given_targets demo_loop hints).
Proof.
  intros hints. split; [vm_compute; reflexivity|].
  apply (prefetch_targets_distinct_up_to_256 (collab := demo) demo_loop 4096 hints).
  - reflexivity.
  - intros hint Hin. unfold hints in Hin.
    repeat (apply elem_of_cons in Hin as [->|Hin]; [reflexivity|]).
    by apply elem_of_nil in Hin.
  - simpl. lia.
Defined.

Lemma well_formed_file_is_read_whole_witness :
  ReadPrefetchHints (hint_file ["1000,8,NTA"; "1000,-4,T1"]) "hints.txt" =
    ([mkHint 4096 8 "NTA"; mkHint 4096 (-4) "T1"], []).
Proof.
  apply (well_formed_file_is_read_whole _ "hints.txt"
           (unlines ["1000,8,NTA"; "1000,-4,T1"]) [mkHint 4096 8 "NTA"]
           (list_ascii_of_string (unlines ["1000,-4,T1"]))
           (mkHint 4096 (-4) "T1")).
  - reflexivity.
  - eapply scans_cons; [vm_compute; reflexivity | discriminate | apply scans_nil].
  - vm_compute. reflexivity.
Defined.

Lemma fscanf_hint_render_witness :
  let hint := mkHint 4096 (-4) "T1" in
  string_of_list_ascii (render_hint hint) = "1000,-4,T1" +:+ nl
  ∧ fscanf_hint (render_hint hint ++ list_ascii_of_string "2000,1,T0")
    = Some (hint, list_ascii_of_string "2000,1,T0").
Proof.
  intros hint. split; [vm_compute; reflexivity|].
  apply (fscanf_hint_render hint (list_ascii_of_string "2000,1,T0")).
  unfold well_formed, token, prefetch_type_size, UINT64_MAX, INT64_MIN,
      INT64_MAX. simpl.
  split_and!; try lia; [discriminate|by repeat constructor].
Defined.

Lemma lines_before_a_malformed_line_are_read_witness :
  let hints := [mkHint 4096 8 "NTA"] in
  let bad := list_ascii_of_string (unlines ["1000,-4"; "2000,1,T0"]) in
  string_of_list_ascii (mjoin (render_hint <$> hints) ++ bad)
    = unlines ["1000,8,NTA"; "1000,-4"; "2000,1,T0"]
  ∧ ReadPrefetchHints (hint_file ["1000,8,NTA"; "1000,-4"; "2000,1,T0"])
      "hints.txt"
    = (hints, [mkLog ERROR "Error reading from hints.txt"]).
Proof.
  intros hints bad. split; [vm_compute; reflexivity|].
  apply (lines_before_a_malformed_line_are_read _ "hints.txt" hints bad).
  - vm_compute. reflexivity.
  - constructor; [|constructor].
    unfold well_formed, token, prefetch_type_size, UINT64_MAX, INT64_MIN,
      INT64_MAX. simpl.
    split_and!; try lia; [discriminate|by repeat constructor].
  - discriminate.
  - vm_compute. reflexivity.
  - vm_compute. reflexivity.
Defined.

Lemma hint_count_is_delta_as_uint64_witness :
  let hint := mkHint 4096 (-4) "T1" in
  GetSymbolInfoByAddr (loop_map demo_loop) (address hint) = Some "foo"
  ∧ target_count (loop_map (convert_hint demo_loop hint).1)
      "foo" ("foo.c", 10, 0) "__prefetch_T1_0" = Some (2 ^ 64 - 4).
Proof.
  intros hint. split; [reflexivity|].
  destruct (hint_count_is_delta_as_uint64 (collab := demo) demo_loop hint "foo"
              (ensure_entry (loop_map demo_loop) "foo" 4096).2
              eq_refl eq_refl) as (Hmap & _).
  rewrite Hmap. vm_compute. reflexivity.
Defined.

(** C7, as stated, fails: 0x1008 lies in [foo] and has no inline stack;
    the hint adds no target, and yet the map is not as it was:
    [EnsureEntryInFuncForSymbol] has given [foo] a profile with an entry for
    the address. *)
Lemma empty_stack_hint_changes_the_map :
  let hint := mkHint 4104 8 "NTA" in
  let after := loop_map (convert_hint demo_loop hint).1 in
  GetSymbolInfoByAddr (loop_map demo_loop) 4104 = Some "foo"
  ∧ GetInlineStack (loop_map demo_loop) 4104 = []
  ∧ profiles (loop_map demo_loop) !! "foo" = None
  ∧ (λ p, (bool_decide (4104 ∈ entries p),
           bool_decide (call_targets p = ∅))) <$> profiles after !! "foo"
    = Some (true, true)
  ∧ after ≠ loop_map demo_loop.
Proof.
  split_and!; try (vm_compute; reflexivity).
  intros Heq. apply (f_equal (λ m, profiles m !! "foo")) in Heq.
  vm_compute in Heq. discriminate Heq.
Qed.

Lemma empty_stack_hint_adds_no_target_witness :
  let hint := mkHint 4104 8 "NTA" in
  convert_hint demo_loop hint =
    (mkLoop (ensure_entry (loop_map demo_loop) "foo" 4104).2 {[4104 := 1]},
     [mkLog WARNING
        ("Ignoring address 1008. Could not add an indirect call target. "
         +:+ "Likely the inline stack is empty for this address.")]).
Proof.
  intros hint.
  exact (empty_stack_hint_adds_no_target (collab := demo) demo_loop hint "foo"
           (ensure_entry (loop_map demo_loop) "foo" 4104).2
           eq_refl eq_refl eq_refl (λ _ _, eq_refl)).
Defined.

Lemma no_resolver_no_attribution_witness :
  Addr2line_Create "stripped" = None
  ∧ ConvertPrefetchHints (hint_file ["1000,8,NTA"]) (Creator_new "stripped")
      "hints.txt" demo_map =
      ((false, demo_map), [mkLog ERROR "Error reading binary stripped"])
  ∧ created_ok (CreateProfile (hint_file ["1000,8,NTA"]) (Creator_new "stripped")
                  "hints.txt" "prefetch" () "out.afdo" false).1 = false
  ∧ handed_to_writer (CreateProfile ∅ (Creator_new "stripped")
                        "samples.txt" "text" () "out.afdo" false).1 = None.
Proof.
  destruct (no_resolver_no_attribution (collab := demo))
    as (Hconvert & _ & Hprefetch & Hsample).
  split_and!.
  - reflexivity.
  - apply (Hconvert _ (Creator_new "stripped")). reflexivity.
  - apply (Hprefetch _ (Creator_new "stripped")). reflexivity.
  - apply (Hsample ∅ (Creator_new "stripped") "samples.txt" "text");
      [discriminate | reflexivity].
Defined.

Lemma total_sample_count_defaults_to_zero_witness :
  (GetTotalCountFromTextProfile "none.txt").1 = 0
  ∧ (GetTotalCountFromTextProfile "samples.txt").1 = 13
  ∧ TotalSamples (Creator_new "a.out") = 0.
Proof.
  destruct (total_sample_count_defaults_to_zero (collab := demo))
    as (Hget & Hunread & _ & Hnew).
  split_and!.
  - apply Hunread. reflexivity.
  - rewrite Hget. reflexivity.
  - apply Hnew.
Defined.


Lemma fscanf_hint_accepts_free_layout_witness :
  fscanf_hint (list_ascii_of_string " 0x1000, -4, NTA")
    = Some (mkHint 4096 (-4) "NTA", []).
Proof.
  apply (fscanf_hint_accepts_free_layout [" "%char] true [" "%char]
           [" "%char] (mkHint 4096 (-4) "NTA") []);
    [|by repeat constructor..|exact I].
  unfold well_formed, token, prefetch_type_size, UINT64_MAX, INT64_MIN,
      INT64_MAX. simpl.
  split_and!; try lia; [discriminate|by repeat constructor].
Defined.

Lemma space_before_comma_is_an_error_witness :
  ReadPrefetchHints (hint_file ["1000 ,8,NTA"]) "hints.txt" =
    ([], [mkLog ERROR "Error reading from hints.txt"]).
Proof.
  apply (space_before_comma_is_an_error (hint_file ["1000 ,8,NTA"])
           "hints.txt" 4096 " "%char
           (list_ascii_of_string (",8,NTA" +:+ nl)));
    [lia|reflexivity|vm_compute; reflexivity].
Defined.

Lemma rendered_file_is_read_back_witness :
  ReadPrefetchHints (hint_file ["1000,8,NTA"; "2000,-4,T0"]) "hints.txt" =
    ([mkHint 4096 8 "NTA"; mkHint 8192 (-4) "T0"], []).
Proof.
  apply (rendered_file_is_read_back
           (hint_file ["1000,8,NTA"; "2000,-4,T0"]) "hints.txt"
           [mkHint 4096 8 "NTA"; mkHint 8192 (-4) "T0"]);
    [done| |vm_compute; reflexivity].
  apply Forall_cons; split; [|apply Forall_singleton];
    (unfold well_formed, token, prefetch_type_size, UINT64_MAX, INT64_MIN,
      INT64_MAX; simpl;
     split_and!; try lia; [discriminate|by repeat constructor]).
Defined.

Lemma blank_file_is_an_error_witness :
  ReadPrefetchHints {[ "hints.txt" := EmptyString ]} "hints.txt" =
    ([], [mkLog ERROR "Error reading from hints.txt"])
  ∧ ReadPrefetchHints (hint_file [""; "  "]) "hints.txt" =
      ([], [mkLog ERROR "Error reading from hints.txt"]).
Proof.
  split.
  - apply (blank_file_is_an_error _ "hints.txt" EmptyString);
      [reflexivity|constructor].
  - apply (blank_file_is_an_error _ "hints.txt" (unlines [""; "  "]));
      [reflexivity|by repeat constructor].
Defined.


Lemma MergeSample_true_means_written_witness :
  (MergeSample "samples.txt" "text" "a.out" "merged.txt").1 = true
  ∧ (MergeSample "samples.txt" "text" "a.out" "merged.txt").2 = [].
Proof.
  assert ((MergeSample "samples.txt" "text" "a.out" "merged.txt").1 = true)
    as Hok by (vm_compute; reflexivity).
  split; [done|].
  apply (MergeSample_true_means_written (collab := demo) _ _ _ _ Hok).
Defined.

Lemma MergeSample_failures_witness :
  let merged := @MergeSample (with_existing_outputs demo)
                  "samples.txt" "text" "a.out" "merged.txt" in
  merged.1 = false ∧ merged.2 = [].
Proof.
  intros merged.
  assert (merged.1 = false) as Hfail by (vm_compute; reflexivity).
  split; [done|].
  destruct (MergeSample_failures (collab := with_existing_outputs demo)
              _ _ _ _ Hfail)
    as [(_ & _ & Hlog)|[(Hread & _)|(Hread & _)]]; [exact Hlog|..];
    specialize (Hread eq_refl); vm_compute in Hread; discriminate.
Defined.

Lemma prefetch_indices_count_per_address_witness :
  let hints := [mkHint 4096 8 "NTA"; mkHint 8192 1 "T0"; mkHint 4096 (-4) "T1";
                mkHint 12288 2 "T0"; mkHint 4096 16 "NTA"] in
  (filter (λ p, p.1 = 4096) (given_indices demo_loop hints)).*2 = [0; 1; 2]
  ∧ (filter (λ p, p.1 = 8192) (given_indices demo_loop hints)).*2 = [0]
  ∧ (filter (λ p, p.1 = 12288) (given_indices demo_loop hints)).*2 = [].
Proof.
  intros hints. split_and!.
  - etrans; [exact (prefetch_indices_count_per_address (collab := demo)
                      demo_loop hints 4096 eq_refl)|].
    vm_compute. reflexivity.
  - etrans; [exact (prefetch_indices_count_per_address (collab := demo)
                      demo_loop hints 8192 eq_refl)|].
    vm_compute. reflexivity.
  - etrans; [exact (prefetch_indices_count_per_address (collab := demo)
                      demo_loop hints 12288 eq_refl)|].
    vm_compute. reflexivity.
Defined.

End Demo.
